(** * MaplatAffine: affine fitting, application and CRS selection

    A shallow embedding of [src/transform.ts], [src/rmse.ts],
    [src/compute.ts] and [src/find_best.ts].

    Numbers.  A JavaScript [number] is read as a real number: every
    arithmetic operator of the source ([+], [-], [*], [/], [Math.abs],
    [Math.sqrt], [Math.cos], [Math.sin], [Math.atan2]) is its exact
    counterpart on [R].  Rounding, infinities and NaN are therefore outside
    this reading.  [src/transform.ts] is read a second time, in
    [TransformF], on binary64 numbers, to settle what its round trip does
    under rounding.

    Exceptions.  A [throw] becomes the [Err] constructor of [Result]; the
    source throws plain [Error] objects, which are told apart here by the
    place they are thrown from. *)

From Stdlib Require Import Reals Lra Lia String Ascii Bool Arith NArith List.
From Stdlib Require PrimFloat.
Import ListNotations.

Open Scope R_scope.

(** * The program *)

(** ** Values shared by all files *)

(** [Position] of geojson, used as a pair [[x, y]]. *)
Definition Position : Type := (R * R)%type.

(** [AffineParams] of [interface.ts]: the array [[A, B, C, D, E, F]]. *)
Definition AffineParams : Type := (R * R * R * R * R * R)%type.

(** The places where the sources throw. *)
Inductive error : Type :=
| SingularTransformError   (* transform.ts, inverseAffine: det ~ 0 *)
| LengthMismatchError      (* rmse.ts, compute.ts, find_best.ts: lengths *)
| InsufficientPointsError  (* compute.ts: n < 2 *)
| UnknownModeError         (* compute.ts: default branch of the mode switch *)
| DegenerateGeometryError  (* compute.ts, computeSimilarCore: bigC ~ 0 *)
| SingularFitError         (* math.inv: determinant is zero *)
| ProjectionError          (* thrown by the projection engine *)
| TypeError.               (* raised by the JavaScript runtime itself *)

Inductive Result (T : Type) : Type :=
| Ok (v : T)
| Err (e : error).
Arguments Ok {T} v.
Arguments Err {T} e.

Definition bind {T U : Type} (m : Result T) (k : T -> Result U) : Result U :=
  match m with
  | Ok v => k v
  | Err e => Err e
  end.

Notation "x <- m ;; k" := (bind m (fun x => k))
  (at level 61, m at next level, right associativity).
Notation "' p <- m ;; k" := (bind m (fun x => let p := x in k))
  (at level 61, p pattern, m at next level, right associativity).

(** The constant [1e-15] that all degeneracy tests of the sources use. *)
Definition eps : R := 1e-15.

(** ** transform.ts *)

Module Transform.

Definition forwardAffine (params : AffineParams) (imagePoints : Position)
  : Position :=
  let '(A, B, C, D, E, F) := params in
  let '(x, y) := imagePoints in
  let X := A * x + B * y + C in
  let Y := D * x + E * y + F in
  (X, Y).

Definition inverseAffine (params : AffineParams) (mapPoints : Position)
  : Result Position :=
  let '(A, B, C, D, E, F) := params in
  let '(X, Y) := mapPoints in
  let det := A * E - B * D in
  if Rlt_dec (Rabs det) eps then Err SingularTransformError
  else
    let Xc := X - C in
    let Yf := Y - F in
    let x := (E * Xc - B * Yf) / det in
    let y := (- D * Xc + A * Yf) / det in
    Ok (x, y).

End Transform.

Import Transform.

(** ** transform.ts on binary64 numbers

    The same two functions with [number] read as what it is at run time,
    an IEEE 754 binary64 value: [+], [-], [*] and [/] round to nearest,
    [Math.abs] and the comparison are exact, as in JavaScript. *)

Module TransformF.

Import PrimFloat.

Definition Position : Type := (float * float)%type.

Definition AffineParams : Type :=
  (float * float * float * float * float * float)%type.

Definition forwardAffine (params : AffineParams) (imagePoints : Position)
  : Position :=
  let '(A, B, C, D, E, F) := params in
  let '(x, y) := imagePoints in
  let X := (A * x + B * y + C)%float in
  let Y := (D * x + E * y + F)%float in
  (X, Y).

Definition inverseAffine (params : AffineParams) (mapPoints : Position)
  : Result Position :=
  let '(A, B, C, D, E, F) := params in
  let '(X, Y) := mapPoints in
  let det := (A * E - B * D)%float in
  if (abs det <? 1e-15)%float then Err SingularTransformError
  else
    let Xc := (X - C)%float in
    let Yf := (Y - F)%float in
    let x := ((E * Xc - B * Yf) / det)%float in
    let y := ((- D * Xc + A * Yf) / det)%float in
    Ok (x, y).

End TransformF.

(** ** rmse.ts *)

(** [let s = 0; for (...) s += f(item)]: the accumulation loops of the
    sources, in their left-to-right order. *)
Definition sumf {T : Type} (f : T -> R) (l : list T) : R :=
  fold_left (fun acc item => acc + f item) l 0.

Module Rmse.

(** The loop runs over [i < n] and reads [observedPoints[i]] and
    [predictedPoints[i]]; it is only reached when both lengths are [n], so
    the index pairs are those of [combine]. *)
Definition computeRMSE (observedPoints predictedPoints : list Position)
  : Result R :=
  let n := length observedPoints in
  if ((n =? 0)%nat || negb (n =? length predictedPoints)%nat)%bool
  then Err LengthMismatchError
  else
    let sumSqDiff :=
      sumf (fun '((ox, oy), (px, py)) =>
              let dx := ox - px in
              let dy := oy - py in
              dx * dx + dy * dy)
           (combine observedPoints predictedPoints) in
    let mse := sumSqDiff / INR n in
    let rmse := sqrt mse in
    Ok rmse.

End Rmse.

Import Rmse.

(** The sum [Σᵢ (dxᵢ² + dyᵢ²)] over index-paired points, as the
    specification writes it. *)
Fixpoint sq_diff_sum (obs pred : list Position) : R :=
  match obs, pred with
  | (ox, oy) :: obs', (px, py) :: pred' =>
      ((ox - px) ^ 2 + (oy - py) ^ 2) + sq_diff_sum obs' pred'
  | _, _ => 0
  end.

(** ** The linear-algebra library (mathjs) *)

Module MathJS.

(** A dense matrix, row by row, as [math.matrix] receives it. *)
Definition Matrix : Type := list (list R).

Definition get (M : Matrix) (i j : nat) : R := nth j (nth i M []) 0.

Definition columns (M : Matrix) : nat := length (hd [] M).

Definition transpose (M : Matrix) : Matrix :=
  map (fun j => map (fun row => nth j row 0) M) (seq 0 (columns M)).

Definition dot (r c : list R) : R :=
  sumf (fun '(a, b) => a * b) (combine r c).

Definition multiply (M N : Matrix) : Matrix :=
  map (fun row => map (fun col => dot row col) (transpose N)) M.

Fixpoint remove_nth {T : Type} (j : nat) (l : list T) : list T :=
  match l, j with
  | [], _ => []
  | _ :: t, O => t
  | h :: t, S j' => h :: remove_nth j' t
  end.

(** The matrix without row [i] and column [j]. *)
Definition minor (M : Matrix) (i j : nat) : Matrix :=
  map (remove_nth j) (remove_nth i M).

Definition signed (k : nat) (x : R) : R :=
  if Nat.even k then x else - x.

(** Determinant of an [n] x [n] matrix, expanded along its first row. *)
Fixpoint det_n (n : nat) (M : Matrix) : R :=
  match n with
  | O => 1
  | S n' =>
      sumf (fun j => signed j (get M 0 j * det_n n' (minor M 0 j)))
           (seq 0 (S n'))
  end.

Definition det (M : Matrix) : R := det_n (length M) M.

Definition adjugate (M : Matrix) : Matrix :=
  let n := length M in
  map (fun i =>
         map (fun j => signed (i + j) (det_n (pred n) (minor M j i)))
             (seq 0 n))
      (seq 0 n).

(** Modelled from the spec: [math.inv] of mathjs, which is not part of the
    sources.  The specification asks of it the matrix inverse, failing when
    the matrix is not invertible; on real numbers that is the adjugate
    divided by the determinant, and a failure exactly when the determinant
    is zero.  Under rounding mathjs fails only when its elimination meets
    a pivot that is exactly zero, which a singular matrix need not
    produce: every theorem on the fits below either assumes the
    determinant not zero or holds whatever [inv] returns. *)
Definition inv (M : Matrix) : Result Matrix :=
  let d := det M in
  if Req_dec_T d 0 then Err SingularFitError
  else Ok (map (map (fun c => c / d)) (adjugate M)).

End MathJS.

(** [Math.atan2(y, x)] on real numbers: the angle of the point [(x, y)] in
    [(-PI, PI]], and [0] at the origin (there is one zero on [R]). *)
Definition Math_atan2 (y x : R) : R :=
  if Rlt_dec 0 x then atan (y / x)
  else if Rlt_dec x 0 then
    if Rle_dec 0 y then atan (y / x) + PI else atan (y / x) - PI
  else
    if Rlt_dec 0 y then PI / 2
    else if Rlt_dec y 0 then - (PI / 2)
    else 0.

(** ** compute.ts *)

Module Compute.

Import MathJS.

(** The private fitting functions loop over [i < imgPts.length] and read
    [imgPts[i]] and [mapPts[i]]; they are reached only through
    [computeTransformParams], behind its test that both arrays have the same
    length, so the index pairs are those of [combine]. *)

(** [computeAffine6]: the [console.warn] for fewer than three points writes
    to the console only and is left out. *)
Definition computeAffine6 (imgPts mapPts : list Position)
  : Result AffineParams :=
  let rows := combine imgPts mapPts in
  let M : Matrix :=
    flat_map (fun '((x, y), (_, _)) => [[x; y; 1; 0; 0; 0]; [0; 0; 0; x; y; 1]])
             rows in
  let V : Matrix :=
    flat_map (fun '((_, _), (X, Y)) => [[X]; [Y]]) rows in
  let Mt := transpose M in
  let MtM := multiply Mt M in
  invMtM <- inv MtM ;;
  let MtV := multiply Mt V in
  let p := multiply invMtM MtV in
  let A := get p 0 0 in
  let B := get p 1 0 in
  let C := get p 2 0 in
  let D := get p 3 0 in
  let E := get p 4 0 in
  let F := get p 5 0 in
  Ok (A, B, C, D, E, F).

Definition computeSimilarCore (imgPts mapPts : list Position)
  : Result AffineParams :=
  let n := INR (length imgPts) in
  let rows := combine imgPts mapPts in
  (* 1) centroids *)
  let sumX_img := sumf (fun '((x, _), (_, _)) => x) rows in
  let sumY_img := sumf (fun '((_, y), (_, _)) => y) rows in
  let sumX_map := sumf (fun '((_, _), (X, _)) => X) rows in
  let sumY_map := sumf (fun '((_, _), (_, Y)) => Y) rows in
  let cx_img := sumX_img / n in
  let cy_img := sumY_img / n in
  let cx_map := sumX_map / n in
  let cy_map := sumY_map / n in
  (* 2) shift to the centroids *)
  let shifted :=
    map (fun '((x, y), (X, Y)) =>
           ((x - cx_img, y - cy_img), (X - cx_map, Y - cy_map)))
        rows in
  (* 3) Procrustes sums *)
  let bigA := sumf (fun '((ix, iy), (mX, mY)) => ix * mX + iy * mY) shifted in
  let bigB := sumf (fun '((ix, iy), (mX, mY)) => ix * mY - iy * mX) shifted in
  let bigC := sumf (fun '((ix, iy), (_, _)) => ix * ix + iy * iy) shifted in
  if Rlt_dec (Rabs bigC) eps then Err DegenerateGeometryError
  else
    let theta := Math_atan2 bigB bigA in
    let norm := sqrt (bigA * bigA + bigB * bigB) in
    let s := norm / bigC in
    (* 4) translation *)
    let cosT := cos theta in
    let sinT := sin theta in
    let rx := cosT * cx_img - sinT * cy_img in
    let ry := sinT * cx_img + cosT * cy_img in
    let tx := cx_map - s * rx in
    let ty := cy_map - s * ry in
    (* 5) as an affine matrix *)
    let A := s * cosT in
    let B := - s * sinT in
    let D := s * sinT in
    let E := s * cosT in
    let C := tx in
    let F := ty in
    Ok (A, B, C, D, E, F).

Definition flipY (imgPts : list Position) : list Position :=
  map (fun '(x, y) => (x, - y)) imgPts.

Definition convertFlipParam (paramFlip : AffineParams) : AffineParams :=
  let '(p0, p1, p2, p3, p4, p5) := paramFlip in
  (p0, - p1, p2, p3, - p4, p5).

Definition sumOfSquaredResiduals (affine : AffineParams)
  (imgPts mapPts : list Position) : R :=
  let '(a0, a1, a2, a3, a4, a5) := affine in
  sumf (fun '((x, y), (X, Y)) =>
          let Xp := a0 * x + a1 * y + a2 in
          let Yp := a3 * x + a4 * y + a5 in
          let dx := X - Xp in
          let dy := Y - Yp in
          dx * dx + dy * dy)
       (combine imgPts mapPts).

(** [YAxisMode] is a string at run time; both switches on it send every
    string other than ['same'] and ['opposite'] to the ['auto'] branch
    ([case 'auto': default:]). *)
Definition computeSimilarAsAffine (imgPts mapPts : list Position)
  (yAxisMode : string) : Result AffineParams :=
  paramNoFlip <- computeSimilarCore imgPts mapPts ;;
  paramFlip <- computeSimilarCore (flipY imgPts) mapPts ;;
  if (yAxisMode =? "same")%string then Ok paramNoFlip
  else if (yAxisMode =? "opposite")%string then Ok (convertFlipParam paramFlip)
  else
    let paramA := paramNoFlip in
    let errA := sumOfSquaredResiduals paramA imgPts mapPts in
    let paramB := convertFlipParam paramFlip in
    let errB := sumOfSquaredResiduals paramB imgPts mapPts in
    Ok (if Rle_dec errA errB then paramA else paramB).

Definition computeNoShearCore (imgPts mapPts : list Position)
  : Result AffineParams :=
  let rows := combine imgPts mapPts in
  let M : Matrix :=
    flat_map (fun '((x, y), (_, _)) => [[x; 1; 0]; [y; 0; 1]]) rows in
  let V : Matrix :=
    flat_map (fun '((_, _), (X, Y)) => [[X]; [Y]]) rows in
  let Mt := transpose M in
  let MtM := multiply Mt M in
  invMtM <- inv MtM ;;
  let MtV := multiply Mt V in
  let p := multiply invMtM MtV in
  let A_ := get p 0 0 in
  let C_ := get p 1 0 in
  let F_ := get p 2 0 in
  Ok (A_, 0, C_, 0, A_, F_).

Definition computeNoShearAsAffine (imgPts mapPts : list Position)
  (yAxisMode : string) : Result AffineParams :=
  paramA <- computeNoShearCore imgPts mapPts ;;
  paramFlip_ <- computeNoShearCore (flipY imgPts) mapPts ;;
  let paramB := convertFlipParam paramFlip_ in
  if (yAxisMode =? "same")%string then Ok paramA
  else if (yAxisMode =? "opposite")%string then Ok paramB
  else
    let errA := sumOfSquaredResiduals paramA imgPts mapPts in
    let errB := sumOfSquaredResiduals paramB imgPts mapPts in
    Ok (if Rle_dec errA errB then paramA else paramB).

(** [TransformMode] is a string at run time, and the switch has a [default]
    branch for every other string.  The defaults of the optional arguments
    (['affine'] and ['auto']) are written out by the caller here. *)
Definition computeTransformParams (imagePoints mapPoints : list Position)
  (mode yAxisMode : string) : Result AffineParams :=
  let n := length imagePoints in
  if (n <? 2)%nat then Err InsufficientPointsError
  else if negb (length mapPoints =? n)%nat then Err LengthMismatchError
  else if (mode =? "affine")%string then computeAffine6 imagePoints mapPoints
  else if (mode =? "similar")%string
       then computeSimilarAsAffine imagePoints mapPoints yAxisMode
  else if (mode =? "noshear")%string
       then computeNoShearAsAffine imagePoints mapPoints yAxisMode
  else Err UnknownModeError.

End Compute.

Import Compute.

(** ** Definitions used to state the theorems *)

(** The choice made by both ['auto'] branches. *)
Definition pickSmaller (imgPts mapPts : list Position)
  (paramA paramB : AffineParams) : AffineParams :=
  if Rle_dec (sumOfSquaredResiduals paramA imgPts mapPts)
             (sumOfSquaredResiduals paramB imgPts mapPts)
  then paramA else paramB.

(** The 3x3 identity matrix. *)
Definition identity3 : MathJS.Matrix := [[1; 0; 0]; [0; 1; 0]; [0; 0; 1]].

(** ** The similarity fit, as the specification words it *)

(** Centroid of a point set, the point set moved onto its centroid, and the
    three Procrustes sums over the moved sets. *)
Definition centroid (pts : list Position) : Position :=
  (sumf fst pts / INR (length pts), sumf snd pts / INR (length pts)).

Definition shift (c : Position) (p : Position) : Position :=
  (fst p - fst c, snd p - snd c).

Definition centered (pts : list Position) : list Position :=
  List.map (shift (centroid pts)) pts.

Definition bigA_of (img map : list Position) : R :=
  sumf (fun '((x', y'), (X', Y')) => x' * X' + y' * Y')
       (combine (centered img) (centered map)).

Definition bigB_of (img map : list Position) : R :=
  sumf (fun '((x', y'), (X', Y')) => x' * Y' - y' * X')
       (combine (centered img) (centered map)).

Definition bigC_of (img : list Position) : R :=
  sumf (fun '(x', y') => x' * x' + y' * y') (centered img).

(** Scale and rotation of the fit. *)
Definition scale_of (img map : list Position) : R :=
  sqrt (bigA_of img map * bigA_of img map + bigB_of img map * bigB_of img map)
  / bigC_of img.

Definition theta_of (img map : list Position) : R :=
  Math_atan2 (bigB_of img map) (bigA_of img map).

(** The matrix [s*R(theta)] with the translation that sends the image
    centroid to the map centroid. *)
Definition similarity_params (img map : list Position) : AffineParams :=
  let s := scale_of img map in
  let t := theta_of img map in
  let '(cx, cy) := centroid img in
  let '(cX, cY) := centroid map in
  (s * cos t, - s * sin t, cX - s * (cos t * cx - sin t * cy),
   s * sin t, s * cos t, cY - s * (sin t * cx + cos t * cy)).

(** ** JavaScript objects used as tables *)

Module JSObject.

(** An object with string keys, its properties in creation order.  Writing
    to an existing key keeps its place; writing to a new key appends it. *)
Definition t (V : Type) : Type := list (string * V).

Fixpoint get {V : Type} (k : string) (o : t V) : option V :=
  match o with
  | [] => None
  | (k', v) :: o' => if (k' =? k)%string then Some v else get k o'
  end.

Fixpoint set {V : Type} (k : string) (v : V) (o : t V) : t V :=
  match o with
  | [] => [(k, v)]
  | (k', v') :: o' =>
      if (k' =? k)%string then (k, v) :: o' else (k', v') :: set k v o'
  end.

Definition digit_value (c : ascii) : option N :=
  let n := N_of_ascii c in
  if ((48 <=? n) && (n <=? 57))%N then Some (n - 48)%N else None.

Fixpoint digits_value (s : string) (acc : N) : option N :=
  match s with
  | EmptyString => Some acc
  | String c s' =>
      match digit_value c with
      | Some d => digits_value s' (10 * acc + d)%N
      | None => None
      end
  end.

(** An array index is the canonical decimal form of an integer from [0] to
    [2^32 - 2]. *)
Definition array_index (s : string) : option N :=
  match s with
  | EmptyString => None
  | String c s' =>
      if (c =? "0")%char
      then match s' with EmptyString => Some 0%N | _ => None end
      else match digits_value s 0 with
           | Some n => if (n <? 4294967295)%N then Some n else None
           | None => None
           end
  end.

Fixpoint insert_index (k : N * string) (l : list (N * string))
  : list (N * string) :=
  match l with
  | [] => [k]
  | h :: l' =>
      if (fst k <=? fst h)%N then k :: l else h :: insert_index k l'
  end.

Definition index_keys {V : Type} (o : t V) : list (N * string) :=
  fold_right insert_index []
    (flat_map (fun '(k, _) =>
                 match array_index k with
                 | Some n => [(n, k)]
                 | None => []
                 end) o).

Definition is_name (k : string) : bool :=
  match array_index k with Some _ => false | None => true end.

(** [Object.keys]: the array-index keys in ascending numeric order, then
    the other keys in creation order. *)
Definition keys {V : Type} (o : t V) : list string :=
  List.map snd (index_keys o) ++ filter is_name (List.map fst o).

End JSObject.

(** ** find_best.ts *)

Fixpoint mapM {T U : Type} (f : T -> Result U) (l : list T)
  : Result (list U) :=
  match l with
  | [] => Ok []
  | h :: t => v <- f h ;; vs <- mapM f t ;; Ok (v :: vs)
  end.

Module FindBest.

Section WithProjectionEngine.

(** Modelled from the spec: the projection engine (proj4) and the table of
    CRS definitions (proj4-list), neither of which is part of the sources.
    The specification asks three operations of the engine: whether an
    identifier is defined, defining an identifier by a projection string,
    and projecting a geographic point into a named CRS; and of the table a
    lookup from an identifier to an (identifier, projection string) pair.
    The engine's registry is global state, passed along here as [Engine]. *)
Variable Engine : Type.
Variable isDefined : Engine -> string -> bool.
Variable define : Engine -> string -> string -> Engine.
Variable project : Engine -> string -> Position -> Result Position.
Variable proj4List : string -> option (string * string).

(** Step 1 of the loop body.  Taking [[code, def]] out of a missing table
    entry is a [TypeError]. *)
Definition ensureDefined (e : Engine) (crs : string) : Result Engine :=
  if negb (isDefined e crs) then
    match proj4List crs with
    | Some (code, def) => Ok (define e code def)
    | None => Err TypeError
    end
  else Ok e.

(** The loop body for one candidate.  Its entries in [mapPoints],
    [affineParams] and [assumedMapPoints] are read back only within the same
    iteration, so they are local values here; what the iteration leaves
    behind is the engine's registry and [rmse[crs]]. *)
Definition scoreCRS (lnglatPoints imagePoints : list Position)
  (mode yAxisMode : string) (e : Engine) (crs : string)
  : Result (Engine * R) :=
  e1 <- ensureDefined e crs ;;
  mapPoints <- mapM (project e1 crs) lnglatPoints ;;
  affineParams <-
    computeTransformParams imagePoints mapPoints mode yAxisMode ;;
  let assumedMapPoints := List.map (forwardAffine affineParams) imagePoints in
  r <- computeRMSE mapPoints assumedMapPoints ;;
  Ok (e1, r).

(** [for (const crs of crses) { ... rmse[crs] = ... }] *)
Fixpoint scoreLoop (lnglatPoints imagePoints : list Position)
  (mode yAxisMode : string) (e : Engine) (crses : list string)
  (rmse : JSObject.t R) : Result (Engine * JSObject.t R) :=
  match crses with
  | [] => Ok (e, rmse)
  | crs :: rest =>
      '(e1, r) <- scoreCRS lnglatPoints imagePoints mode yAxisMode e crs ;;
      scoreLoop lnglatPoints imagePoints mode yAxisMode e1 rest
                (JSObject.set crs r rmse)
  end.

(** [(a, b) => (rmse[a] < rmse[b] ? a : b)]; a comparison with a missing
    entry is false. *)
Definition pick (rmse : JSObject.t R) (a b : string) : string :=
  match JSObject.get a rmse, JSObject.get b rmse with
  | Some ra, Some rb => if Rlt_dec ra rb then a else b
  | _, _ => b
  end.

(** [array.reduce(f)] with no initial value: a [TypeError] on the empty
    array, and otherwise a left fold from the first element. *)
Definition reduce {T : Type} (f : T -> T -> T) (l : list T) : Result T :=
  match l with
  | [] => Err TypeError
  | h :: t => Ok (fold_left f t h)
  end.

(** [findBestCRS], run against the engine state [e].  The registry the call
    leaves behind is that of [scoreLoop]; the returned identifier is all
    that is kept here. *)
Definition findBestCRS (lnglatPoints imagePoints : list Position)
  (crses : list string) (mode yAxisMode : string) (e : Engine)
  : Result string :=
  if negb (length lnglatPoints =? length imagePoints)%nat
  then Err LengthMismatchError
  else
    '(_, rmse) <- scoreLoop lnglatPoints imagePoints mode yAxisMode e crses [] ;;
    reduce (pick rmse) (JSObject.keys rmse).

End WithProjectionEngine.

End FindBest.

(** ** Worked inputs *)

(** A no-shear fit whose map has its Y axis the other way round: the image
    points [(0,0), (1,1)] against the map points [(0,0), (1,-1)]. *)
Definition exImg : list Position := [(0, 0); (1, 1)].
Definition exMap : list Position := [(0, 0); (1, -1)].

(** A similarity fit: a scaling by two along the X axis. *)
Definition exSimImg : list Position := [(0, 0); (1, 0)].
Definition exSimMap : list Position := [(0, 0); (2, 0)].

(** A projection engine in which every identifier is defined and projects
    a point onto itself, so that two candidates are two names of one
    projection. *)

Definition exIsDefined (_ : unit) (_ : string) : bool := true.
Definition exDefine (e : unit) (_ _ : string) : unit := e.
Definition exProject (_ : unit) (_ : string) (p : Position)
  : Result Position := Ok p.
Definition exProj4List (_ : string) : option (string * string) := None.

Definition exScoreCRS : unit -> string -> Result (unit * R) :=
  FindBest.scoreCRS unit exIsDefined exDefine exProject exProj4List
    exMap exImg "noshear" "auto".

Definition exFindBestCRS (crses : list string) : Result string :=
  FindBest.findBestCRS unit exIsDefined exDefine exProject exProj4List
    exMap exImg crses "noshear" "auto" tt.

(** ** rmse_ratio.ts *)

Module RmseRatio.

(** As in [computeRMSE], the loops over [i < n] run behind the test that
    both arrays have length [n]. *)
Definition computeRMSEOverStdRatio
  (observedPoints predictedPoints : list Position) : Result R :=
  let n := length observedPoints in
  if ((n =? 0)%nat || negb (n =? length predictedPoints)%nat)%bool
  then Err LengthMismatchError
  else
    (* 1) RMSE *)
    let sumSqDiff :=
      sumf (fun '((ox, oy), (px, py)) =>
              let dx := ox - px in
              let dy := oy - py in
              dx * dx + dy * dy)
           (combine observedPoints predictedPoints) in
    let mse := sumSqDiff / INR n in
    let rmse := sqrt mse in
    (* 2) standard deviation of the observed points about their centroid *)
    let meanX := sumf (fun '(x, _) => x) observedPoints / INR n in
    let meanY := sumf (fun '(_, y) => y) observedPoints / INR n in
    let sumSqDist :=
      sumf (fun '(x, y) =>
              let dx := x - meanX in
              let dy := y - meanY in
              dx * dx + dy * dy)
           observedPoints in
    let var2d := sumSqDist / INR n in
    let std2d := sqrt var2d in
    (* 3) ratio *)
    let ratio := if Rgt_dec std2d eps then rmse / std2d else 0 in
    Ok ratio.

End RmseRatio.

Import RmseRatio.

(** ** shear.ts *)

Module Shear.

(** The object [{ s, theta }]. *)
Record Rotation : Type := mkRotation { s : R; theta : R }.

(** The object [{ A, B, D, E }]. *)
Record Matrix2 : Type := mkMatrix2 { A : R; B : R; D : R; E : R }.

Definition shear2Rotation (A B D E : R) : Rotation :=
  let s := sqrt (A * A + D * D) in
  if Rlt_dec s eps then {| s := 0; theta := 0 |}
  else
    let theta := Math_atan2 D A in
    {| s := s; theta := theta |}.

Definition rotation2Shear (s theta : R) : Matrix2 :=
  let cosT := cos theta in
  let sinT := sin theta in
  {| A := s * cosT; B := - s * sinT; D := s * sinT; E := s * cosT |}.

End Shear.

(** ** compute copy.ts *)

Module ComputeCopy.

Import MathJS.

(** [computeAffineParams], the earlier entry point: the general affine fit
    behind its own guards (three points at least). *)
Definition computeAffineParams (imagePoints mapPoints : list Position)
  : Result AffineParams :=
  let n := length imagePoints in
  if (n <? 3)%nat then Err InsufficientPointsError
  else if negb (length mapPoints =? n)%nat then Err LengthMismatchError
  else
    let rows := combine imagePoints mapPoints in
    let M : Matrix :=
      flat_map
        (fun '((x, y), (_, _)) => [[x; y; 1; 0; 0; 0]; [0; 0; 0; x; y; 1]])
        rows in
    let V : Matrix :=
      flat_map (fun '((_, _), (X, Y)) => [[X]; [Y]]) rows in
    let Mt := transpose M in
    let MtM := multiply Mt M in
    invMtM <- inv MtM ;;
    let MtV := multiply Mt V in
    let p := multiply invMtM MtV in
    let A := get p 0 0 in
    let B := get p 1 0 in
    let C := get p 2 0 in
    let D := get p 3 0 in
    let E := get p 4 0 in
    let F := get p 5 0 in
    Ok (A, B, C, D, E, F).

End ComputeCopy.

(** ** Further definitions used to state the theorems *)

(** A point sequence sent through [forwardAffine]. *)
Definition forwardAll (p : AffineParams) (pts : list Position)
  : list Position :=
  List.map (forwardAffine p) pts.

(** The matrix of an [AffineParams] has orthogonal columns of one and the
    same length: a rotation, a uniform scaling, a flip of an axis, or a
    product of these; [A*A + D*D] is the square of its scale factor. *)
Definition conformal (p : AffineParams) : Prop :=
  let '(A, B, _, D, E, _) := p in
  A * B + D * E = 0 /\ B * B + E * E = A * A + D * D.

Definition scale2 (p : AffineParams) : R :=
  let '(A, _, _, D, _, _) := p in A * A + D * D.

(** The standard deviation of a point set about its centroid, as
    [computeRMSEOverStdRatio] computes it. *)
Definition std2d_of (pts : list Position) : R :=
  sqrt (sumf (fun q => (fst q - fst (centroid pts)) * (fst q - fst (centroid pts))
                       + (snd q - snd (centroid pts))
                         * (snd q - snd (centroid pts))) pts
        / INR (length pts)).

(** The matrix and the vector of the normal equations of the no-shear fit,
    as sums over the paired points. *)
Definition noshearN (rows : list (Position * Position)) : MathJS.Matrix :=
  [[sumf (fun '((x, y), (_, _)) => x * x + y * y) rows;
    sumf (fun '((x, _), (_, _)) => x) rows;
    sumf (fun '((_, y), (_, _)) => y) rows];
   [sumf (fun '((x, _), (_, _)) => x) rows; INR (length rows); 0];
   [sumf (fun '((_, y), (_, _)) => y) rows; 0; INR (length rows)]].

Definition noshearB (rows : list (Position * Position)) : MathJS.Matrix :=
  [[sumf (fun '((x, y), (X, Y)) => x * X + y * Y) rows];
   [sumf (fun '((_, _), (X, _)) => X) rows];
   [sumf (fun '((_, _), (_, Y)) => Y) rows]].

(** The matrix of the normal equations of the general affine fit: two
    copies of one symmetric 3x3 block. *)
Definition block6 (a b c d e f : R) : MathJS.Matrix :=
  [[a; b; c; 0; 0; 0]; [b; d; e; 0; 0; 0]; [c; e; f; 0; 0; 0];
   [0; 0; 0; a; b; c]; [0; 0; 0; b; d; e]; [0; 0; 0; c; e; f]].

(** The determinant of the block. *)
Definition det3s (a b c d e f : R) : R :=
  a * (d * f - e * e) - b * (b * f - e * c) + c * (b * e - d * c).

Definition affineN (rows : list (Position * Position)) : MathJS.Matrix :=
  block6 (sumf (fun '((x, _), (_, _)) => x * x) rows)
         (sumf (fun '((x, y), (_, _)) => x * y) rows)
         (sumf (fun '((x, _), (_, _)) => x) rows)
         (sumf (fun '((_, y), (_, _)) => y * y) rows)
         (sumf (fun '((_, y), (_, _)) => y) rows)
         (INR (length rows)).

Definition affineB (rows : list (Position * Position)) : MathJS.Matrix :=
  [[sumf (fun '((x, _), (X, _)) => x * X) rows];
   [sumf (fun '((_, y), (X, _)) => y * X) rows];
   [sumf (fun '((_, _), (X, _)) => X) rows];
   [sumf (fun '((x, _), (_, Y)) => x * Y) rows];
   [sumf (fun '((_, y), (_, Y)) => y * Y) rows];
   [sumf (fun '((_, _), (_, Y)) => Y) rows]].

(** The determinant that decides the affine fit, over the image points. *)
Definition affine_det (img : list Position) : R :=
  det3s (sumf (fun q => fst q * fst q) img)
        (sumf (fun q => fst q * snd q) img)
        (sumf fst img)
        (sumf (fun q => snd q * snd q) img)
        (sumf snd img)
        (INR (length img)).

(** Three image points that are not on one line, and their mirror image
    in the X axis. *)
Definition exTriangle : list Position := [(0, 0); (1, 0); (0, 1)].
Definition exTriFlip : list Position := [(0, 0); (1, 0); (0, -1)].

(** A second engine: two identifiers are defined; ["EPSG:2448"] projects a
    point onto itself, every other identifier onto the X axis. *)
Definition ex2IsDefined (_ : unit) (k : string) : bool :=
  ((k =? "EPSG:2448") || (k =? "EPSG:3857"))%string.
Definition ex2Project (_ : unit) (crs : string) (p : Position)
  : Result Position :=
  if (crs =? "EPSG:2448")%string then Ok p else Ok (fst p, 0).
Definition ex2Map : list Position := [(0, 0); (1, 0)].
Definition ex2Score : unit -> string -> Result (unit * R) :=
  FindBest.scoreCRS unit ex2IsDefined exDefine ex2Project exProj4List
    exMap exImg "noshear" "auto".
Definition ex2FindBestCRS (crses : list string) : Result string :=
  FindBest.findBestCRS unit ex2IsDefined exDefine ex2Project exProj4List
    exMap exImg crses "noshear" "auto" tt.
Definition ex2Value (k : string) : R :=
  if (k =? "EPSG:2448")%string then 0 else sqrt (1 / 4 / INR 2).

(** * Lemmas and theorems *)

Lemma eps_pos : 0 < eps.
Proof. unfold eps. lra. Qed.

(** ** Theorems on transform.ts *)

Lemma det_nonzero_of_bound (d : R) : ~ Rabs d < eps -> d <> 0.
Proof.
  intros H Hd. apply H. rewrite Hd, Rabs_R0. apply eps_pos.
Qed.



Section Binary64.

Import PrimFloat.


End Binary64.

(** C7. [inverseAffine] throws exactly when [|A*E - B*D| < 1e-15], and
    otherwise returns the closed-form solution of the 2x2 system. *)
Theorem inverseAffine_spec (A B C D E F X Y : R) :
  let det := A * E - B * D in
  (inverseAffine (A, B, C, D, E, F) (X, Y) = Err SingularTransformError
     <-> Rabs det < eps)
  /\ ((exists e, inverseAffine (A, B, C, D, E, F) (X, Y) = Err e)
     <-> Rabs det < eps)
  /\ (~ Rabs det < eps <->
      inverseAffine (A, B, C, D, E, F) (X, Y)
      = Ok ((E * (X - C) - B * (Y - F)) / det,
            (- D * (X - C) + A * (Y - F)) / det)).
Proof.
  intros det. unfold inverseAffine. fold det.
  destruct (Rlt_dec (Rabs det) eps) as [Hlt | Hge].
  - repeat split; intros; try assumption; try contradiction; try discriminate.
    exists SingularTransformError. reflexivity.
  - repeat split; intros H; try discriminate; try contradiction; try assumption.
    destruct H as [e He]. discriminate.
Qed.

(** ** Lemmas on the accumulation loop *)

Lemma fold_left_acc {T : Type} (f : T -> R) (l : list T) (a : R) :
  fold_left (fun acc item => acc + f item) l a = a + sumf f l.
Proof.
  unfold sumf. revert a.
  induction l as [| h t IH]; intros a; simpl.
  - ring.
  - rewrite IH. rewrite (IH (0 + f h)). ring.
Qed.

Lemma sumf_nil {T : Type} (f : T -> R) : sumf f [] = 0.
Proof. reflexivity. Qed.

Lemma sumf_cons {T : Type} (f : T -> R) (h : T) (t : list T) :
  sumf f (h :: t) = f h + sumf f t.
Proof.
  unfold sumf at 1. simpl. rewrite fold_left_acc. ring.
Qed.

Lemma sumf_ext {T : Type} (f g : T -> R) (l : list T) :
  (forall x, In x l -> f x = g x) -> sumf f l = sumf g l.
Proof.
  induction l as [| h t IH]; intros H.
  - reflexivity.
  - rewrite !sumf_cons. rewrite (H h) by (left; reflexivity).
    rewrite IH; [reflexivity |].
    intros x Hx. apply H. right. exact Hx.
Qed.

Lemma sumf_nonneg {T : Type} (f : T -> R) (l : list T) :
  (forall x, In x l -> 0 <= f x) -> 0 <= sumf f l.
Proof.
  induction l as [| h t IH]; intros H.
  - rewrite sumf_nil. lra.
  - rewrite sumf_cons.
    assert (0 <= f h) by (apply H; left; reflexivity).
    assert (0 <= sumf f t) by (apply IH; intros x Hx; apply H; right; exact Hx).
    lra.
Qed.

Lemma sumf_map {T U : Type} (g : T -> U) (f : U -> R) (l : list T) :
  sumf f (map g l) = sumf (fun x => f (g x)) l.
Proof.
  induction l as [| h t IH]; simpl.
  - reflexivity.
  - rewrite !sumf_cons, IH. reflexivity.
Qed.

Lemma sumf_plus {T : Type} (f g : T -> R) (l : list T) :
  sumf (fun x => f x + g x) l = sumf f l + sumf g l.
Proof.
  induction l as [| h t IH].
  - rewrite !sumf_nil. ring.
  - rewrite !sumf_cons, IH. ring.
Qed.

Lemma sumf_scal {T : Type} (c : R) (f : T -> R) (l : list T) :
  sumf (fun x => c * f x) l = c * sumf f l.
Proof.
  induction l as [| h t IH].
  - rewrite !sumf_nil. ring.
  - rewrite !sumf_cons, IH. ring.
Qed.

Lemma sumf_combine_sq_diff (obs pred : list Position) :
  sumf (fun '((ox, oy), (px, py)) =>
          let dx := ox - px in
          let dy := oy - py in
          dx * dx + dy * dy)
       (combine obs pred)
  = sq_diff_sum obs pred.
Proof.
  revert pred.
  induction obs as [| [ox oy] obs' IH]; intros pred.
  - reflexivity.
  - destruct pred as [| [px py] pred'].
    + reflexivity.
    + simpl combine. rewrite sumf_cons, IH. simpl. ring.
Qed.

Lemma sq_diff_sum_nonneg (obs pred : list Position) :
  0 <= sq_diff_sum obs pred.
Proof.
  revert pred.
  induction obs as [| [ox oy] obs' IH]; intros pred; simpl.
  - lra.
  - destruct pred as [| [px py] pred']; [lra |].
    specialize (IH pred').
    pose proof (pow2_ge_0 (ox - px)). pose proof (pow2_ge_0 (oy - py)). lra.
Qed.

Lemma sq_diff_sum_diag (P : list Position) : sq_diff_sum P P = 0.
Proof.
  induction P as [| [x y] P' IH]; simpl.
  - reflexivity.
  - rewrite IH. ring.
Qed.

(** ** Theorems on rmse.ts *)

(** C8. [computeRMSE] throws exactly when the lengths differ or are zero;
    otherwise it returns [sqrt ((Σᵢ (dxᵢ² + dyᵢ²)) / n)]; on [(P, P)] with
    [P] non-empty it returns [0]; and every returned value is
    non-negative. *)
Theorem computeRMSE_spec (observed predicted : list Position) :
  let n := length observed in
  (computeRMSE observed predicted = Err LengthMismatchError
     <-> (n <> length predicted \/ n = 0)%nat)
  /\ ((exists e, computeRMSE observed predicted = Err e)
     <-> (n <> length predicted \/ n = 0)%nat)
  /\ (~ (n <> length predicted \/ n = 0)%nat <->
      computeRMSE observed predicted
      = Ok (sqrt (sq_diff_sum observed predicted / INR n)))
  /\ (observed <> [] -> computeRMSE observed observed = Ok 0)
  /\ (forall r, computeRMSE observed predicted = Ok r -> 0 <= r).
Proof.
  intros n. unfold computeRMSE. fold n.
  rewrite sumf_combine_sq_diff.
  assert (Hdiag : observed <> [] ->
    (if ((n =? 0)%nat || negb (n =? length observed)%nat)%bool
     then Err LengthMismatchError
     else Ok (sqrt (sumf
        (fun '(ox, oy, (px, py)) =>
           let dx := ox - px in let dy := oy - py in dx * dx + dy * dy)
        (combine observed observed) / INR n))) = Ok 0).
  { intros Hne. fold n. rewrite Nat.eqb_refl. simpl negb.
    rewrite orb_false_r.
    destruct (Nat.eqb_spec n 0) as [H0 | H0].
    - exfalso. apply Hne. apply length_zero_iff_nil. exact H0.
    - rewrite sumf_combine_sq_diff, sq_diff_sum_diag.
      unfold Rdiv. rewrite Rmult_0_l. rewrite sqrt_0. reflexivity. }
  destruct (Nat.eqb_spec n 0) as [H0 | H0];
    destruct (Nat.eqb_spec n (length predicted)) as [Hl | Hl]; simpl;
    (split; [| split; [| split; [| split]]]);
    try exact Hdiag;
    try (split; intros H; try discriminate; try reflexivity; try tauto;
         try (now exists LengthMismatchError);
         try (destruct H as [e He]; discriminate));
    try (intros r Hr; try discriminate; injection Hr as <-; apply sqrt_pos).
Qed.

(** ** Theorems on compute.ts: the guards of [computeTransformParams] *)

Lemma computeTransformParams_guards (img map : list Position)
  (mode yAxisMode : string) (r : AffineParams) :
  computeTransformParams img map mode yAxisMode = Ok r ->
  (2 <= length img)%nat /\ length map = length img.
Proof.
  unfold computeTransformParams.
  destruct (Nat.ltb_spec (length img) 2) as [Hlt | Hge]; [discriminate |].
  destruct (Nat.eqb_spec (length map) (length img)) as [Heq | Hne];
    simpl; [| discriminate].
  intros _. split; assumption.
Qed.

Lemma computeTransformParams_similar (img map : list Position)
  (yAxisMode : string) :
  (2 <= length img)%nat -> length map = length img ->
  computeTransformParams img map "similar" yAxisMode
  = computeSimilarAsAffine img map yAxisMode.
Proof.
  intros Hn Hl. unfold computeTransformParams.
  destruct (Nat.ltb_spec (length img) 2) as [Hlt | Hge]; [lia |].
  rewrite Hl, Nat.eqb_refl. reflexivity.
Qed.

Lemma computeTransformParams_noshear (img map : list Position)
  (yAxisMode : string) :
  (2 <= length img)%nat -> length map = length img ->
  computeTransformParams img map "noshear" yAxisMode
  = computeNoShearAsAffine img map yAxisMode.
Proof.
  intros Hn Hl. unfold computeTransformParams.
  destruct (Nat.ltb_spec (length img) 2) as [Hlt | Hge]; [lia |].
  rewrite Hl, Nat.eqb_refl. reflexivity.
Qed.

(** C9. The guards of [computeTransformParams], in the order the source
    tests them: fewer than two image points, then differing lengths, then an
    unknown mode; each ends in the corresponding error and no result. *)
Theorem computeTransformParams_errors (img map : list Position)
  (mode yAxisMode : string) :
  ((length img < 2)%nat ->
     computeTransformParams img map mode yAxisMode
     = Err InsufficientPointsError)
  /\ ((2 <= length img)%nat -> (2 <= length map)%nat ->
      length img <> length map ->
      computeTransformParams img map mode yAxisMode
      = Err LengthMismatchError)
  /\ ((2 <= length img)%nat -> length img = length map ->
      mode <> "affine"%string -> mode <> "similar"%string ->
      mode <> "noshear"%string ->
      computeTransformParams img map mode yAxisMode = Err UnknownModeError).
Proof.
  unfold computeTransformParams.
  split; [| split].
  - intros Hlt.
    destruct (Nat.ltb_spec (length img) 2) as [_ | Hge]; [reflexivity | lia].
  - intros Hi _ Hne.
    destruct (Nat.ltb_spec (length img) 2) as [Hlt | _]; [lia |].
    destruct (Nat.eqb_spec (length map) (length img)) as [Heq | _];
      [congruence | reflexivity].
  - intros Hi Heq Ha Hs Hn.
    destruct (Nat.ltb_spec (length img) 2) as [Hlt | _]; [lia |].
    rewrite <- Heq, Nat.eqb_refl. simpl.
    destruct (String.eqb_spec mode "affine"); [contradiction |].
    destruct (String.eqb_spec mode "similar"); [contradiction |].
    destruct (String.eqb_spec mode "noshear"); [contradiction |].
    reflexivity.
Qed.

(** The three guards do fire: one call for each of them. *)
Lemma computeTransformParams_errors_witness :
  computeTransformParams [(0, 0)] [] "affine" "auto"
    = Err InsufficientPointsError
  /\ computeTransformParams [(0, 0); (1, 1)] [(0, 0); (1, 1); (2, 2)]
       "affine" "auto" = Err LengthMismatchError
  /\ computeTransformParams [(0, 0); (1, 1)] [(0, 0); (1, 1)]
       "projective" "auto" = Err UnknownModeError.
Proof.
  split; [| split].
  - apply (computeTransformParams_errors [(0, 0)] [] "affine" "auto").
    simpl. lia.
  - apply (computeTransformParams_errors [(0, 0); (1, 1)]
             [(0, 0); (1, 1); (2, 2)] "affine" "auto");
      simpl; lia.
  - apply (computeTransformParams_errors [(0, 0); (1, 1)] [(0, 0); (1, 1)]
             "projective" "auto");
      simpl; (lia || discriminate).
Defined.

(** ** Theorems on compute.ts: the Y-axis modes *)

Lemma sumOfSquaredResiduals_forward (p : AffineParams)
  (img map : list Position) :
  sumOfSquaredResiduals p img map
  = sq_diff_sum map (List.map (forwardAffine p) img).
Proof.
  destruct p as [[[[[a0 a1] a2] a3] a4] a5].
  unfold sumOfSquaredResiduals.
  revert map.
  induction img as [| [x y] img' IH]; intros map.
  - destruct map as [| [X Y] map']; reflexivity.
  - destruct map as [| [X Y] map'].
    + reflexivity.
    + simpl combine. rewrite sumf_cons, IH. simpl. ring.
Qed.

Lemma similar_modes (img map : list Position) (yAxisMode : string) :
  computeSimilarAsAffine img map yAxisMode =
  (pS <- computeSimilarAsAffine img map "same" ;;
   pO <- computeSimilarAsAffine img map "opposite" ;;
   Ok (if (yAxisMode =? "same")%string then pS
       else if (yAxisMode =? "opposite")%string then pO
       else pickSmaller img map pS pO)).
Proof.
  unfold computeSimilarAsAffine, pickSmaller.
  destruct (computeSimilarCore img map) as [p |]; simpl; [| reflexivity].
  destruct (computeSimilarCore (flipY img) map) as [q |]; simpl;
    [| reflexivity].
  destruct (yAxisMode =? "same")%string; [reflexivity |].
  destruct (yAxisMode =? "opposite")%string; reflexivity.
Qed.

Lemma noshear_modes (img map : list Position) (yAxisMode : string) :
  computeNoShearAsAffine img map yAxisMode =
  (pS <- computeNoShearAsAffine img map "same" ;;
   pO <- computeNoShearAsAffine img map "opposite" ;;
   Ok (if (yAxisMode =? "same")%string then pS
       else if (yAxisMode =? "opposite")%string then pO
       else pickSmaller img map pS pO)).
Proof.
  unfold computeNoShearAsAffine, pickSmaller.
  destruct (computeNoShearCore img map) as [p |]; simpl; [| reflexivity].
  destruct (computeNoShearCore (flipY img) map) as [q |]; simpl;
    [| reflexivity].
  destruct (yAxisMode =? "same")%string; [reflexivity |].
  destruct (yAxisMode =? "opposite")%string; reflexivity.
Qed.

Lemma transform_modes (img map : list Position) (mode yAxisMode : string) :
  mode = "similar"%string \/ mode = "noshear"%string ->
  computeTransformParams img map mode yAxisMode =
  (pS <- computeTransformParams img map mode "same" ;;
   pO <- computeTransformParams img map mode "opposite" ;;
   Ok (if (yAxisMode =? "same")%string then pS
       else if (yAxisMode =? "opposite")%string then pO
       else pickSmaller img map pS pO)).
Proof.
  intros Hmode. unfold computeTransformParams.
  destruct (length img <? 2)%nat; [reflexivity |].
  destruct (negb (length map =? length img)%nat); [reflexivity |].
  destruct Hmode as [-> | ->]; simpl.
  - apply similar_modes.
  - apply noshear_modes.
Qed.

(** ** The inverse of a 3x3 matrix

    The no-shear fit inverts a 3x3 matrix; on that size [MathJS.inv] fails
    exactly on a zero determinant and otherwise returns the two-sided
    inverse. *)

Lemma det_3x3 (a b c d e f g h i : R) :
  MathJS.det [[a; b; c]; [d; e; f]; [g; h; i]]
  = a * (e * i - f * h) - b * (d * i - f * g) + c * (d * h - e * g).
Proof.
  cbv [MathJS.det MathJS.det_n length seq sumf fold_left MathJS.signed
       Nat.even MathJS.get nth MathJS.minor MathJS.remove_nth List.map].
  ring.
Qed.

Lemma inv_3x3 (a b c d e f g h i : R) :
  let M := [[a; b; c]; [d; e; f]; [g; h; i]] in
  (MathJS.det M = 0 -> MathJS.inv M = Err SingularFitError)
  /\ (MathJS.det M <> 0 ->
      exists N, MathJS.inv M = Ok N
                /\ MathJS.multiply M N = identity3
                /\ MathJS.multiply N M = identity3).
Proof.
  intros M. unfold MathJS.inv.
  destruct (Req_dec_T (MathJS.det M) 0) as [H0 | Hn0].
  - split; [reflexivity | contradiction].
  - split; [contradiction |]. intros _.
    eexists. split; [reflexivity |].
    unfold M in *. rewrite det_3x3 in *.
    cbv [MathJS.adjugate MathJS.det_n length seq sumf fold_left MathJS.signed
         Nat.even MathJS.get nth MathJS.minor MathJS.remove_nth List.map
         MathJS.multiply MathJS.transpose MathJS.columns hd MathJS.dot
         combine Nat.add pred identity3].
    split; repeat (f_equal; try (field; exact Hn0)).
Qed.

(** ** The worked no-shear fit *)

Ltac unfold_fit :=
  cbv [computeNoShearCore computeAffine6 flipY convertFlipParam
       combine flat_map app MathJS.transpose MathJS.multiply MathJS.columns
       hd length seq List.map nth MathJS.dot sumf fold_left bind MathJS.inv
       MathJS.det MathJS.det_n MathJS.adjugate MathJS.minor MathJS.remove_nth
       MathJS.signed Nat.even MathJS.get Nat.add pred].

Ltac solve_fit :=
  unfold_fit;
  match goal with
  | |- context [Req_dec_T ?d 0] =>
      destruct (Req_dec_T d 0) as [Hd | Hd]; [exfalso; lra |]
  end;
  unfold_fit;
  repeat (f_equal; try (field_simplify; lra)).

Lemma exNoShearCore :
  computeNoShearCore exImg exMap = Ok (0, 0, 1 / 2, 0, 0, - (1 / 2)).
Proof. unfold exImg, exMap. solve_fit. Qed.

Lemma exNoShearCore_flip :
  computeNoShearCore (flipY exImg) exMap = Ok (1, 0, 0, 0, 1, 0).
Proof. unfold exImg, exMap. solve_fit. Qed.

Lemma exNoShear_same :
  computeTransformParams exImg exMap "noshear" "same"
  = Ok (0, 0, 1 / 2, 0, 0, - (1 / 2)).
Proof.
  rewrite computeTransformParams_noshear by (simpl; lia).
  unfold computeNoShearAsAffine.
  rewrite exNoShearCore, exNoShearCore_flip. reflexivity.
Qed.

Lemma exNoShear_opposite :
  computeTransformParams exImg exMap "noshear" "opposite"
  = Ok (1, 0, 0, 0, - 1, 0).
Proof.
  rewrite computeTransformParams_noshear by (simpl; lia).
  unfold computeNoShearAsAffine.
  rewrite exNoShearCore, exNoShearCore_flip. simpl.
  repeat (f_equal; try lra).
Qed.

Lemma exResidual_same :
  sumOfSquaredResiduals (0, 0, 1 / 2, 0, 0, - (1 / 2)) exImg exMap = 1.
Proof.
  unfold sumOfSquaredResiduals, exImg, exMap, sumf. simpl. field.
Qed.

Lemma exResidual_opposite :
  sumOfSquaredResiduals (1, 0, 0, 0, - 1, 0) exImg exMap = 0.
Proof.
  unfold sumOfSquaredResiduals, exImg, exMap, sumf. simpl. field.
Qed.

Lemma forward_convertFlipParam (p : AffineParams) (x y : R) :
  forwardAffine (convertFlipParam p) (x, y) = forwardAffine p (x, - y).
Proof.
  destruct p as [[[[[A B] C] D] E] F].
  unfold forwardAffine, convertFlipParam. f_equal; ring.
Qed.

(** ** Theorems on compute.ts: the shape of a no-shear result *)

Lemma computeNoShearCore_shape (img map : list Position) (A B C D E F : R) :
  computeNoShearCore img map = Ok (A, B, C, D, E, F) ->
  B = 0 /\ D = 0 /\ E = A.
Proof.
  unfold computeNoShearCore.
  destruct (MathJS.inv _) as [N |]; simpl; [| discriminate].
  intros H. injection H as <- <- <- <- <- <-. auto.
Qed.

(** C5, as stated, fails: with ['opposite'] the fifth component of the
    worked fit is the negation of the first. *)
Lemma noshear_fifth_not_first :
  exists A B C D E F,
    computeTransformParams exImg exMap "noshear" "opposite"
    = Ok (A, B, C, D, E, F)
    /\ ~ (B = 0 /\ D = 0 /\ E = A).
Proof.
  exists 1, 0, 0, 0, (- 1), 0.
  split; [exact exNoShear_opposite |].
  intros (_ & _ & H). lra.
Qed.

(** C5, amended. A ['noshear'] result has its second and fourth components
    zero; its fifth component is the first one for ['same'], the negated
    first one for ['opposite'], and one of the two for every other
    [yAxisMode] (the ['auto'] branch). *)
Theorem noshear_result_shape (img map : list Position) (yAxisMode : string)
  (A B C D E F : R) :
  computeTransformParams img map "noshear" yAxisMode = Ok (A, B, C, D, E, F) ->
  B = 0 /\ D = 0
  /\ (E = A \/ E = - A)
  /\ (yAxisMode = "same"%string -> E = A)
  /\ (yAxisMode = "opposite"%string -> E = - A).
Proof.
  intros H.
  destruct (computeTransformParams_guards _ _ _ _ _ H) as [Hn Hl].
  rewrite computeTransformParams_noshear in H by assumption.
  unfold computeNoShearAsAffine in H.
  destruct (computeNoShearCore img map) as [pA |] eqn:HA; simpl in H;
    [| discriminate].
  destruct (computeNoShearCore (flipY img) map) as [pF |] eqn:HF; simpl in H;
    [| discriminate].
  destruct pA as [[[[[a1 b1] c1] d1] e1] f1].
  destruct pF as [[[[[a2 b2] c2] d2] e2] f2].
  destruct (computeNoShearCore_shape _ _ _ _ _ _ _ _ HA) as (-> & -> & ->).
  destruct (computeNoShearCore_shape _ _ _ _ _ _ _ _ HF) as (-> & -> & ->).
  unfold convertFlipParam in H.
  destruct (String.eqb_spec yAxisMode "same") as [-> | Hs].
  - injection H as <- <- <- <- <- <-.
    repeat split; try reflexivity; try (left; reflexivity).
    intros Habs. discriminate.
  - destruct (String.eqb_spec yAxisMode "opposite") as [-> | Ho].
    + injection H as <- <- <- <- <- <-.
      repeat split; try reflexivity; try lra; try (right; reflexivity).
      intros Habs. discriminate.
    + destruct (Rle_dec _ _); injection H as <- <- <- <- <- <-;
        repeat split; try reflexivity; try lra; try contradiction;
        try (left; reflexivity); try (right; reflexivity).
Qed.

Lemma noshear_result_shape_witness :
  0 = 0 /\ 0 = 0
  /\ (- 1 = 1 \/ - 1 = - (1))
  /\ ("opposite"%string = "same"%string -> - 1 = 1)
  /\ ("opposite"%string = "opposite"%string -> - 1 = - (1)).
Proof.
  apply (noshear_result_shape exImg exMap "opposite" 1 0 0 0 (- 1) 0).
  exact exNoShear_opposite.
Defined.

Lemma sumf_combine_l {T U : Type} (f : T -> R) (l1 : list T) (l2 : list U) :
  length l1 = length l2 ->
  sumf (fun r => f (fst r)) (combine l1 l2) = sumf f l1.
Proof.
  revert l2.
  induction l1 as [| h1 t1 IH]; intros l2 Hl.
  - reflexivity.
  - destruct l2 as [| h2 t2]; [discriminate |].
    simpl combine. rewrite !sumf_cons. simpl fst.
    rewrite IH by (simpl in Hl; lia). reflexivity.
Qed.

Lemma sumf_combine_r {T U : Type} (f : U -> R) (l1 : list T) (l2 : list U) :
  length l1 = length l2 ->
  sumf (fun r => f (snd r)) (combine l1 l2) = sumf f l2.
Proof.
  revert l2.
  induction l1 as [| h1 t1 IH]; intros l2 Hl.
  - destruct l2; [reflexivity | discriminate].
  - destruct l2 as [| h2 t2]; [discriminate |].
    simpl combine. rewrite !sumf_cons. simpl snd.
    rewrite IH by (simpl in Hl; lia). reflexivity.
Qed.

Lemma map_combine_shift (c1 c2 : Position) (img map : list Position) :
  List.map (fun '((x, y), (X, Y)) =>
              ((x - fst c1, y - snd c1), (X - fst c2, Y - snd c2)))
           (combine img map)
  = combine (List.map (shift c1) img) (List.map (shift c2) map).
Proof.
  revert map.
  induction img as [| [x y] img' IH]; intros map.
  - reflexivity.
  - destruct map as [| [X Y] map']; [reflexivity |].
    simpl. rewrite IH. reflexivity.
Qed.

(** The code computes what the specification words, whenever the two
    sequences have the same length. *)
Lemma computeSimilarCore_spec (img map : list Position) :
  length img = length map ->
  computeSimilarCore img map =
  if Rlt_dec (Rabs (bigC_of img)) eps then Err DegenerateGeometryError
  else Ok (similarity_params img map).
Proof.
  intros Hl. unfold computeSimilarCore. cbv zeta.
  assert (E1 : sumf (fun '((x, _), (_, _)) => x) (combine img map)
               = sumf fst img).
  { rewrite <- (sumf_combine_l fst img map Hl).
    apply sumf_ext. intros [[x y] [X Y]] _. reflexivity. }
  assert (E2 : sumf (fun '((_, y), (_, _)) => y) (combine img map)
               = sumf snd img).
  { rewrite <- (sumf_combine_l snd img map Hl).
    apply sumf_ext. intros [[x y] [X Y]] _. reflexivity. }
  assert (E3 : sumf (fun '((_, _), (X, _)) => X) (combine img map)
               = sumf fst map).
  { rewrite <- (sumf_combine_r fst img map Hl).
    apply sumf_ext. intros [[x y] [X Y]] _. reflexivity. }
  assert (E4 : sumf (fun '((_, _), (_, Y)) => Y) (combine img map)
               = sumf snd map).
  { rewrite <- (sumf_combine_r snd img map Hl).
    apply sumf_ext. intros [[x y] [X Y]] _. reflexivity. }
  rewrite E1, E2, E3, E4.
  assert (Hc : (sumf fst map / INR (length img),
                sumf snd map / INR (length img)) = centroid map).
  { unfold centroid. rewrite Hl. reflexivity. }
  pose proof (map_combine_shift
                (sumf fst img / INR (length img),
                 sumf snd img / INR (length img))
                (sumf fst map / INR (length img),
                 sumf snd map / INR (length img)) img map) as E5.
  simpl fst in E5. simpl snd in E5.
  rewrite E5, Hc. fold (centroid img). fold (centered img).
  fold (centered map).
  assert (E6 : sumf (fun '((ix, iy), (_, _)) => ix * ix + iy * iy)
                    (combine (centered img) (centered map))
               = bigC_of img).
  { unfold bigC_of.
    rewrite <- (sumf_combine_l (fun '(x', y') => x' * x' + y' * y')
                  (centered img) (centered map)).
    - apply sumf_ext. intros [[x y] [X Y]] _. reflexivity.
    - unfold centered. rewrite !length_map. exact Hl. }
  rewrite E6.
  fold (bigA_of img map). fold (bigB_of img map).
  destruct (Rlt_dec (Rabs (bigC_of img)) eps); [reflexivity |].
  unfold similarity_params, scale_of, theta_of.
  rewrite <- Hc. unfold centroid. reflexivity.
Qed.

Lemma flipY_length (img : list Position) : length (flipY img) = length img.
Proof. unfold flipY. apply length_map. Qed.

Lemma sumf_opp {T : Type} (f : T -> R) (l : list T) :
  sumf (fun x => - f x) l = - sumf f l.
Proof.
  induction l as [| h t IH].
  - rewrite !sumf_nil. ring.
  - rewrite !sumf_cons, IH. ring.
Qed.

Lemma centroid_flipY (img : list Position) :
  centroid (flipY img) = (fst (centroid img), - snd (centroid img)).
Proof.
  unfold centroid. rewrite flipY_length. unfold flipY.
  rewrite !sumf_map. simpl fst. simpl snd.
  f_equal.
  - f_equal. apply sumf_ext. intros [x y] _. reflexivity.
  - rewrite <- Rdiv_opp_l. f_equal. rewrite <- sumf_opp.
    apply sumf_ext. intros [x y] _. reflexivity.
Qed.

Lemma centered_flipY (img : list Position) :
  centered (flipY img) = flipY (centered img).
Proof.
  unfold centered. rewrite centroid_flipY. unfold flipY.
  rewrite !map_map. apply map_ext. intros [x y].
  unfold shift. simpl. f_equal. ring.
Qed.

(** Negating every image Y leaves [bigC] as it is: the two core fits of
    [computeSimilarAsAffine] fail together or not at all. *)
Lemma bigC_flipY (img : list Position) : bigC_of (flipY img) = bigC_of img.
Proof.
  unfold bigC_of. rewrite centered_flipY. unfold flipY.
  rewrite sumf_map. apply sumf_ext. intros [x y] _. ring.
Qed.

Lemma bigC_nonneg (img : list Position) : 0 <= bigC_of img.
Proof.
  unfold bigC_of. apply sumf_nonneg. intros [x y] _. nra.
Qed.

Lemma bigC_guard (img : list Position) :
  ~ Rabs (bigC_of img) < eps <-> eps <= bigC_of img.
Proof.
  rewrite Rabs_pos_eq by apply bigC_nonneg. lra.
Qed.

Lemma similar_same_returns (img map : list Position) (r : AffineParams) :
  computeTransformParams img map "similar" "same" = Ok r <->
  (2 <= length img)%nat /\ length map = length img
  /\ eps <= bigC_of img /\ r = similarity_params img map.
Proof.
  split.
  - intros H.
    destruct (computeTransformParams_guards _ _ _ _ _ H) as [Hn Hl].
    rewrite computeTransformParams_similar in H by assumption.
    unfold computeSimilarAsAffine in H.
    rewrite computeSimilarCore_spec in H by (symmetry; exact Hl).
    destruct (Rlt_dec (Rabs (bigC_of img)) eps) as [Hlt | Hge];
      [discriminate |].
    simpl in H.
    rewrite computeSimilarCore_spec in H
      by (rewrite flipY_length; symmetry; exact Hl).
    rewrite bigC_flipY in H.
    destruct (Rlt_dec (Rabs (bigC_of img)) eps) as [Hlt | _];
      [contradiction |].
    simpl in H. injection H as <-.
    repeat split; try assumption. apply bigC_guard. exact Hge.
  - intros (Hn & Hl & HC & ->).
    rewrite computeTransformParams_similar by assumption.
    unfold computeSimilarAsAffine.
    rewrite computeSimilarCore_spec by (symmetry; exact Hl).
    apply bigC_guard in HC.
    destruct (Rlt_dec (Rabs (bigC_of img)) eps) as [Hlt | _];
      [contradiction |].
    simpl.
    rewrite computeSimilarCore_spec
      by (rewrite flipY_length; symmetry; exact Hl).
    rewrite bigC_flipY.
    destruct (Rlt_dec (Rabs (bigC_of img)) eps) as [Hlt | _];
      [contradiction |].
    reflexivity.
Qed.

Lemma scale_nonneg (img map : list Position) :
  eps <= bigC_of img -> 0 <= scale_of img map.
Proof.
  intros HC. unfold scale_of.
  apply Rmult_le_pos.
  - apply sqrt_pos.
  - left. apply Rinv_0_lt_compat. pose proof eps_pos. lra.
Qed.

(** ** Theorems on compute.ts: the shape of a similarity result *)

(** C6. [computeTransformParams] with ['similar'] and ['same'] returns a
    result exactly when there are at least two points, as many map points,
    and [bigC] is not below [1e-15]. The result then has the matrix
    [A = s*cos t], [B = -s*sin t], [D = s*sin t], [E = s*cos t] with
    [s = sqrt (bigA² + bigB²) / bigC >= 0] and [t = atan2 (bigB, bigA)]; so
    [A = E], [B = -D], and the determinant [A*E - B*D] is [s²], never
    negative. *)
Theorem similar_same_is_similarity (img map : list Position) :
  let s := sqrt (bigA_of img map * bigA_of img map
                 + bigB_of img map * bigB_of img map) / bigC_of img in
  let t := Math_atan2 (bigB_of img map) (bigA_of img map) in
  ((exists r, computeTransformParams img map "similar" "same" = Ok r)
   <-> (2 <= length img)%nat /\ length map = length img
       /\ eps <= bigC_of img)
  /\ (forall A B C D E F : R,
      computeTransformParams img map "similar" "same" = Ok (A, B, C, D, E, F)
      -> A = s * cos t /\ B = - s * sin t
         /\ D = s * sin t /\ E = s * cos t
         /\ 0 <= s
         /\ A = E /\ B = - D
         /\ A * E - B * D = s * s
         /\ 0 <= A * E - B * D).
Proof.
  intros s t. split.
  - split.
    + intros [r Hr]. apply similar_same_returns in Hr. tauto.
    + intros (Hn & Hl & HC). exists (similarity_params img map).
      apply similar_same_returns. tauto.
  - intros A B C D E F H.
    apply similar_same_returns in H. destruct H as (Hn & Hl & HC & Hr).
    pose proof (scale_nonneg img map HC) as Hs.
    unfold similarity_params, scale_of, theta_of in Hr. fold s t in Hr.
    unfold scale_of in Hs. fold s in Hs.
    destruct (centroid img) as [cx cy]. destruct (centroid map) as [cX cY].
    injection Hr as -> -> -> -> -> ->.
    pose proof (sin2_cos2 t) as Hsc. unfold Rsqr in Hsc.
    assert (Hdet : s * cos t * (s * cos t) - - s * sin t * (s * sin t)
                   = s * s).
    { transitivity (s * s * (sin t * sin t + cos t * cos t)); [ring |].
      rewrite Hsc. ring. }
    repeat split; try reflexivity; try exact Hs; try exact Hdet; try ring.
    rewrite Hdet. nra.
Qed.

Lemma exSim_bigC : bigC_of exSimImg = 1 / 2.
Proof.
  unfold bigC_of, centered, centroid, shift, exSimImg, sumf. simpl. field.
Qed.

Lemma similar_same_is_similarity_witness :
  exists r, computeTransformParams exSimImg exSimMap "similar" "same" = Ok r.
Proof.
  apply (proj1 (similar_same_is_similarity exSimImg exSimMap)).
  split; [simpl; lia |]. split; [reflexivity |].
  rewrite exSim_bigC. unfold eps. lra.
Defined.

(** ** Lemmas on objects used as tables *)

Lemma get_set_same {V : Type} (k : string) (v : V) (o : JSObject.t V) :
  JSObject.get k (JSObject.set k v o) = Some v.
Proof.
  induction o as [| [k' v'] o' IH]; simpl.
  - rewrite String.eqb_refl. reflexivity.
  - destruct (String.eqb_spec k' k) as [-> | Hne]; simpl.
    + rewrite String.eqb_refl. reflexivity.
    + destruct (String.eqb_spec k' k); [contradiction | exact IH].
Qed.

Lemma get_set_other {V : Type} (k k' : string) (v : V) (o : JSObject.t V) :
  k <> k' -> JSObject.get k' (JSObject.set k v o) = JSObject.get k' o.
Proof.
  intros Hne.
  induction o as [| [k0 v0] o' IH]; simpl.
  - destruct (String.eqb_spec k k'); [contradiction | reflexivity].
  - destruct (String.eqb_spec k0 k) as [-> | Hk0]; simpl.
    + destruct (String.eqb_spec k k'); [contradiction | reflexivity].
    + destruct (String.eqb_spec k0 k'); [reflexivity | exact IH].
Qed.

Lemma set_names {V : Type} (k k' : string) (v : V) (o : JSObject.t V) :
  In k' (List.map fst (JSObject.set k v o))
  <-> k' = k \/ In k' (List.map fst o).
Proof.
  induction o as [| [k0 v0] o' IH]; simpl.
  - intuition congruence.
  - destruct (String.eqb_spec k0 k) as [-> | Hk0]; simpl.
    + intuition congruence.
    + rewrite IH. intuition congruence.
Qed.

Lemma set_fresh {V : Type} (k : string) (v : V) (o : JSObject.t V) :
  ~ In k (List.map fst o) -> JSObject.set k v o = o ++ [(k, v)].
Proof.
  induction o as [| [k0 v0] o' IH]; simpl; intros Hfresh.
  - reflexivity.
  - destruct (String.eqb_spec k0 k) as [-> | Hk0].
    + exfalso. apply Hfresh. left. reflexivity.
    + rewrite IH; [reflexivity |]. intros Hin. apply Hfresh. right. exact Hin.
Qed.

Lemma get_some_iff {V : Type} (k : string) (o : JSObject.t V) :
  In k (List.map fst o) <-> exists v, JSObject.get k o = Some v.
Proof.
  induction o as [| [k0 v0] o' IH]; simpl.
  - split; [contradiction | intros [v Hv]; discriminate].
  - destruct (String.eqb_spec k0 k) as [-> | Hk0].
    + split; [intros _; exists v0; reflexivity | intros _; left; reflexivity].
    + rewrite <- IH. intuition congruence.
Qed.

Lemma insert_index_in (k x : N * string) (l : list (N * string)) :
  In x (JSObject.insert_index k l) <-> x = k \/ In x l.
Proof.
  induction l as [| h l' IH]; simpl.
  - intuition congruence.
  - destruct (fst k <=? fst h)%N; simpl.
    + intuition congruence.
    + rewrite IH. intuition congruence.
Qed.

Lemma sorted_in (x : N * string) (l : list (N * string)) :
  In x (fold_right JSObject.insert_index [] l) <-> In x l.
Proof.
  induction l as [| h l' IH]; simpl.
  - reflexivity.
  - rewrite insert_index_in, IH. intuition congruence.
Qed.

Lemma index_keys_in {V : Type} (n : N) (k : string) (o : JSObject.t V) :
  In (n, k) (JSObject.index_keys o)
  <-> In k (List.map fst o) /\ JSObject.array_index k = Some n.
Proof.
  unfold JSObject.index_keys. rewrite sorted_in.
  induction o as [| [k0 v0] o' IH]; simpl.
  - tauto.
  - rewrite in_app_iff, IH.
    destruct (JSObject.array_index k0) as [n0 |] eqn:Hk0; simpl.
    + split.
      * intros [[H | []] | [H1 H2]].
        -- injection H as <- <-. auto.
        -- auto.
      * intros [[<- | H1] H2].
        -- left. left. congruence.
        -- right. auto.
    + split.
      * intros [[] | [H1 H2]]. auto.
      * intros [[<- | H1] H2]; [congruence | auto].
Qed.

(** [Object.keys] lists exactly the keys that were written. *)
Lemma keys_in {V : Type} (k : string) (o : JSObject.t V) :
  In k (JSObject.keys o) <-> In k (List.map fst o).
Proof.
  unfold JSObject.keys. rewrite in_app_iff, filter_In, in_map_iff.
  unfold JSObject.is_name.
  split.
  - intros [[[n k'] [Hk Hin]] | [Hin _]]; [| exact Hin].
    simpl in Hk. subst k'. apply index_keys_in in Hin. tauto.
  - intros Hin.
    destruct (JSObject.array_index k) as [n |] eqn:Hk.
    + left. exists (n, k). split; [reflexivity |].
      apply index_keys_in. auto.
    + right. auto.
Qed.

(** With no array-index key, [Object.keys] is the creation order. *)
Lemma keys_of_names {V : Type} (o : JSObject.t V) :
  (forall k, In k (List.map fst o) -> JSObject.array_index k = None) ->
  JSObject.keys o = List.map fst o.
Proof.
  intros Hnames. unfold JSObject.keys, JSObject.index_keys.
  assert (H1 : flat_map
                 (fun '(k, _) =>
                    match JSObject.array_index k with
                    | Some n => [(n, k)]
                    | None => []
                    end) o = []).
  { induction o as [| [k0 v0] o' IH]; simpl; [reflexivity |].
    rewrite (Hnames k0) by (left; reflexivity). simpl.
    apply IH. intros k Hk. apply Hnames. right. exact Hk. }
  rewrite H1. simpl.
  induction (List.map fst o) as [| k0 l IH]; simpl; [reflexivity |].
  unfold JSObject.is_name at 1.
  rewrite (Hnames k0) by (left; reflexivity).
  f_equal. apply IH. intros k Hk. apply Hnames. right. exact Hk.
Qed.

(** The order of [Object.keys] on small tables: a key that is an array
    index comes first whenever it was written, and only canonical decimal
    numerals below [2^32 - 1] are array indices. *)
Lemma keys_examples :
  JSObject.keys [("EPSG:3857", 1); ("4326", 2); ("EPSG:2448", 3)]%string
  = ["4326"; "EPSG:3857"; "EPSG:2448"]%string
  /\ JSObject.keys (JSObject.set "EPSG:3857" 4
                      [("EPSG:3857", 1); ("EPSG:2448", 3)]%string)
     = ["EPSG:3857"; "EPSG:2448"]%string
  /\ JSObject.array_index "0" = Some 0%N
  /\ JSObject.array_index "04326" = None
  /\ JSObject.array_index "4294967294" = Some 4294967294%N
  /\ JSObject.array_index "4294967295" = None
  /\ JSObject.array_index "EPSG:3857" = None.
Proof. repeat split; reflexivity. Qed.

(** ** Lemmas on the selection by [reduce] *)

(** A left fold of [pick] ends on the last key of least value. *)
Lemma fold_pick_last_min (rmse : JSObject.t R) (ks : list string)
  (a : string) :
  (forall k, In k (a :: ks) -> exists v, JSObject.get k rmse = Some v) ->
  exists l1 l2 r,
    a :: ks = l1 ++ fold_left (FindBest.pick rmse) ks a :: l2
    /\ JSObject.get (fold_left (FindBest.pick rmse) ks a) rmse = Some r
    /\ (forall k, In k l1 ->
          exists v, JSObject.get k rmse = Some v /\ r <= v)
    /\ (forall k, In k l2 ->
          exists v, JSObject.get k rmse = Some v /\ r < v).
Proof.
  induction ks as [| b ks' IH] using rev_ind; intros Hall.
  - destruct (Hall a (or_introl eq_refl)) as [r Hr].
    exists [], [], r. simpl.
    split; [reflexivity |]. split; [exact Hr |].
    split; intros k [].
  - rewrite fold_left_app. simpl.
    destruct IH as (l1 & l2 & r & Hsplit & Hr & Hl1 & Hl2).
    { intros k Hk. apply Hall. simpl in *. rewrite in_app_iff. tauto. }
    destruct (Hall b) as [vb Hb].
    { simpl. rewrite in_app_iff. simpl. tauto. }
    set (c := fold_left (FindBest.pick rmse) ks' a) in *.
    assert (Hpick : FindBest.pick rmse c b = if Rlt_dec r vb then c else b).
    { unfold FindBest.pick. rewrite Hr, Hb. reflexivity. }
    rewrite Hpick.
    destruct (Rlt_dec r vb) as [Hlt | Hge].
    + exists l1, (l2 ++ [b]), r.
      split.
      { rewrite app_comm_cons, Hsplit, <- app_assoc. reflexivity. }
      split; [exact Hr |]. split; [exact Hl1 |].
      intros k Hk. apply in_app_iff in Hk. destruct Hk as [Hk | [<- | []]].
      * apply Hl2. exact Hk.
      * exists vb. split; assumption.
    + exists (l1 ++ c :: l2), [], vb.
      split.
      { rewrite app_comm_cons, Hsplit. reflexivity. }
      split; [exact Hb |]. split; [| intros k []].
      intros k Hk. apply in_app_iff in Hk.
      destruct Hk as [Hk | [<- | Hk]].
      * destruct (Hl1 k Hk) as (v & Hv & Hle). exists v. split; [exact Hv | lra].
      * exists r. split; [exact Hr | lra].
      * destruct (Hl2 k Hk) as (v & Hv & Hle). exists v. split; [exact Hv | lra].
Qed.

(** ** Lemmas on the scoring loop *)

Section ScoringLoop.

Variable Engine : Type.
Variable isDefined : Engine -> string -> bool.
Variable define : Engine -> string -> string -> Engine.
Variable project : Engine -> string -> Position -> Result Position.
Variable proj4List : string -> option (string * string).
Variables (lnglat image : list Position) (mode yAxisMode : string).

Let score := FindBest.scoreCRS Engine isDefined define project proj4List
               lnglat image mode yAxisMode.
Let loop := FindBest.scoreLoop Engine isDefined define project proj4List
              lnglat image mode yAxisMode.

Lemma scoreLoop_names (crses : list string) :
  forall (e e' : Engine) (o o' : JSObject.t R),
    loop e crses o = Ok (e', o') ->
    forall k, In k (List.map fst o')
              <-> In k (List.map fst o) \/ In k crses.
Proof.
  induction crses as [| c rest IH]; intros e e' o o' H k;
    unfold loop in H; simpl in H.
  - injection H as _ <-. simpl. tauto.
  - fold score in H.
    destruct (score e c) as [[e1 r] |]; simpl in H; [| discriminate].
    fold loop in H.
    rewrite (IH _ _ _ _ H k), set_names. simpl. intuition congruence.
Qed.

(** Each entry of the table was computed by the loop body for its key, or
    was there before the loop. *)
Lemma scoreLoop_values (crses : list string) :
  forall (e e' : Engine) (o o' : JSObject.t R),
    loop e crses o = Ok (e', o') ->
    forall k v, JSObject.get k o' = Some v ->
      JSObject.get k o = Some v
      \/ (In k crses /\ exists e1 e2, score e1 k = Ok (e2, v)).
Proof.
  induction crses as [| c rest IH]; intros e e' o o' H k v Hv;
    unfold loop in H; simpl in H.
  - injection H as _ <-. left. exact Hv.
  - fold score in H.
    destruct (score e c) as [[e1 r] |] eqn:Hs; simpl in H; [| discriminate].
    fold loop in H.
    destruct (IH _ _ _ _ H k v Hv) as [Hold | [Hin Hex]].
    + destruct (string_dec c k) as [-> | Hne].
      * rewrite get_set_same in Hold. injection Hold as <-.
        right. split; [left; reflexivity |]. exists e, e1. exact Hs.
      * rewrite get_set_other in Hold by exact Hne. left. exact Hold.
    + right. split; [right; exact Hin | exact Hex].
Qed.

(** Distinct candidates enter the table in the order of the loop. *)
Lemma scoreLoop_order (crses : list string) :
  forall (e e' : Engine) (o o' : JSObject.t R),
    NoDup crses ->
    (forall k, In k crses -> ~ In k (List.map fst o)) ->
    loop e crses o = Ok (e', o') ->
    List.map fst o' = List.map fst o ++ crses.
Proof.
  induction crses as [| c rest IH]; intros e e' o o' Hnd Hfresh H;
    unfold loop in H; simpl in H.
  - injection H as _ <-. rewrite app_nil_r. reflexivity.
  - fold score in H.
    destruct (score e c) as [[e1 r] |]; simpl in H; [| discriminate].
    fold loop in H.
    inversion Hnd as [| c' rest' Hc Hrest]; subst.
    assert (Hfresh' : forall k, In k rest ->
              ~ In k (List.map fst (JSObject.set c r o))).
    { intros k Hk Hin. apply set_names in Hin.
      destruct Hin as [-> | Hin]; [contradiction |].
      apply (Hfresh k); [right; exact Hk | exact Hin]. }
    rewrite (IH _ _ _ _ Hrest Hfresh' H).
    rewrite set_fresh by (apply Hfresh; left; reflexivity).
    rewrite map_app. simpl. rewrite <- app_assoc. reflexivity.
Qed.

End ScoringLoop.

Lemma exNoShear_auto :
  computeTransformParams exImg exMap "noshear" "auto"
  = Ok (1, 0, 0, 0, - 1, 0).
Proof.
  rewrite transform_modes by (right; reflexivity).
  rewrite exNoShear_same, exNoShear_opposite. simpl.
  unfold pickSmaller. rewrite exResidual_same, exResidual_opposite.
  destruct (Rle_dec 1 0) as [H | _]; [lra | reflexivity].
Qed.

Lemma exRMSE :
  computeRMSE exMap (List.map (forwardAffine (1, 0, 0, 0, - 1, 0)) exImg)
  = Ok 0.
Proof.
  unfold computeRMSE. simpl length. simpl orb. cbv iota.
  rewrite sumf_combine_sq_diff. f_equal.
  replace (sq_diff_sum exMap
             (List.map (forwardAffine (1, 0, 0, 0, - 1, 0)) exImg)) with 0.
  - unfold Rdiv. rewrite Rmult_0_l. apply sqrt_0.
  - unfold exMap, exImg. simpl. ring.
Qed.

Lemma exProject_all (e : unit) (crs : string) (pts : list Position) :
  mapM (exProject e crs) pts = Ok pts.
Proof.
  induction pts as [| p pts' IH]; simpl.
  - reflexivity.
  - rewrite IH. reflexivity.
Qed.

Lemma exScoreCRS_value (crs : string) : exScoreCRS tt crs = Ok (tt, 0).
Proof.
  unfold exScoreCRS, FindBest.scoreCRS, FindBest.ensureDefined.
  unfold exIsDefined. simpl negb. cbv iota. unfold bind at 1.
  rewrite exProject_all. unfold bind at 1.
  rewrite exNoShear_auto. unfold bind at 1.
  rewrite exRMSE. reflexivity.
Qed.

Lemma exScoreLoop (crses : list string) (o : JSObject.t R) :
  FindBest.scoreLoop unit exIsDefined exDefine exProject exProj4List
    exMap exImg "noshear" "auto" tt crses o
  = Ok (tt, fold_left (fun o crs => JSObject.set crs 0 o) crses o).
Proof.
  revert o.
  induction crses as [| c rest IH]; intros o; simpl.
  - reflexivity.
  - fold exScoreCRS. rewrite exScoreCRS_value. simpl. apply IH.
Qed.

Lemma exFindBestCRS_aliases :
  exFindBestCRS ["EPSG:3857"; "EPSG:900913"]%string
  = Ok "EPSG:900913"%string.
Proof.
  unfold exFindBestCRS, FindBest.findBestCRS. simpl negb. cbv iota.
  rewrite exScoreLoop. simpl.
  unfold FindBest.pick. simpl.
  destruct (Rlt_dec 0 0) as [H | _]; [lra | reflexivity].
Qed.

(** ** Theorems on find_best.ts *)

(** C2, as stated, fails: two candidates with the same RMSE, and the
    second of them is returned. *)
Lemma findBestCRS_tie_returns_later :
  exScoreCRS tt "EPSG:3857" = Ok (tt, 0)
  /\ exScoreCRS tt "EPSG:900913" = Ok (tt, 0)
  /\ exFindBestCRS ["EPSG:3857"; "EPSG:900913"]%string
     = Ok "EPSG:900913"%string
  /\ exFindBestCRS ["EPSG:3857"; "EPSG:900913"]%string
     <> Ok "EPSG:3857"%string.
Proof.
  split; [apply exScoreCRS_value |].
  split; [apply exScoreCRS_value |].
  split; [exact exFindBestCRS_aliases |].
  rewrite exFindBestCRS_aliases. discriminate.
Qed.

(** C2, amended. With point sequences of equal length, a non-empty
    candidate list and a loop that succeeds for every candidate,
    [findBestCRS] returns a candidate whose RMSE in the table is least over
    all candidates, and every key listed after it by [Object.keys] has a
    strictly greater RMSE: of several least candidates it is the last one.
    Each entry of the table is the RMSE the loop body computed for its key,
    and for distinct candidates of which none is an array index
    [Object.keys] lists them in the order they were given. *)
Theorem findBestCRS_last_minimum (Engine : Type)
  (isDefined : Engine -> string -> bool)
  (define : Engine -> string -> string -> Engine)
  (project : Engine -> string -> Position -> Result Position)
  (proj4List : string -> option (string * string))
  (lnglat image : list Position) (crses : list string)
  (mode yAxisMode : string) (e e' : Engine) (rmse : JSObject.t R) :
  length lnglat = length image ->
  crses <> [] ->
  FindBest.scoreLoop Engine isDefined define project proj4List
    lnglat image mode yAxisMode e crses [] = Ok (e', rmse) ->
  exists c r l1 l2,
    FindBest.findBestCRS Engine isDefined define project proj4List
      lnglat image crses mode yAxisMode e = Ok c
    /\ In c crses
    /\ JSObject.get c rmse = Some r
    /\ (forall k, In k crses ->
          exists v, JSObject.get k rmse = Some v /\ r <= v)
    /\ JSObject.keys rmse = l1 ++ c :: l2
    /\ (forall k, In k l2 ->
          exists v, JSObject.get k rmse = Some v /\ r < v)
    /\ (forall k v, JSObject.get k rmse = Some v ->
          In k crses
          /\ exists e1 e2,
               FindBest.scoreCRS Engine isDefined define project proj4List
                 lnglat image mode yAxisMode e1 k = Ok (e2, v))
    /\ (NoDup crses ->
        (forall k, In k crses -> JSObject.array_index k = None) ->
        JSObject.keys rmse = crses).
Proof.
  intros Hlen Hne Hloop.
  pose proof (scoreLoop_names _ _ _ _ _ _ _ _ _ _ _ _ _ _ Hloop) as Hnames.
  pose proof (scoreLoop_values _ _ _ _ _ _ _ _ _ _ _ _ _ _ Hloop) as Hvalues.
  simpl in Hnames.
  unfold FindBest.findBestCRS.
  rewrite Hlen, Nat.eqb_refl. simpl negb. cbv iota.
  rewrite Hloop. simpl.
  destruct (JSObject.keys rmse) as [| a ks] eqn:Hkeys.
  - exfalso. destruct crses as [| c0 rest]; [contradiction |].
    assert (Hin : In c0 (JSObject.keys rmse)).
    { apply keys_in, Hnames. right. left. reflexivity. }
    rewrite Hkeys in Hin. exact Hin.
  - simpl.
    assert (Hall : forall k, In k (a :: ks) ->
                     exists v, JSObject.get k rmse = Some v).
    { intros k Hk. rewrite <- Hkeys in Hk.
      apply get_some_iff, keys_in. exact Hk. }
    destruct (fold_pick_last_min rmse ks a Hall)
      as (l1 & l2 & r & Hsplit & Hr & Hl1 & Hl2).
    set (c := fold_left (FindBest.pick rmse) ks a) in *.
    assert (Hc : In c crses).
    { assert (Hin : In c (JSObject.keys rmse)).
      { rewrite Hkeys, Hsplit. apply in_elt. }
      apply keys_in, Hnames in Hin. destruct Hin as [[] | Hin]. exact Hin. }
    exists c, r, l1, l2.
    split; [reflexivity |]. split; [exact Hc |]. split; [exact Hr |].
    split.
    { intros k Hk.
      assert (Hin : In k (JSObject.keys rmse)).
      { apply keys_in, Hnames. right. exact Hk. }
      rewrite Hkeys, Hsplit in Hin. apply in_app_iff in Hin.
      destruct Hin as [Hin | [<- | Hin]].
      - apply Hl1. exact Hin.
      - exists r. split; [exact Hr | lra].
      - destruct (Hl2 k Hin) as (v & Hv & Hlt).
        exists v. split; [exact Hv | lra]. }
    split; [exact Hsplit |]. split; [exact Hl2 |].
    split.
    { intros k v Hv. destruct (Hvalues k v Hv) as [Hold | Hnew].
      - discriminate.
      - exact Hnew. }
    intros Hnd Hidx.
    assert (Hfresh : forall k, In k crses ->
              ~ In k (List.map fst (@nil (string * R)))).
    { intros k _ []. }
    pose proof (scoreLoop_order _ _ _ _ _ _ _ _ _ _ _ _ _ _ Hnd
                  Hfresh Hloop) as Hord.
    simpl in Hord. rewrite <- Hkeys, <- Hord.
    apply keys_of_names. intros k Hk. apply Hidx. rewrite <- Hord. exact Hk.
Qed.

Lemma findBestCRS_last_minimum_witness :
  exists c r l1 l2,
    exFindBestCRS ["EPSG:3857"; "EPSG:900913"]%string = Ok c
    /\ In c ["EPSG:3857"; "EPSG:900913"]%string
    /\ JSObject.get c [("EPSG:3857", 0); ("EPSG:900913", 0)]%string = Some r
    /\ (forall k, In k ["EPSG:3857"; "EPSG:900913"]%string ->
          exists v,
            JSObject.get k [("EPSG:3857", 0); ("EPSG:900913", 0)]%string
            = Some v /\ r <= v)
    /\ JSObject.keys [("EPSG:3857", 0); ("EPSG:900913", 0)]%string
       = l1 ++ c :: l2
    /\ (forall k, In k l2 ->
          exists v,
            JSObject.get k [("EPSG:3857", 0); ("EPSG:900913", 0)]%string
            = Some v /\ r < v)
    /\ (forall k v,
          JSObject.get k [("EPSG:3857", 0); ("EPSG:900913", 0)]%string
          = Some v ->
          In k ["EPSG:3857"; "EPSG:900913"]%string
          /\ exists e1 e2, exScoreCRS e1 k = Ok (e2, v))
    /\ (NoDup ["EPSG:3857"; "EPSG:900913"]%string ->
        (forall k, In k ["EPSG:3857"; "EPSG:900913"]%string ->
                   JSObject.array_index k = None) ->
        JSObject.keys [("EPSG:3857", 0); ("EPSG:900913", 0)]%string
        = ["EPSG:3857"; "EPSG:900913"]%string).
Proof.
  apply (findBestCRS_last_minimum unit exIsDefined exDefine exProject
           exProj4List exMap exImg ["EPSG:3857"; "EPSG:900913"]%string
           "noshear" "auto" tt tt).
  - reflexivity.
  - discriminate.
  - rewrite exScoreLoop. reflexivity.
Defined.

(** C10. With point sequences of equal length and no candidate,
    [findBestCRS] throws: the [reduce] over the keys of the empty table has
    no initial value. *)
Theorem findBestCRS_no_candidate (Engine : Type)
  (isDefined : Engine -> string -> bool)
  (define : Engine -> string -> string -> Engine)
  (project : Engine -> string -> Position -> Result Position)
  (proj4List : string -> option (string * string))
  (lnglat image : list Position) (mode yAxisMode : string) (e : Engine) :
  length lnglat = length image ->
  FindBest.findBestCRS Engine isDefined define project proj4List
    lnglat image [] mode yAxisMode e = Err TypeError.
Proof.
  intros Hlen. unfold FindBest.findBestCRS.
  rewrite Hlen, Nat.eqb_refl. reflexivity.
Qed.

Lemma findBestCRS_no_candidate_witness :
  exFindBestCRS [] = Err TypeError.
Proof.
  apply (findBestCRS_no_candidate unit exIsDefined exDefine exProject
           exProj4List exMap exImg "noshear" "auto" tt).
  reflexivity.
Defined.


(** * Further properties of the sources *)

(** ** rmse.ts: symmetry, definiteness and change of coordinates *)

Lemma computeRMSE_value (obs pred : list Position) :
  obs <> [] -> length obs = length pred ->
  computeRMSE obs pred
  = Ok (sqrt (sq_diff_sum obs pred / INR (length obs))).
Proof.
  intros Hne Hl. unfold computeRMSE.
  rewrite <- Hl, Nat.eqb_refl. simpl negb. rewrite orb_false_r.
  destruct (Nat.eqb_spec (length obs) 0) as [H0 | _].
  - exfalso. apply Hne, length_zero_iff_nil, H0.
  - rewrite sumf_combine_sq_diff. reflexivity.
Qed.

Lemma computeRMSE_guard (obs pred : list Position) :
  obs = [] \/ length obs <> length pred ->
  computeRMSE obs pred = Err LengthMismatchError.
Proof.
  intros H. unfold computeRMSE.
  destruct (Nat.eqb_spec (length obs) 0) as [H0 | H0]; [reflexivity |].
  destruct (Nat.eqb_spec (length obs) (length pred)) as [Hl | Hl];
    [| reflexivity].
  destruct H as [-> | H]; [exfalso; apply H0; reflexivity | contradiction].
Qed.

Lemma sq_diff_sum_sym (obs pred : list Position) :
  sq_diff_sum obs pred = sq_diff_sum pred obs.
Proof.
  revert pred.
  induction obs as [| [ox oy] obs' IH]; intros [| [px py] pred']; simpl;
    try reflexivity.
  rewrite IH. ring.
Qed.

(** X1. [computeRMSE] does not tell its two arguments apart: swapping the
    observed and the predicted points gives the same result, and the same
    error. *)
Theorem computeRMSE_sym (observed predicted : list Position) :
  computeRMSE observed predicted = computeRMSE predicted observed.
Proof.
  destruct observed as [| o obs'].
  - rewrite computeRMSE_guard by (left; reflexivity).
    destruct predicted as [| q pred'].
    + rewrite computeRMSE_guard by (left; reflexivity). reflexivity.
    + rewrite computeRMSE_guard by (right; discriminate). reflexivity.
  - destruct (Nat.eq_dec (length (o :: obs')) (length predicted))
      as [Hl | Hl].
    + assert (Hp : predicted <> []).
      { intros ->. discriminate. }
      rewrite computeRMSE_value by (try discriminate; exact Hl).
      rewrite (computeRMSE_value predicted) by (try exact Hp; now symmetry).
      rewrite sq_diff_sum_sym, Hl. reflexivity.
    + rewrite computeRMSE_guard by (right; exact Hl).
      rewrite computeRMSE_guard; [reflexivity |].
      right. intros H. apply Hl. symmetry. exact H.
Qed.

Lemma sq_diff_sum_zero (obs pred : list Position) :
  length obs = length pred -> sq_diff_sum obs pred = 0 -> obs = pred.
Proof.
  revert pred.
  induction obs as [| [ox oy] obs' IH]; intros [| [px py] pred'] Hl H;
    try discriminate; try reflexivity.
  simpl in H.
  pose proof (sq_diff_sum_nonneg obs' pred') as Hrest.
  pose proof (pow2_ge_0 (ox - px)) as Hx.
  pose proof (pow2_ge_0 (oy - py)) as Hy.
  assert (H1 : (ox - px) ^ 2 = 0) by lra.
  assert (H2 : (oy - py) ^ 2 = 0) by lra.
  assert (H3 : sq_diff_sum obs' pred' = 0) by lra.
  assert (H1' : ox - px = 0) by nra.
  assert (H2' : oy - py = 0) by nra.
  f_equal.
  - f_equal; lra.
  - apply IH; [simpl in Hl; lia | exact H3].
Qed.

Lemma list_eq_dec_nil {T : Type} (l : list T) : {l = []} + {l <> []}.
Proof. destruct l; [left; reflexivity | right; discriminate]. Qed.

Lemma INR_length_pos {T : Type} (l : list T) : l <> [] -> 0 < INR (length l).
Proof.
  intros Hne. destruct l as [| h t]; [contradiction |].
  apply lt_0_INR. simpl. lia.
Qed.

(** X2. On sequences of one and the same non-zero length, [computeRMSE]
    returns [0] only for equal sequences. *)
Theorem computeRMSE_zero_iff (observed predicted : list Position) :
  observed <> [] -> length observed = length predicted ->
  (computeRMSE observed predicted = Ok 0 <-> observed = predicted).
Proof.
  intros Hne Hl. rewrite computeRMSE_value by assumption.
  pose proof (INR_length_pos observed Hne) as Hn.
  pose proof (sq_diff_sum_nonneg observed predicted) as Hs.
  split.
  - intros H. injection H as H.
    apply sqrt_eq_0 in H.
    + apply sq_diff_sum_zero; [exact Hl |].
      unfold Rdiv in H. apply Rmult_integral in H.
      destruct H as [H | H]; [exact H |].
      exfalso. apply (Rinv_neq_0_compat (INR (length observed))); lra.
    + apply Rmult_le_pos; [exact Hs |].
      left. apply Rinv_0_lt_compat. exact Hn.
  - intros <-. rewrite sq_diff_sum_diag.
    unfold Rdiv. rewrite Rmult_0_l, sqrt_0. reflexivity.
Qed.

Lemma computeRMSE_zero_iff_witness :
  computeRMSE [(1, 2); (3, 4)] [(1, 2); (3, 4)] = Ok 0
  <-> [(1, 2); (3, 4)] = [(1, 2); (3, 4)].
Proof.
  apply (computeRMSE_zero_iff [(1, 2); (3, 4)] [(1, 2); (3, 4)]).
  - discriminate.
  - reflexivity.
Defined.

Lemma forwardAll_length (p : AffineParams) (pts : list Position) :
  length (forwardAll p pts) = length pts.
Proof. unfold forwardAll. apply length_map. Qed.

Lemma sq_diff_sum_forward (p : AffineParams) (obs pred : list Position) :
  conformal p ->
  sq_diff_sum (forwardAll p obs) (forwardAll p pred)
  = scale2 p * sq_diff_sum obs pred.
Proof.
  destruct p as [[[[[A B] C] D] E] F]. unfold conformal, scale2.
  intros [Horth Hnorm].
  assert (Hkey : forall dx dy,
            (A * dx + B * dy) * (A * dx + B * dy)
            + (D * dx + E * dy) * (D * dx + E * dy)
            = (A * A + D * D) * (dx * dx + dy * dy)).
  { intros dx dy.
    transitivity ((A * A + D * D) * (dx * dx) + (B * B + E * E) * (dy * dy)
                  + 2 * (A * B + D * E) * (dx * dy)); [ring |].
    rewrite Horth, Hnorm. ring. }
  revert pred.
  induction obs as [| [ox oy] obs' IH]; intros [| [px py] pred']; simpl;
    try ring.
  fold (forwardAll (A, B, C, D, E, F) obs').
  fold (forwardAll (A, B, C, D, E, F) pred').
  rewrite IH. pose proof (Hkey (ox - px) (oy - py)) as Hk. lra.
Qed.

Lemma scale2_nonneg (p : AffineParams) : 0 <= scale2 p.
Proof.
  destruct p as [[[[[A B] C] D] E] F]. unfold scale2. nra.
Qed.

(** X3. Sending both point sequences through one [forwardAffine] whose
    matrix has orthogonal columns of equal length (a translation, rotation,
    uniform scaling, axis flip, or any product of these) multiplies
    [computeRMSE] by the scale factor [sqrt (A*A + D*D)] and changes nothing
    else; errors stay errors. *)
Theorem computeRMSE_forward (p : AffineParams)
  (observed predicted : list Position) :
  conformal p ->
  computeRMSE (forwardAll p observed) (forwardAll p predicted)
  = (r <- computeRMSE observed predicted ;; Ok (sqrt (scale2 p) * r)).
Proof.
  intros Hp.
  destruct (list_eq_dec_nil observed) as [-> | Hne].
  - simpl forwardAll. rewrite !computeRMSE_guard by (left; reflexivity).
    reflexivity.
  - assert (Hne' : forwardAll p observed <> []).
    { intros H. apply Hne, length_zero_iff_nil.
      rewrite <- (forwardAll_length p), H. reflexivity. }
    destruct (Nat.eq_dec (length observed) (length predicted)) as [Hl | Hl].
    + rewrite computeRMSE_value
        by (try exact Hne'; rewrite !forwardAll_length; exact Hl).
      rewrite (computeRMSE_value observed) by assumption.
      unfold bind. f_equal.
      rewrite sq_diff_sum_forward by exact Hp.
      rewrite forwardAll_length.
      unfold Rdiv. rewrite Rmult_assoc.
      apply sqrt_mult.
      * apply scale2_nonneg.
      * apply Rmult_le_pos; [apply sq_diff_sum_nonneg |].
        left. apply Rinv_0_lt_compat, INR_length_pos. exact Hne.
    + rewrite computeRMSE_guard
        by (right; rewrite !forwardAll_length; exact Hl).
      rewrite computeRMSE_guard by (right; exact Hl). reflexivity.
Qed.

Lemma computeRMSE_forward_witness :
  computeRMSE (forwardAll (0, - 2, 5, 2, 0, 7) [(0, 0); (1, 0)])
              (forwardAll (0, - 2, 5, 2, 0, 7) [(0, 1); (1, 1)])
  = (r <- computeRMSE [(0, 0); (1, 0)] [(0, 1); (1, 1)] ;;
     Ok (sqrt (scale2 (0, - 2, 5, 2, 0, 7)) * r)).
Proof.
  apply (computeRMSE_forward (0, - 2, 5, 2, 0, 7)).
  unfold conformal. split; ring.
Defined.

(** ** transform.ts: the other round trip *)

(** X4. Whatever [inverseAffine] returns is sent back onto the map point by
    [forwardAffine]: the inverse is a right inverse too. *)
Theorem forward_inverse_roundtrip (p : AffineParams) (P q : Position) :
  inverseAffine p P = Ok q -> forwardAffine p q = P.
Proof.
  destruct p as [[[[[A B] C] D] E] F]. destruct P as [X Y].
  unfold inverseAffine, forwardAffine.
  destruct (Rlt_dec (Rabs (A * E - B * D)) eps) as [Hlt | Hge];
    [discriminate |].
  pose proof (det_nonzero_of_bound _ Hge) as Hnz.
  intros H. injection H as <-. f_equal; field; exact Hnz.
Qed.

Lemma forward_inverse_roundtrip_witness :
  forwardAffine (2, 0, 1, 0, 4, 1) (1, 1) = (3, 5).
Proof.
  apply (forward_inverse_roundtrip (2, 0, 1, 0, 4, 1) (3, 5) (1, 1)).
  unfold inverseAffine.
  destruct (Rlt_dec (Rabs (2 * 4 - 0 * 0)) eps) as [Hlt | _].
  - exfalso. replace (2 * 4 - 0 * 0) with 8 in Hlt by ring.
    rewrite Rabs_pos_eq in Hlt by lra. unfold eps in Hlt. lra.
  - apply f_equal. apply f_equal2; field.
Defined.

(** ** [Math.atan2] on real numbers *)

Lemma hyp_sqrt (x y : R) : x <> 0 \/ y <> 0 -> 0 < sqrt (x * x + y * y).
Proof.
  intros H. apply sqrt_lt_R0. destruct H as [H | H]; nra.
Qed.

Lemma sqrt_one_plus_sq (x y : R) :
  0 < x -> sqrt (1 + (y / x)²) = sqrt (x * x + y * y) / x.
Proof.
  intros Hx.
  assert (Hr : 0 <= x * x + y * y) by nra.
  apply sqrt_lem_1.
  - unfold Rsqr. assert (0 <= (y / x) * (y / x)) by nra. lra.
  - apply Rmult_le_pos; [apply sqrt_pos |].
    left. apply Rinv_0_lt_compat. exact Hx.
  - unfold Rsqr.
    replace (sqrt (x * x + y * y) / x * (sqrt (x * x + y * y) / x))
      with (sqrt (x * x + y * y) * sqrt (x * x + y * y) / (x * x))
      by (field; lra).
    rewrite sqrt_sqrt by exact Hr. field. lra.
Qed.

Lemma atan2_cos_sin (y x : R) :
  x <> 0 \/ y <> 0 ->
  cos (Math_atan2 y x) = x / sqrt (x * x + y * y)
  /\ sin (Math_atan2 y x) = y / sqrt (x * x + y * y).
Proof.
  intros Hnz. pose proof (hyp_sqrt x y Hnz) as Hr.
  unfold Math_atan2.
  destruct (Rlt_dec 0 x) as [Hx | Hx].
  - rewrite cos_atan, sin_atan, sqrt_one_plus_sq by exact Hx.
    split; field; lra.
  - destruct (Rlt_dec x 0) as [Hx' | Hx'].
    + assert (Hs : sqrt (1 + (y / x)²) = sqrt (x * x + y * y) / (- x)).
      { replace (y / x) with ((- y) / (- x)) by (field; lra).
        rewrite sqrt_one_plus_sq by lra. f_equal. f_equal. ring. }
      destruct (Rle_dec 0 y) as [Hy | Hy].
      * rewrite neg_cos, neg_sin, cos_atan, sin_atan, Hs.
        split; field; lra.
      * unfold Rminus. rewrite cos_plus, sin_plus, cos_neg, sin_neg.
        rewrite cos_PI, sin_PI, cos_atan, sin_atan, Hs.
        split; field; lra.
    + assert (x = 0) by lra. subst x.
      assert (Hy0 : y <> 0) by (destruct Hnz; [lra | assumption]).
      replace (0 * 0 + y * y) with (y * y) in * by ring.
      destruct (Rlt_dec 0 y) as [Hy | Hy].
      * rewrite cos_PI2, sin_PI2, sqrt_square by lra. split; field; lra.
      * destruct (Rlt_dec y 0) as [Hy' | Hy']; [| lra].
        rewrite cos_neg, sin_neg, cos_PI2, sin_PI2.
        replace (y * y) with ((- y) * (- y)) by ring.
        rewrite sqrt_square by lra. split; field; lra.
Qed.

Lemma atan2_range (y x : R) : - PI < Math_atan2 y x <= PI.
Proof.
  pose proof PI_RGT_0 as Hpi. unfold Math_atan2.
  pose proof (atan_bound (y / x)) as Hb.
  destruct (Rlt_dec 0 x) as [Hx | Hx]; [lra |].
  destruct (Rlt_dec x 0) as [Hx' | Hx'].
  - destruct (Rle_dec 0 y) as [Hy | Hy].
    + assert (Hq : y / x <= 0).
      { unfold Rdiv. assert (/ x < 0) by (apply Rinv_lt_0_compat; lra). nra. }
      assert (atan (y / x) <= 0).
      { destruct Hq as [Hq | Hq].
        - left. rewrite <- atan_0. apply atan_increasing. exact Hq.
        - rewrite Hq, atan_0. lra. }
      lra.
    + assert (Hq : 0 < y / x).
      { unfold Rdiv. assert (/ x < 0) by (apply Rinv_lt_0_compat; lra). nra. }
      assert (0 < atan (y / x)).
      { rewrite <- atan_0. apply atan_increasing. exact Hq. }
      lra.
  - destruct (Rlt_dec 0 y); [lra |]. destruct (Rlt_dec y 0); lra.
Qed.

Lemma angle_unique (a b : R) :
  - PI < a <= PI -> - PI < b <= PI ->
  cos a = cos b -> sin a = sin b -> a = b.
Proof.
  intros Ha Hb Hc Hs.
  pose proof (sin2_cos2 b) as Hb1. unfold Rsqr in Hb1.
  assert (Hcos : cos (a - b) = 1).
  { rewrite cos_minus, Hc, Hs. lra. }
  assert (Hhalf : sin ((a - b) / 2) = 0).
  { pose proof (cos_2a_sin ((a - b) / 2)) as H2.
    replace (2 * ((a - b) / 2)) with (a - b) in H2 by field.
    rewrite Hcos in H2. nra. }
  destruct (Rtotal_order ((a - b) / 2) 0) as [Hlt | [Heq | Hgt]].
  - pose proof (sin_lt_0_var ((a - b) / 2)). lra.
  - lra.
  - pose proof (sin_gt_0 ((a - b) / 2)). lra.
Qed.

Lemma atan2_polar (s t : R) :
  0 < s -> - PI < t <= PI -> Math_atan2 (s * sin t) (s * cos t) = t.
Proof.
  intros Hs Ht.
  pose proof (sin2_cos2 t) as H1. unfold Rsqr in H1.
  assert (Hnz : s * cos t <> 0 \/ s * sin t <> 0).
  { destruct (Req_dec (cos t) 0) as [Hc | Hc].
    - right. assert (sin t <> 0) by nra. nra.
    - left. nra. }
  destruct (atan2_cos_sin _ _ Hnz) as [Hc Hsn].
  assert (Hr : sqrt (s * cos t * (s * cos t) + s * sin t * (s * sin t)) = s).
  { replace (s * cos t * (s * cos t) + s * sin t * (s * sin t))
      with (s * s * (sin t * sin t + cos t * cos t)) by ring.
    rewrite H1, Rmult_1_r. apply sqrt_square. lra. }
  rewrite Hr in Hc, Hsn.
  apply angle_unique.
  - apply atan2_range.
  - exact Ht.
  - rewrite Hc. field. lra.
  - rewrite Hsn. field. lra.
Qed.

(** ** rmse_ratio.ts *)

Lemma sumf_const {T : Type} (c : R) (l : list T) :
  sumf (fun _ => c) l = INR (length l) * c.
Proof.
  induction l as [| h t IH].
  - rewrite sumf_nil. simpl. ring.
  - rewrite sumf_cons, IH. rewrite length_cons, S_INR. ring.
Qed.

Lemma computeRMSEOverStdRatio_guard (obs pred : list Position) :
  obs = [] \/ length obs <> length pred ->
  computeRMSEOverStdRatio obs pred = Err LengthMismatchError.
Proof.
  intros H. unfold computeRMSEOverStdRatio.
  destruct (Nat.eqb_spec (length obs) 0) as [H0 | H0]; [reflexivity |].
  destruct (Nat.eqb_spec (length obs) (length pred)) as [Hl | Hl];
    [| reflexivity].
  destruct H as [-> | H]; [exfalso; apply H0; reflexivity | contradiction].
Qed.

Lemma computeRMSEOverStdRatio_value (obs pred : list Position) :
  obs <> [] -> length obs = length pred ->
  computeRMSEOverStdRatio obs pred
  = Ok (if Rgt_dec (std2d_of obs) eps
        then sqrt (sq_diff_sum obs pred / INR (length obs)) / std2d_of obs
        else 0).
Proof.
  intros Hne Hl. unfold computeRMSEOverStdRatio.
  rewrite <- Hl, Nat.eqb_refl. simpl negb. rewrite orb_false_r.
  destruct (Nat.eqb_spec (length obs) 0) as [H0 | _].
  { exfalso. apply Hne, length_zero_iff_nil, H0. }
  cbv zeta. rewrite sumf_combine_sq_diff.
  assert (Ex : sumf (fun '(x, _) => x) obs = sumf fst obs).
  { apply sumf_ext. intros [x y] _. reflexivity. }
  assert (Ey : sumf (fun '(_, y) => y) obs = sumf snd obs).
  { apply sumf_ext. intros [x y] _. reflexivity. }
  rewrite Ex, Ey.
  assert (Es : sumf (fun '(x, y) =>
                       (x - sumf fst obs / INR (length obs))
                       * (x - sumf fst obs / INR (length obs))
                       + (y - sumf snd obs / INR (length obs))
                         * (y - sumf snd obs / INR (length obs))) obs
               = sumf (fun q =>
                         (fst q - fst (centroid obs))
                         * (fst q - fst (centroid obs))
                         + (snd q - snd (centroid obs))
                           * (snd q - snd (centroid obs))) obs).
  { apply sumf_ext. intros [x y] _. reflexivity. }
  rewrite Es. fold (std2d_of obs). reflexivity.
Qed.

Lemma std2d_nonneg (pts : list Position) : 0 <= std2d_of pts.
Proof. unfold std2d_of. apply sqrt_pos. Qed.

(** X5. [computeRMSEOverStdRatio] fails exactly as [computeRMSE] does, and
    otherwise returns the RMSE divided by the standard deviation of the
    observed points about their centroid, or [0] when that deviation is not
    above [1e-15]; the ratio is never negative and is [0] on [(P, P)]. *)
Theorem computeRMSEOverStdRatio_spec (observed predicted : list Position) :
  computeRMSEOverStdRatio observed predicted
  = (r <- computeRMSE observed predicted ;;
     Ok (if Rgt_dec (std2d_of observed) eps
         then r / std2d_of observed else 0))
  /\ (forall v, computeRMSEOverStdRatio observed predicted = Ok v -> 0 <= v)
  /\ (observed <> [] -> computeRMSEOverStdRatio observed observed = Ok 0).
Proof.
  destruct (list_eq_dec_nil observed) as [-> | Hne].
  { rewrite computeRMSEOverStdRatio_guard by (left; reflexivity).
    rewrite computeRMSE_guard by (left; reflexivity).
    split; [reflexivity |]. split; [discriminate | contradiction]. }
  split; [| split].
  - destruct (Nat.eq_dec (length observed) (length predicted)) as [Hl | Hl].
    + rewrite computeRMSEOverStdRatio_value, computeRMSE_value by assumption.
      reflexivity.
    + rewrite computeRMSEOverStdRatio_guard, computeRMSE_guard
        by (right; exact Hl).
      reflexivity.
  - intros v Hv.
    destruct (Nat.eq_dec (length observed) (length predicted)) as [Hl | Hl].
    + rewrite computeRMSEOverStdRatio_value in Hv by assumption.
      injection Hv as <-.
      destruct (Rgt_dec (std2d_of observed) eps) as [Hgt | _]; [| lra].
      apply Rmult_le_pos; [apply sqrt_pos |].
      left. apply Rinv_0_lt_compat. pose proof eps_pos. lra.
    + rewrite computeRMSEOverStdRatio_guard in Hv by (right; exact Hl).
      discriminate.
  - intros _. rewrite computeRMSEOverStdRatio_value by auto.
    rewrite sq_diff_sum_diag.
    replace (0 / INR (length observed)) with 0 by (unfold Rdiv; ring).
    rewrite sqrt_0.
    destruct (Rgt_dec (std2d_of observed) eps); [| reflexivity].
    f_equal. unfold Rdiv. ring.
Qed.

Lemma std_sum_as_diff (c : Position) (pts : list Position) :
  sumf (fun q => (fst q - fst c) * (fst q - fst c)
                 + (snd q - snd c) * (snd q - snd c)) pts
  = sq_diff_sum pts (List.map (fun _ => c) pts).
Proof.
  destruct c as [cx cy].
  induction pts as [| [x y] pts' IH].
  - reflexivity.
  - rewrite sumf_cons, IH. simpl. ring.
Qed.

Lemma sum_forward (p : AffineParams) (pts : list Position) :
  let '(A, B, C, D, E, F) := p in
  sumf fst (forwardAll p pts)
  = A * sumf fst pts + B * sumf snd pts + INR (length pts) * C
  /\ sumf snd (forwardAll p pts)
     = D * sumf fst pts + E * sumf snd pts + INR (length pts) * F.
Proof.
  destruct p as [[[[[A B] C] D] E] F].
  induction pts as [| [x y] pts' IH].
  - unfold forwardAll. simpl List.map. rewrite !sumf_nil. simpl. split; ring.
  - destruct IH as [IH1 IH2]. unfold forwardAll in *. simpl List.map.
    rewrite !sumf_cons, IH1, IH2, length_cons, S_INR. simpl. split; ring.
Qed.

(** An affine map sends the centroid onto the centroid of the images. *)
Lemma centroid_forward (p : AffineParams) (pts : list Position) :
  pts <> [] -> centroid (forwardAll p pts) = forwardAffine p (centroid pts).
Proof.
  intros Hne. pose proof (INR_length_pos pts Hne) as Hn.
  pose proof (sum_forward p pts) as Hs.
  destruct p as [[[[[A B] C] D] E] F]. destruct Hs as [H1 H2].
  unfold centroid. rewrite forwardAll_length, H1, H2.
  unfold forwardAffine. f_equal; field; lra.
Qed.

Lemma std2d_forward (p : AffineParams) (pts : list Position) :
  conformal p -> pts <> [] ->
  std2d_of (forwardAll p pts) = sqrt (scale2 p) * std2d_of pts.
Proof.
  intros Hp Hne. unfold std2d_of.
  rewrite !std_sum_as_diff, centroid_forward by exact Hne.
  replace (List.map (fun _ => forwardAffine p (centroid pts))
                    (forwardAll p pts))
    with (forwardAll p (List.map (fun _ => centroid pts) pts)).
  - rewrite sq_diff_sum_forward by exact Hp.
    rewrite forwardAll_length. unfold Rdiv. rewrite Rmult_assoc.
    apply sqrt_mult.
    + apply scale2_nonneg.
    + apply Rmult_le_pos; [apply sq_diff_sum_nonneg |].
      left. apply Rinv_0_lt_compat, INR_length_pos. exact Hne.
  - unfold forwardAll. rewrite !map_map. reflexivity.
Qed.

(** X6. The ratio has no unit: sending both point sequences through one
    [forwardAffine] whose matrix has orthogonal columns of equal length
    leaves [computeRMSEOverStdRatio] as it is, as long as the deviation of
    the observed points is above [1e-15] before and after. *)
Theorem computeRMSEOverStdRatio_forward (p : AffineParams)
  (observed predicted : list Position) :
  conformal p ->
  std2d_of observed > eps ->
  sqrt (scale2 p) * std2d_of observed > eps ->
  computeRMSEOverStdRatio (forwardAll p observed) (forwardAll p predicted)
  = computeRMSEOverStdRatio observed predicted.
Proof.
  intros Hp Hstd Hstd'.
  destruct (list_eq_dec_nil observed) as [-> | Hne].
  { simpl forwardAll.
    rewrite !computeRMSEOverStdRatio_guard by (left; reflexivity).
    reflexivity. }
  assert (Hne' : forwardAll p observed <> []).
  { intros H. apply Hne, length_zero_iff_nil.
    rewrite <- (forwardAll_length p), H. reflexivity. }
  destruct (Nat.eq_dec (length observed) (length predicted)) as [Hl | Hl].
  - rewrite computeRMSEOverStdRatio_value
      by (try exact Hne'; rewrite !forwardAll_length; exact Hl).
    rewrite (computeRMSEOverStdRatio_value observed) by assumption.
    rewrite std2d_forward, sq_diff_sum_forward, forwardAll_length
      by assumption.
    destruct (Rgt_dec (sqrt (scale2 p) * std2d_of observed) eps) as [_ | H];
      [| contradiction].
    destruct (Rgt_dec (std2d_of observed) eps) as [_ | H];
      [| contradiction].
    f_equal.
    assert (Hk : sqrt (scale2 p) <> 0).
    { intros H0. rewrite H0, Rmult_0_l in Hstd'. pose proof eps_pos. lra. }
    assert (Hs0 : std2d_of observed <> 0).
    { pose proof eps_pos. lra. }
    unfold Rdiv at 1 2. rewrite Rmult_assoc.
    rewrite sqrt_mult.
    + unfold Rdiv. field. split; assumption.
    + apply scale2_nonneg.
    + apply Rmult_le_pos; [apply sq_diff_sum_nonneg |].
      left. apply Rinv_0_lt_compat, INR_length_pos. exact Hne.
  - rewrite computeRMSEOverStdRatio_guard
      by (right; rewrite !forwardAll_length; exact Hl).
    rewrite computeRMSEOverStdRatio_guard by (right; exact Hl). reflexivity.
Qed.

Lemma exStd : std2d_of [(0, 0); (2, 0)] = 1.
Proof.
  unfold std2d_of, centroid, sumf. simpl.
  match goal with
  | |- sqrt ?e = 1 => replace e with 1 by field
  end.
  apply sqrt_1.
Qed.

Lemma computeRMSEOverStdRatio_forward_witness :
  computeRMSEOverStdRatio (forwardAll (2, 0, 1, 0, 2, 1) [(0, 0); (2, 0)])
                          (forwardAll (2, 0, 1, 0, 2, 1) [(0, 1); (2, 1)])
  = computeRMSEOverStdRatio [(0, 0); (2, 0)] [(0, 1); (2, 1)].
Proof.
  apply (computeRMSEOverStdRatio_forward (2, 0, 1, 0, 2, 1)).
  - unfold conformal. split; ring.
  - rewrite exStd. unfold eps. lra.
  - rewrite exStd. unfold scale2.
    replace (2 * 2 + 0 * 0) with (2 * 2) by ring.
    rewrite sqrt_square by lra. unfold eps. lra.
Defined.

(** ** shear.ts *)

Lemma sqrt_polar (s t : R) :
  0 <= s -> sqrt (s * cos t * (s * cos t) + s * sin t * (s * sin t)) = s.
Proof.
  intros Hs. pose proof (sin2_cos2 t) as H1. unfold Rsqr in H1.
  replace (s * cos t * (s * cos t) + s * sin t * (s * sin t))
    with (s * s * (sin t * sin t + cos t * cos t)) by ring.
  rewrite H1, Rmult_1_r. apply sqrt_square. exact Hs.
Qed.

(** X7. [shear2Rotation] undoes [rotation2Shear]: from the matrix built for
    a scale [s >= 1e-15] and an angle in [(-PI, PI]] it reads the same scale
    and angle back. *)
Theorem shear2Rotation_rotation2Shear (s t : R) :
  eps <= s -> - PI < t <= PI ->
  let m := Shear.rotation2Shear s t in
  Shear.shear2Rotation (Shear.A m) (Shear.B m) (Shear.D m) (Shear.E m)
  = {| Shear.s := s; Shear.theta := t |}.
Proof.
  intros Hs Ht. pose proof eps_pos as He.
  unfold Shear.rotation2Shear, Shear.shear2Rotation. simpl.
  rewrite sqrt_polar by lra.
  destruct (Rlt_dec s eps) as [Hlt | _]; [lra |].
  rewrite atan2_polar by (try lra; exact Ht). reflexivity.
Qed.

Lemma shear2Rotation_rotation2Shear_witness :
  Shear.shear2Rotation
    (Shear.A (Shear.rotation2Shear 2 (PI / 2)))
    (Shear.B (Shear.rotation2Shear 2 (PI / 2)))
    (Shear.D (Shear.rotation2Shear 2 (PI / 2)))
    (Shear.E (Shear.rotation2Shear 2 (PI / 2)))
  = {| Shear.s := 2; Shear.theta := PI / 2 |}.
Proof.
  apply (shear2Rotation_rotation2Shear 2 (PI / 2)).
  - unfold eps. lra.
  - pose proof PI_RGT_0. lra.
Defined.

(** X8. [rotation2Shear] undoes [shear2Rotation] on the matrices it can
    build: for [E = A], [B = -D] and a scale [sqrt (A*A + D*D)] of at least
    [1e-15], the scale and angle that [shear2Rotation] reads give the
    matrix back. *)
Theorem rotation2Shear_shear2Rotation (A B D E : R) :
  E = A -> B = - D -> eps <= sqrt (A * A + D * D) ->
  let r := Shear.shear2Rotation A B D E in
  Shear.rotation2Shear (Shear.s r) (Shear.theta r)
  = {| Shear.A := A; Shear.B := B; Shear.D := D; Shear.E := E |}.
Proof.
  intros -> -> Hs. pose proof eps_pos as He.
  unfold Shear.shear2Rotation.
  destruct (Rlt_dec (sqrt (A * A + D * D)) eps) as [Hlt | _]; [lra |].
  unfold Shear.rotation2Shear. simpl.
  assert (Hnz : A <> 0 \/ D <> 0).
  { destruct (Req_dec A 0) as [HA | HA]; [| left; exact HA].
    destruct (Req_dec D 0) as [HD | HD]; [| right; exact HD].
    exfalso. subst. replace (0 * 0 + 0 * 0) with 0 in Hs by ring.
    rewrite sqrt_0 in Hs. lra. }
  destruct (atan2_cos_sin D A Hnz) as [Hc Hsn].
  rewrite Hc, Hsn.
  f_equal; field; lra.
Qed.

Lemma rotation2Shear_shear2Rotation_witness :
  Shear.rotation2Shear
    (Shear.s (Shear.shear2Rotation 3 (- 4) 4 3))
    (Shear.theta (Shear.shear2Rotation 3 (- 4) 4 3))
  = {| Shear.A := 3; Shear.B := - 4; Shear.D := 4; Shear.E := 3 |}.
Proof.
  apply (rotation2Shear_shear2Rotation 3 (- 4) 4 3).
  - reflexivity.
  - reflexivity.
  - replace (3 * 3 + 4 * 4) with (5 * 5) by ring.
    rewrite sqrt_square by lra. unfold eps. lra.
Defined.

(** X9. What [shear2Rotation] returns: the scale is [0] (then the angle is
    [0] too) or at least [1e-15], never in between and never negative; the
    angle lies in [(-PI, PI]]; and [B] and [E] play no part. *)
Theorem shear2Rotation_range (A B D E : R) :
  let r := Shear.shear2Rotation A B D E in
  ((Shear.s r = 0 /\ Shear.theta r = 0 /\ sqrt (A * A + D * D) < eps)
   \/ (eps <= Shear.s r /\ Shear.s r = sqrt (A * A + D * D)))
  /\ - PI < Shear.theta r <= PI
  /\ (forall B' E', Shear.shear2Rotation A B' D E' = r).
Proof.
  unfold Shear.shear2Rotation.
  destruct (Rlt_dec (sqrt (A * A + D * D)) eps) as [Hlt | Hge]; simpl.
  - split; [left; auto |].
    split; [pose proof PI_RGT_0; lra | reflexivity].
  - split; [right; split; [lra | reflexivity] |].
    split; [apply atan2_range | reflexivity].
Qed.

(** ** compute.ts: the similarity fit without trigonometry *)

Lemma similarity_params_closed (img map : list Position) :
  eps <= bigC_of img ->
  similarity_params img map =
  (bigA_of img map / bigC_of img,
   - (bigB_of img map / bigC_of img),
   fst (centroid map)
   - (bigA_of img map / bigC_of img * fst (centroid img)
      - bigB_of img map / bigC_of img * snd (centroid img)),
   bigB_of img map / bigC_of img,
   bigA_of img map / bigC_of img,
   snd (centroid map)
   - (bigB_of img map / bigC_of img * fst (centroid img)
      + bigA_of img map / bigC_of img * snd (centroid img))).
Proof.
  intros HC. pose proof eps_pos as He.
  unfold similarity_params, scale_of, theta_of.
  destruct (centroid img) as [cx cy]. destruct (centroid map) as [cX cY].
  simpl fst. simpl snd.
  set (a := bigA_of img map). set (b := bigB_of img map).
  set (c := bigC_of img) in *.
  assert (Hcos : sqrt (a * a + b * b) / c * cos (Math_atan2 b a) = a / c
                 /\ sqrt (a * a + b * b) / c * sin (Math_atan2 b a) = b / c).
  { destruct (Req_dec a 0) as [Ha | Ha];
      [destruct (Req_dec b 0) as [Hb | Hb] |].
    - subst a b. rewrite Ha, Hb.
      replace (0 * 0 + 0 * 0) with 0 by ring. rewrite sqrt_0.
      unfold Rdiv. split; ring.
    - destruct (atan2_cos_sin b a (or_intror Hb)) as [H1 H2].
      pose proof (hyp_sqrt a b (or_intror Hb)) as Hr.
      rewrite H1, H2. split; field; lra.
    - destruct (atan2_cos_sin b a (or_introl Ha)) as [H1 H2].
      pose proof (hyp_sqrt a b (or_introl Ha)) as Hr.
      rewrite H1, H2. split; field; lra. }
  destruct Hcos as [Hc Hs].
  replace (- (sqrt (a * a + b * b) / c) * sin (Math_atan2 b a))
    with (- (sqrt (a * a + b * b) / c * sin (Math_atan2 b a))) by ring.
  replace (sqrt (a * a + b * b) / c
           * (cos (Math_atan2 b a) * cx - sin (Math_atan2 b a) * cy))
    with (sqrt (a * a + b * b) / c * cos (Math_atan2 b a) * cx
          - sqrt (a * a + b * b) / c * sin (Math_atan2 b a) * cy) by ring.
  replace (sqrt (a * a + b * b) / c
           * (sin (Math_atan2 b a) * cx + cos (Math_atan2 b a) * cy))
    with (sqrt (a * a + b * b) / c * sin (Math_atan2 b a) * cx
          + sqrt (a * a + b * b) / c * cos (Math_atan2 b a) * cy) by ring.
  rewrite Hc, Hs. reflexivity.
Qed.

(** X10. The ['similar'], ['same'] fit in closed form: its matrix is
    [bigA/bigC, -bigB/bigC; bigB/bigC, bigA/bigC], and it sends the centroid
    of the image points onto the centroid of the map points. *)
Theorem similar_same_closed_form (img map : list Position)
  (A B C D E F : R) :
  computeTransformParams img map "similar" "same" = Ok (A, B, C, D, E, F) ->
  A = bigA_of img map / bigC_of img
  /\ B = - (bigB_of img map / bigC_of img)
  /\ D = bigB_of img map / bigC_of img
  /\ E = bigA_of img map / bigC_of img
  /\ forwardAffine (A, B, C, D, E, F) (centroid img) = centroid map.
Proof.
  intros H. apply similar_same_returns in H.
  destruct H as (Hn & Hl & HC & Hr).
  rewrite similarity_params_closed in Hr by exact HC.
  destruct (centroid img) as [cx cy]. destruct (centroid map) as [cX cY].
  simpl fst in Hr. simpl snd in Hr.
  injection Hr as -> -> -> -> -> ->.
  repeat split; try reflexivity.
  unfold forwardAffine. f_equal; ring.
Qed.

Lemma exSim_same :
  computeTransformParams exSimImg exSimMap "similar" "same"
  = Ok (similarity_params exSimImg exSimMap).
Proof.
  apply similar_same_returns.
  split; [simpl; lia |]. split; [reflexivity |].
  split; [rewrite exSim_bigC; unfold eps; lra | reflexivity].
Qed.

Lemma similar_same_closed_form_witness :
  exists A B C D E F,
    similarity_params exSimImg exSimMap = (A, B, C, D, E, F)
    /\ A = bigA_of exSimImg exSimMap / bigC_of exSimImg
    /\ forwardAffine (A, B, C, D, E, F) (centroid exSimImg)
       = centroid exSimMap.
Proof.
  destruct (similarity_params exSimImg exSimMap)
    as [[[[[A B] C] D] E] F] eqn:Hp.
  exists A, B, C, D, E, F. split; [reflexivity |].
  pose proof exSim_same as Hs. rewrite Hp in Hs.
  destruct (similar_same_closed_form exSimImg exSimMap A B C D E F Hs)
    as (H1 & _ & _ & _ & H5).
  split; assumption.
Defined.

(** ** compute.ts: exact data are fitted exactly *)

Lemma combine_map_self {T U : Type} (f : T -> U) (l : list T) :
  combine l (List.map f l) = List.map (fun q => (q, f q)) l.
Proof.
  induction l as [| h t IH]; simpl; [reflexivity |].
  rewrite IH. reflexivity.
Qed.

Lemma centered_forward (p : AffineParams) (pts : list Position) :
  pts <> [] ->
  centered (forwardAll p pts)
  = let '(A, B, _, D, E, _) := p in
    List.map (fun q => (A * fst q + B * snd q, D * fst q + E * snd q))
             (centered pts).
Proof.
  intros Hne. unfold centered. rewrite centroid_forward by exact Hne.
  destruct p as [[[[[A B] C] D] E] F].
  unfold forwardAll. rewrite !map_map. apply map_ext.
  intros [x y]. destruct (centroid pts) as [cx cy].
  unfold shift, forwardAffine. simpl. f_equal; ring.
Qed.

Lemma bigAB_forward (a d c f : R) (img : list Position) :
  img <> [] ->
  bigA_of img (forwardAll (a, - d, c, d, a, f) img) = a * bigC_of img
  /\ bigB_of img (forwardAll (a, - d, c, d, a, f) img) = d * bigC_of img.
Proof.
  intros Hne. unfold bigA_of, bigB_of.
  rewrite centered_forward by exact Hne. cbv beta iota.
  rewrite combine_map_self, !sumf_map. unfold bigC_of.
  rewrite <- !sumf_scal.
  split; apply sumf_ext; intros [x y] _; simpl; ring.
Qed.

Lemma computeSimilarCore_exact (a d c f : R) (img : list Position) :
  eps <= bigC_of img ->
  computeSimilarCore img (forwardAll (a, - d, c, d, a, f) img)
  = Ok (a, - d, c, d, a, f).
Proof.
  intros HC. pose proof eps_pos as He.
  assert (Hne : img <> []).
  { intros ->. unfold bigC_of, centered in HC. simpl in HC.
    rewrite sumf_nil in HC. lra. }
  rewrite computeSimilarCore_spec by (rewrite forwardAll_length; reflexivity).
  destruct (Rlt_dec (Rabs (bigC_of img)) eps) as [Hlt | _].
  { apply bigC_guard in HC. contradiction. }
  rewrite similarity_params_closed by exact HC.
  destruct (bigAB_forward a d c f img Hne) as [-> ->].
  rewrite centroid_forward by exact Hne.
  destruct (centroid img) as [cx cy]. unfold forwardAffine.
  simpl fst. simpl snd.
  f_equal. repeat (f_equal; try (field; lra)).
Qed.

(** X11. Exact data are fitted exactly: for map points that are the images
    of at least two image points under a similarity matrix
    [(a, -d, c, d, a, f)], with [bigC] not below [1e-15], the ['similar'],
    ['same'] fit returns that very matrix. *)
Theorem similar_same_exact (a d c f : R) (img : list Position) :
  (2 <= length img)%nat -> eps <= bigC_of img ->
  computeTransformParams img (forwardAll (a, - d, c, d, a, f) img)
    "similar" "same"
  = Ok (a, - d, c, d, a, f).
Proof.
  intros Hn HC.
  rewrite computeTransformParams_similar
    by (try exact Hn; apply forwardAll_length).
  unfold computeSimilarAsAffine.
  rewrite computeSimilarCore_exact by exact HC. simpl.
  rewrite computeSimilarCore_spec
    by (rewrite flipY_length, forwardAll_length; reflexivity).
  rewrite bigC_flipY.
  destruct (Rlt_dec (Rabs (bigC_of img)) eps) as [Hlt | _].
  { apply bigC_guard in HC. contradiction. }
  reflexivity.
Qed.

Lemma similar_same_exact_witness :
  computeTransformParams exSimImg (forwardAll (0, - 2, 5, 2, 0, 7) exSimImg)
    "similar" "same"
  = Ok (0, - 2, 5, 2, 0, 7).
Proof.
  apply (similar_same_exact 0 2 5 7 exSimImg).
  - simpl. lia.
  - rewrite exSim_bigC. unfold eps. lra.
Defined.

Lemma forwardAll_convertFlipParam (p : AffineParams) (img : list Position) :
  forwardAll (convertFlipParam p) img = forwardAll p (flipY img).
Proof.
  unfold forwardAll, flipY. rewrite map_map. apply map_ext.
  intros [x y]. apply forward_convertFlipParam.
Qed.

(** X12. Exact data with the Y axis the other way round: for map points
    that are the images of at least two image points under
    [(a, d, c, d, -a, f)] (a similarity applied after negating the image Y),
    with [bigC] not below [1e-15], the ['similar'], ['opposite'] fit returns
    that very matrix. *)
Theorem similar_opposite_exact (a d c f : R) (img : list Position) :
  (2 <= length img)%nat -> eps <= bigC_of img ->
  computeTransformParams img (forwardAll (a, d, c, d, - a, f) img)
    "similar" "opposite"
  = Ok (a, d, c, d, - a, f).
Proof.
  intros Hn HC.
  rewrite computeTransformParams_similar
    by (try exact Hn; apply forwardAll_length).
  unfold computeSimilarAsAffine.
  rewrite computeSimilarCore_spec
    by (rewrite forwardAll_length; reflexivity).
  destruct (Rlt_dec (Rabs (bigC_of img)) eps) as [Hlt | _].
  { apply bigC_guard in HC. contradiction. }
  simpl.
  replace (a, d, c, d, - a, f) with (convertFlipParam (a, - d, c, d, a, f))
    by (unfold convertFlipParam; repeat (f_equal; try ring)).
  rewrite forwardAll_convertFlipParam.
  rewrite computeSimilarCore_exact by (rewrite bigC_flipY; exact HC).
  reflexivity.
Qed.

Lemma similar_opposite_exact_witness :
  computeTransformParams exSimImg (forwardAll (0, 2, 5, 2, - 0, 7) exSimImg)
    "similar" "opposite"
  = Ok (0, 2, 5, 2, - 0, 7).
Proof.
  apply (similar_opposite_exact 0 2 5 7 exSimImg).
  - simpl. lia.
  - rewrite exSim_bigC. unfold eps. lra.
Defined.

(** ** compute.ts: the normal equations of the no-shear fit *)

Lemma combine_map_both {T U T' U' : Type} (f : T -> T') (g : U -> U')
  (l : list T) (l' : list U) :
  combine (List.map f l) (List.map g l')
  = List.map (fun r => (f (fst r), g (snd r))) (combine l l').
Proof.
  revert l'. induction l as [| h t IH]; intros [| h' t']; simpl;
    try reflexivity.
  rewrite IH. reflexivity.
Qed.

Lemma sumf_app {T : Type} (f : T -> R) (l1 l2 : list T) :
  sumf f (l1 ++ l2) = sumf f l1 + sumf f l2.
Proof.
  induction l1 as [| h t IH]; simpl.
  - rewrite sumf_nil. ring.
  - rewrite !sumf_cons, IH. ring.
Qed.

Lemma sumf_flat_map {T U : Type} (h : T -> list U) (f : U -> R)
  (l : list T) :
  sumf f (flat_map h l) = sumf (fun r => sumf f (h r)) l.
Proof.
  induction l as [| x t IH]; simpl.
  - reflexivity.
  - rewrite sumf_app, sumf_cons, IH. reflexivity.
Qed.

Lemma combine_append {U V : Type} (a a' : list U) (b b' : list V) :
  length a = length b ->
  combine (a ++ a') (b ++ b') = combine a b ++ combine a' b'.
Proof.
  revert b. induction a as [| x t IH]; intros [| y t'] Hl;
    try discriminate; simpl.
  - reflexivity.
  - rewrite IH by (simpl in Hl; lia). reflexivity.
Qed.

Lemma combine_flat_map {T U V : Type} (h : T -> list U) (k : T -> list V)
  (l : list T) :
  (forall r, length (h r) = length (k r)) ->
  combine (flat_map h l) (flat_map k l)
  = flat_map (fun r => combine (h r) (k r)) l.
Proof.
  intros Hlen. induction l as [| x t IH]; simpl.
  - reflexivity.
  - rewrite <- IH. apply combine_append. apply Hlen.
Qed.

(** Entry [(i, j)] of [MathJS.transpose M * N] is the sum over the paired
    rows of the products of their [i]-th and [j]-th entries. *)
Lemma normal_product (M N : MathJS.Matrix) :
  MathJS.multiply (MathJS.transpose M) N
  = List.map
      (fun i =>
         List.map
           (fun j => sumf (fun r => nth i (fst r) 0 * nth j (snd r) 0)
                          (combine M N))
           (seq 0 (MathJS.columns N)))
      (seq 0 (MathJS.columns M)).
Proof.
  unfold MathJS.multiply, MathJS.transpose. rewrite !map_map.
  apply map_ext. intros i. rewrite !map_map. apply map_ext. intros j.
  unfold MathJS.dot. rewrite combine_map_both, sumf_map. reflexivity.
Qed.

Ltac split_rows :=
  repeat match goal with
         | |- cons _ _ = cons _ _ => apply f_equal2
         | |- nil = nil => reflexivity
         end.

Ltac sum_entry :=
  apply sumf_ext; intros [[? ?] [? ?]] _; unfold sumf; simpl; ring.

Lemma computeNoShearCore_normal (img map : list Position) :
  combine img map <> [] ->
  computeNoShearCore img map =
  (N <- MathJS.inv (noshearN (combine img map)) ;;
   let p := MathJS.multiply N (noshearB (combine img map)) in
   Ok (MathJS.get p 0 0, 0, MathJS.get p 1 0, 0,
       MathJS.get p 0 0, MathJS.get p 2 0)).
Proof.
  intros Hne. unfold computeNoShearCore. cbv zeta.
  set (rows := combine img map) in *.
  set (h := fun '(x, y, (_, _)) => [[x; 1; 0]; [y; 0; 1]]).
  set (k := fun '(_, _, (X, Y)) => [[X]; [Y]]).
  assert (HcM : MathJS.columns (flat_map h rows) = 3%nat).
  { destruct rows as [| [[x y] [X Y]] rs]; [contradiction | reflexivity]. }
  assert (HcV : MathJS.columns (flat_map k rows) = 1%nat).
  { destruct rows as [| [[x y] [X Y]] rs]; [contradiction | reflexivity]. }
  assert (Hone : sumf (fun _ : Position * Position => 1) rows
                 = INR (length rows)).
  { rewrite sumf_const. ring. }
  assert (Hzero : sumf (fun _ : Position * Position => 0) rows = 0).
  { rewrite sumf_const. ring. }
  assert (HN : MathJS.multiply (MathJS.transpose (flat_map h rows))
                               (flat_map h rows)
               = noshearN rows).
  { rewrite normal_product, HcM. simpl seq. simpl List.map.
    rewrite combine_flat_map by reflexivity.
    rewrite !sumf_flat_map. unfold noshearN.
    split_rows;
      first [ sum_entry
            | etransitivity; [| exact Hone]; sum_entry
            | etransitivity; [| exact Hzero]; sum_entry ]. }
  assert (HB : MathJS.multiply (MathJS.transpose (flat_map h rows))
                               (flat_map k rows)
               = noshearB rows).
  { rewrite normal_product, HcM, HcV. simpl seq. simpl List.map.
    rewrite combine_flat_map
      by (intros [[x y] [X Y]]; reflexivity).
    rewrite !sumf_flat_map. unfold noshearB.
    split_rows; sum_entry. }
  rewrite HN, HB. reflexivity.
Qed.

Lemma solve_3x3 (a b c d e f g h i p q r : R) :
  MathJS.det [[a; b; c]; [d; e; f]; [g; h; i]] <> 0 ->
  exists N,
    MathJS.inv [[a; b; c]; [d; e; f]; [g; h; i]] = Ok N
    /\ MathJS.multiply N [[a * p + b * q + c * r]; [d * p + e * q + f * r];
                   [g * p + h * q + i * r]]
       = [[p]; [q]; [r]].
Proof.
  intros Hd. unfold MathJS.inv.
  destruct (Req_dec_T (MathJS.det [[a; b; c]; [d; e; f]; [g; h; i]]) 0)
    as [H0 | _]; [contradiction |].
  eexists. split; [reflexivity |].
  rewrite det_3x3 in *.
  cbv [MathJS.adjugate MathJS.det_n length seq sumf fold_left MathJS.signed
       Nat.even MathJS.get nth MathJS.minor MathJS.remove_nth List.map
       MathJS.multiply MathJS.transpose MathJS.columns hd MathJS.dot combine
       Nat.add pred].
  split_rows; field; exact Hd.
Qed.

(** The sums of the normal equations over the image points alone. *)
Lemma sum_sq_shift (a b : R) (pts : list Position) :
  sumf (fun q => (fst q - a) * (fst q - a) + (snd q - b) * (snd q - b)) pts
  = sumf (fun q => fst q * fst q + snd q * snd q) pts
    - 2 * a * sumf fst pts - 2 * b * sumf snd pts
    + INR (length pts) * (a * a + b * b).
Proof.
  induction pts as [| [x y] t IH].
  - rewrite !sumf_nil. simpl. ring.
  - rewrite !sumf_cons, IH, length_cons, S_INR. simpl. ring.
Qed.

Lemma bigC_sums (img : list Position) :
  img <> [] ->
  INR (length img) * bigC_of img
  = INR (length img) * sumf (fun q => fst q * fst q + snd q * snd q) img
    - sumf fst img * sumf fst img - sumf snd img * sumf snd img.
Proof.
  intros Hne. pose proof (INR_length_pos img Hne) as Hn.
  unfold bigC_of, centered. rewrite sumf_map.
  assert (E : sumf (fun x => let '(x', y') := shift (centroid img) x in
                             x' * x' + y' * y') img
              = sumf (fun q => (fst q - fst (centroid img))
                               * (fst q - fst (centroid img))
                               + (snd q - snd (centroid img))
                                 * (snd q - snd (centroid img))) img).
  { apply sumf_ext. intros [x y] _. reflexivity. }
  rewrite E, sum_sq_shift. unfold centroid. simpl fst. simpl snd.
  field. lra.
Qed.

Lemma noshearN_img (img map : list Position) :
  length img = length map ->
  noshearN (combine img map)
  = [[sumf (fun q => fst q * fst q + snd q * snd q) img;
      sumf fst img; sumf snd img];
     [sumf fst img; INR (length img); 0];
     [sumf snd img; 0; INR (length img)]].
Proof.
  intros Hl. unfold noshearN.
  rewrite length_combine, <- Hl, Nat.min_id.
  rewrite <- (sumf_combine_l (fun q => fst q * fst q + snd q * snd q)
                img map Hl).
  rewrite <- (sumf_combine_l fst img map Hl).
  rewrite <- (sumf_combine_l snd img map Hl).
  split_rows; try reflexivity;
    apply sumf_ext; intros [[x y] [X Y]] _; reflexivity.
Qed.

Lemma noshear_det (img map : list Position) :
  length img = length map -> img <> [] ->
  MathJS.det (noshearN (combine img map))
  = INR (length img) * INR (length img) * bigC_of img.
Proof.
  intros Hl Hne. rewrite noshearN_img by exact Hl.
  rewrite det_3x3. rewrite Rmult_assoc, bigC_sums by exact Hne. ring.
Qed.

Lemma computeNoShearCore_returns (img map : list Position) :
  length img = length map -> img <> [] -> bigC_of img <> 0 ->
  exists r, computeNoShearCore img map = Ok r.
Proof.
  intros Hl Hne HC. pose proof (INR_length_pos img Hne) as Hn.
  assert (Hrows : combine img map <> []).
  { destruct img as [| q t]; [contradiction |].
    destruct map as [| Q T]; [discriminate | discriminate]. }
  rewrite computeNoShearCore_normal by exact Hrows.
  unfold MathJS.inv. rewrite noshear_det by assumption.
  destruct (Req_dec_T _ 0) as [H0 | _].
  - exfalso. apply Rmult_integral in H0. destruct H0 as [H0 | H0];
      [| contradiction].
    apply Rmult_integral in H0. lra.
  - simpl. eexists. reflexivity.
Qed.

Lemma noshearB_exact (a c f : R) (img : list Position) :
  let rows := combine img (forwardAll (a, 0, c, 0, a, f) img) in
  sumf (fun '((x, y), (X, Y)) => x * X + y * Y) rows
  = sumf (fun q => fst q * fst q + snd q * snd q) img * a
    + sumf fst img * c + sumf snd img * f
  /\ sumf (fun '((_, _), (X, _)) => X) rows
     = sumf fst img * a + INR (length img) * c + 0 * f
  /\ sumf (fun '((_, _), (_, Y)) => Y) rows
     = sumf snd img * a + 0 * c + INR (length img) * f.
Proof.
  induction img as [| [x y] t IH]; cbv zeta in *.
  - unfold forwardAll. simpl. rewrite !sumf_nil. repeat split; ring.
  - destruct IH as (IH1 & IH2 & IH3).
    unfold forwardAll in *. simpl List.map. simpl combine.
    rewrite !sumf_cons, IH1, IH2, IH3, length_cons, S_INR. simpl.
    repeat split; ring.
Qed.

Lemma computeNoShearCore_exact (a c f : R) (img : list Position) :
  bigC_of img <> 0 ->
  computeNoShearCore img (forwardAll (a, 0, c, 0, a, f) img)
  = Ok (a, 0, c, 0, a, f).
Proof.
  intros HC.
  assert (Hne : img <> []).
  { intros ->. apply HC. reflexivity. }
  pose proof (INR_length_pos img Hne) as Hn.
  assert (Hl : length img = length (forwardAll (a, 0, c, 0, a, f) img)).
  { rewrite forwardAll_length. reflexivity. }
  assert (Hrows : combine img (forwardAll (a, 0, c, 0, a, f) img) <> []).
  { destruct img as [| q t]; [contradiction | discriminate]. }
  rewrite computeNoShearCore_normal by exact Hrows.
  pose proof (noshear_det img _ Hl Hne) as Hdet.
  rewrite noshearN_img in * by exact Hl.
  unfold noshearB.
  destruct (noshearB_exact a c f img) as (-> & -> & ->).
  destruct (solve_3x3
              (sumf (fun q => fst q * fst q + snd q * snd q) img)
              (sumf fst img) (sumf snd img)
              (sumf fst img) (INR (length img)) 0
              (sumf snd img) 0 (INR (length img)) a c f)
    as (N & HN & Hsol).
  { rewrite Hdet. intros H0. apply Rmult_integral in H0.
    destruct H0 as [H0 | H0]; [| contradiction].
    apply Rmult_integral in H0. lra. }
  rewrite HN. simpl bind. rewrite Hsol. reflexivity.
Qed.

Lemma solve_3x3_sound (a b c d e f g h i b1 b2 b3 : R) (N : MathJS.Matrix) :
  MathJS.inv [[a; b; c]; [d; e; f]; [g; h; i]] = Ok N ->
  let p := MathJS.multiply N [[b1]; [b2]; [b3]] in
  a * MathJS.get p 0 0 + b * MathJS.get p 1 0 + c * MathJS.get p 2 0 = b1
  /\ d * MathJS.get p 0 0 + e * MathJS.get p 1 0 + f * MathJS.get p 2 0 = b2
  /\ g * MathJS.get p 0 0 + h * MathJS.get p 1 0 + i * MathJS.get p 2 0 = b3.
Proof.
  unfold MathJS.inv.
  destruct (Req_dec_T (MathJS.det [[a; b; c]; [d; e; f]; [g; h; i]]) 0)
    as [H0 | Hd]; [discriminate |].
  intros H. injection H as <-.
  rewrite det_3x3 in *.
  cbv [MathJS.adjugate MathJS.det_n length seq sumf fold_left MathJS.signed
       Nat.even MathJS.get nth MathJS.minor MathJS.remove_nth List.map
       MathJS.multiply MathJS.transpose MathJS.columns hd MathJS.dot combine
       Nat.add pred].
  repeat split; field; exact Hd.
Qed.

Lemma noshear_residual_expand (a c f : R)
  (rows : list (Position * Position)) :
  sumf (fun '((x, y), (X, Y)) =>
          let Xp := a * x + 0 * y + c in
          let Yp := 0 * x + a * y + f in
          let dx := X - Xp in
          let dy := Y - Yp in
          dx * dx + dy * dy) rows
  = sumf (fun '((_, _), (X, Y)) => X * X + Y * Y) rows
    - 2 * (a * sumf (fun '((x, y), (X, Y)) => x * X + y * Y) rows
           + c * sumf (fun '((_, _), (X, _)) => X) rows
           + f * sumf (fun '((_, _), (_, Y)) => Y) rows)
    + (a * a * sumf (fun '((x, y), (_, _)) => x * x + y * y) rows
       + 2 * a * c * sumf (fun '((x, _), (_, _)) => x) rows
       + 2 * a * f * sumf (fun '((_, y), (_, _)) => y) rows
       + INR (length rows) * (c * c + f * f)).
Proof.
  induction rows as [| [[x y] [X Y]] t IH].
  - rewrite !sumf_nil. simpl. ring.
  - rewrite !sumf_cons, IH, length_cons, S_INR. cbv beta iota zeta. ring.
Qed.

Lemma noshear_quadratic_nonneg (a c f : R)
  (rows : list (Position * Position)) :
  0 <= a * a * sumf (fun '((x, y), (_, _)) => x * x + y * y) rows
       + 2 * a * c * sumf (fun '((x, _), (_, _)) => x) rows
       + 2 * a * f * sumf (fun '((_, y), (_, _)) => y) rows
       + INR (length rows) * (c * c + f * f).
Proof.
  induction rows as [| [[x y] [X Y]] t IH].
  - rewrite !sumf_nil. simpl. lra.
  - rewrite !sumf_cons, length_cons, S_INR. cbv beta iota zeta.
    set (Sq := sumf (fun '((x0, y0), (_, _)) => x0 * x0 + y0 * y0) t) in *.
    set (Sx := sumf (fun '((x0, _), (_, _)) => x0) t) in *.
    set (Sy := sumf (fun '((_, y0), (_, _)) => y0) t) in *.
    set (n := INR (length t)) in *.
    replace (a * a * (x * x + y * y + Sq) + 2 * a * c * (x + Sx)
             + 2 * a * f * (y + Sy) + (n + 1) * (c * c + f * f))
      with ((a * a * Sq + 2 * a * c * Sx + 2 * a * f * Sy
             + n * (c * c + f * f))
            + ((a * x + c) * (a * x + c) + (a * y + f) * (a * y + f)))
      by ring.
    apply Rplus_le_le_0_compat; [exact IH |].
    apply Rplus_le_le_0_compat; apply Rle_0_sqr.
Qed.

Lemma computeNoShearCore_least_squares (img map : list Position)
  (A B C D E F : R) :
  combine img map <> [] ->
  computeNoShearCore img map = Ok (A, B, C, D, E, F) ->
  forall a c f,
    sumOfSquaredResiduals (A, B, C, D, E, F) img map
    <= sumOfSquaredResiduals (a, 0, c, 0, a, f) img map.
Proof.
  intros Hrows H a c f.
  destruct (computeNoShearCore_shape _ _ _ _ _ _ _ _ H) as (-> & -> & ->).
  rewrite computeNoShearCore_normal in H by exact Hrows.
  destruct (MathJS.inv (noshearN (combine img map))) as [N |] eqn:HN;
    unfold bind in H; [| discriminate].
  cbv zeta in H.
  assert (HA : MathJS.get (MathJS.multiply N (noshearB (combine img map)))
                          0 0 = A) by congruence.
  assert (HC : MathJS.get (MathJS.multiply N (noshearB (combine img map)))
                          1 0 = C) by congruence.
  assert (HF : MathJS.get (MathJS.multiply N (noshearB (combine img map)))
                          2 0 = F) by congruence.
  clear H.
  pose proof (solve_3x3_sound _ _ _ _ _ _ _ _ _
                (sumf (fun '((x, y), (X, Y)) => x * X + y * Y)
                      (combine img map))
                (sumf (fun '((_, _), (X, _)) => X) (combine img map))
                (sumf (fun '((_, _), (_, Y)) => Y) (combine img map))
                N HN) as Hsol.
  fold (noshearB (combine img map)) in Hsol. cbv zeta in Hsol.
  rewrite HA, HC, HF in Hsol. destruct Hsol as (E1 & E2 & E3).
  unfold sumOfSquaredResiduals.
  rewrite (noshear_residual_expand A C F), (noshear_residual_expand a c f).
  pose proof (noshear_quadratic_nonneg (a - A) (c - C) (f - F)
                (combine img map)) as Hq.
  set (Sq := sumf (fun '((x, y), (_, _)) => x * x + y * y) (combine img map))
    in *.
  set (Sx := sumf (fun '((x, _), (_, _)) => x) (combine img map)) in *.
  set (Sy := sumf (fun '((_, y), (_, _)) => y) (combine img map)) in *.
  set (B1 := sumf (fun '((x, y), (X, Y)) => x * X + y * Y) (combine img map))
    in *.
  set (B2 := sumf (fun '((_, _), (X, _)) => X) (combine img map)) in *.
  set (B3 := sumf (fun '((_, _), (_, Y)) => Y) (combine img map)) in *.
  set (n := INR (length (combine img map))) in *.
  set (T := sumf (fun '((_, _), (X, Y)) => X * X + Y * Y) (combine img map)).
  rewrite <- E1, <- E2, <- E3. nra.
Qed.

(** ** compute.ts: the no-shear fit *)

Lemma computeTransformParams_noshear_any (img map : list Position)
  (yAxisMode : string) :
  (2 <= length img)%nat -> length map = length img -> bigC_of img <> 0 ->
  exists r, computeTransformParams img map "noshear" yAxisMode = Ok r.
Proof.
  intros Hn Hl HC.
  assert (Hne : img <> []).
  { intros ->. simpl in Hn. lia. }
  assert (Hne' : flipY img <> []).
  { intros H. apply Hne, length_zero_iff_nil.
    rewrite <- flipY_length, H. reflexivity. }
  rewrite computeTransformParams_noshear by assumption.
  unfold computeNoShearAsAffine.
  destruct (computeNoShearCore_returns img map (eq_sym Hl) Hne HC)
    as [r ->].
  destruct (computeNoShearCore_returns (flipY img) map) as [r' ->];
    [rewrite flipY_length; symmetry; exact Hl | exact Hne'
    | rewrite bigC_flipY; exact HC |].
  simpl.
  destruct (yAxisMode =? "same")%string; [eexists; reflexivity |].
  destruct (yAxisMode =? "opposite")%string; eexists; reflexivity.
Qed.

(** X13. In mode ['noshear'], whatever the [yAxisMode]: a fit that returns
    was given at least two image points and as many map points; and given
    these, the fit returns as soon as the image points are not all one
    point ([bigC], the sum of their squared distances to their centroid, is
    not zero).  Nothing is said of coincident image points, where the
    outcome is that of the matrix inversion on a singular matrix. *)
Theorem noshear_returns (img map : list Position) (yAxisMode : string) :
  ((exists r, computeTransformParams img map "noshear" yAxisMode = Ok r)
   -> (2 <= length img)%nat /\ length map = length img)
  /\ ((2 <= length img)%nat -> length map = length img ->
      bigC_of img <> 0 ->
      exists r, computeTransformParams img map "noshear" yAxisMode = Ok r).
Proof.
  split.
  - intros [r Hr]. exact (computeTransformParams_guards _ _ _ _ _ Hr).
  - apply computeTransformParams_noshear_any.
Qed.

Lemma exBigC : bigC_of exImg = 1.
Proof.
  unfold bigC_of, centered, centroid, shift, exImg, sumf. simpl. field.
Qed.

Lemma noshear_returns_witness :
  exists r, computeTransformParams exImg exMap "noshear" "opposite" = Ok r.
Proof.
  apply (proj2 (noshear_returns exImg exMap "opposite")).
  - simpl. lia.
  - reflexivity.
  - rewrite exBigC. lra.
Defined.

(** X14. Exact data are fitted exactly: for map points that are the images
    of at least two image points, not all one point, under
    [(a, 0, c, 0, a, f)], the ['noshear'], ['same'] fit returns that very
    matrix. *)
Theorem noshear_same_exact (a c f : R) (img : list Position) :
  (2 <= length img)%nat -> bigC_of img <> 0 ->
  computeTransformParams img (forwardAll (a, 0, c, 0, a, f) img)
    "noshear" "same"
  = Ok (a, 0, c, 0, a, f).
Proof.
  intros Hn HC.
  assert (Hne : img <> []).
  { intros ->. simpl in Hn. lia. }
  rewrite computeTransformParams_noshear
    by (try exact Hn; apply forwardAll_length).
  unfold computeNoShearAsAffine.
  rewrite computeNoShearCore_exact by exact HC. simpl.
  destruct (computeNoShearCore_returns (flipY img)
              (forwardAll (a, 0, c, 0, a, f) img)) as [r' ->].
  - rewrite flipY_length, forwardAll_length. reflexivity.
  - intros H. apply Hne, length_zero_iff_nil.
    rewrite <- flipY_length, H. reflexivity.
  - rewrite bigC_flipY. exact HC.
  - reflexivity.
Qed.

Lemma noshear_same_exact_witness :
  computeTransformParams exImg (forwardAll (3, 0, 5, 0, 3, 7) exImg)
    "noshear" "same"
  = Ok (3, 0, 5, 0, 3, 7).
Proof.
  apply (noshear_same_exact 3 5 7 exImg).
  - simpl. lia.
  - rewrite exBigC. lra.
Defined.

(** X15. Exact data with the Y axis the other way round: for map points
    that are the images of at least two image points, not all one point,
    under [(a, 0, c, 0, -a, f)], the ['noshear'], ['opposite'] fit returns
    that very matrix. *)
Theorem noshear_opposite_exact (a c f : R) (img : list Position) :
  (2 <= length img)%nat -> bigC_of img <> 0 ->
  computeTransformParams img (forwardAll (a, 0, c, 0, - a, f) img)
    "noshear" "opposite"
  = Ok (a, 0, c, 0, - a, f).
Proof.
  intros Hn HC.
  assert (Hne : img <> []).
  { intros ->. simpl in Hn. lia. }
  rewrite computeTransformParams_noshear
    by (try exact Hn; apply forwardAll_length).
  unfold computeNoShearAsAffine.
  destruct (computeNoShearCore_returns img
              (forwardAll (a, 0, c, 0, - a, f) img)) as [r ->].
  - rewrite forwardAll_length. reflexivity.
  - exact Hne.
  - exact HC.
  - simpl.
    replace (a, 0, c, 0, - a, f)
      with (convertFlipParam (a, 0, c, 0, a, f))
      by (unfold convertFlipParam; repeat (f_equal; try ring)).
    rewrite forwardAll_convertFlipParam.
    rewrite computeNoShearCore_exact by (rewrite bigC_flipY; exact HC).
    reflexivity.
Qed.

Lemma noshear_opposite_exact_witness :
  computeTransformParams exImg (forwardAll (3, 0, 5, 0, - 3, 7) exImg)
    "noshear" "opposite"
  = Ok (3, 0, 5, 0, - 3, 7).
Proof.
  apply (noshear_opposite_exact 3 5 7 exImg).
  - simpl. lia.
  - rewrite exBigC. lra.
Defined.

(** ** compute.ts: residuals, least squares and the choice of ['auto'] *)

Lemma residual_convertFlipParam (p : AffineParams)
  (img map : list Position) :
  sumOfSquaredResiduals (convertFlipParam p) img map
  = sumOfSquaredResiduals p (flipY img) map.
Proof.
  rewrite !sumOfSquaredResiduals_forward.
  fold (forwardAll (convertFlipParam p) img).
  rewrite forwardAll_convertFlipParam. reflexivity.
Qed.

Lemma residual_nonneg (p : AffineParams) (img map : list Position) :
  0 <= sumOfSquaredResiduals p img map.
Proof.
  rewrite sumOfSquaredResiduals_forward. apply sq_diff_sum_nonneg.
Qed.

Lemma residual_zero_iff (p : AffineParams) (img map : list Position) :
  length img = length map ->
  (sumOfSquaredResiduals p img map = 0 <-> forwardAll p img = map).
Proof.
  intros Hl. rewrite sumOfSquaredResiduals_forward.
  fold (forwardAll p img). split.
  - intros H. symmetry. apply sq_diff_sum_zero; [| exact H].
    rewrite forwardAll_length. symmetry. exact Hl.
  - intros <-. apply sq_diff_sum_diag.
Qed.

(** X16. The score of [findBestCRS] is the estimator's own criterion: for
    as many map points as image points, and at least one,
    [computeRMSE] of the map points against the transformed image points
    is the square root of [sumOfSquaredResiduals] divided by the number
    of points. *)
Theorem computeRMSE_of_fit (p : AffineParams) (img map : list Position) :
  img <> [] -> length img = length map ->
  computeRMSE map (forwardAll p img)
  = Ok (sqrt (sumOfSquaredResiduals p img map / INR (length img))).
Proof.
  intros Hne Hl.
  assert (Hm : map <> []).
  { intros ->. apply Hne, length_zero_iff_nil. exact Hl. }
  rewrite computeRMSE_value
    by (try exact Hm; rewrite forwardAll_length; symmetry; exact Hl).
  rewrite sumOfSquaredResiduals_forward, Hl. reflexivity.
Qed.

Lemma computeRMSE_of_fit_witness :
  computeRMSE exMap (forwardAll (1, 0, 0, 0, - 1, 0) exImg)
  = Ok (sqrt (sumOfSquaredResiduals (1, 0, 0, 0, - 1, 0) exImg exMap
              / INR (length exImg))).
Proof.
  apply (computeRMSE_of_fit (1, 0, 0, 0, - 1, 0) exImg exMap).
  - discriminate.
  - reflexivity.
Defined.

Lemma pickSmaller_min (img map : list Position) (pS pO : AffineParams) :
  sumOfSquaredResiduals (pickSmaller img map pS pO) img map
  <= sumOfSquaredResiduals pS img map
  /\ sumOfSquaredResiduals (pickSmaller img map pS pO) img map
     <= sumOfSquaredResiduals pO img map.
Proof.
  unfold pickSmaller.
  destruct (Rle_dec (sumOfSquaredResiduals pS img map)
                    (sumOfSquaredResiduals pO img map)); lra.
Qed.

(** X17. ['auto'] loses nothing: in the modes ['similar'] and ['noshear'],
    when the fit of one of the two orientations sends every image point
    exactly onto its map point, so does the result of ['auto']. *)
Theorem auto_reproduces_exact_fit (img map : list Position) (mode : string)
  (pS pO : AffineParams) :
  mode = "similar"%string \/ mode = "noshear"%string ->
  computeTransformParams img map mode "same" = Ok pS ->
  computeTransformParams img map mode "opposite" = Ok pO ->
  forwardAll pS img = map \/ forwardAll pO img = map ->
  exists r, computeTransformParams img map mode "auto" = Ok r
            /\ forwardAll r img = map.
Proof.
  intros Hmode HS HO Hexact.
  destruct (computeTransformParams_guards _ _ _ _ _ HS) as [Hn Hl].
  rewrite (transform_modes img map mode "auto" Hmode), HS, HO. simpl.
  exists (pickSmaller img map pS pO). split; [reflexivity |].
  apply residual_zero_iff; [symmetry; exact Hl |].
  destruct (pickSmaller_min img map pS pO) as [H1 H2].
  pose proof (residual_nonneg (pickSmaller img map pS pO) img map) as H0.
  destruct Hexact as [He | He];
    apply residual_zero_iff in He; try (symmetry; exact Hl); lra.
Qed.

Lemma exForward_opposite : forwardAll (1, 0, 0, 0, - 1, 0) exImg = exMap.
Proof.
  unfold forwardAll, exImg, exMap, forwardAffine. simpl.
  repeat (f_equal; try ring).
Qed.

Lemma auto_reproduces_exact_fit_witness :
  exists r, computeTransformParams exImg exMap "noshear" "auto" = Ok r
            /\ forwardAll r exImg = exMap.
Proof.
  apply (auto_reproduces_exact_fit exImg exMap "noshear"
           (0, 0, 1 / 2, 0, 0, - (1 / 2)) (1, 0, 0, 0, - 1, 0)).
  - right. reflexivity.
  - exact exNoShear_same.
  - exact exNoShear_opposite.
  - right. exact exForward_opposite.
Defined.

Lemma combine_nonempty {T U : Type} (l1 : list T) (l2 : list U) :
  (1 <= length l1)%nat -> length l2 = length l1 -> combine l1 l2 <> [].
Proof.
  intros Hn Hl. destruct l1 as [| a t]; [simpl in Hn; lia |].
  destruct l2 as [| b t']; [discriminate | discriminate].
Qed.

(** X18. On image points that are not all one point ([bigC] not zero) the
    no-shear fit is a least-squares fit.  The result of ['same'] has the
    least [sumOfSquaredResiduals] among all [(a, 0, c, 0, a, f)]; the
    result of ['opposite'] the least among all [(a, 0, c, 0, -a, f)]; and
    the result of every other [yAxisMode] (the ['auto'] branch) is at least
    as good as both families. *)
Theorem noshear_least_squares (img map : list Position) (yAxisMode : string)
  (r : AffineParams) :
  bigC_of img <> 0 ->
  computeTransformParams img map "noshear" yAxisMode = Ok r ->
  forall a c f : R,
    (yAxisMode <> "opposite"%string ->
     sumOfSquaredResiduals r img map
     <= sumOfSquaredResiduals (a, 0, c, 0, a, f) img map)
    /\ (yAxisMode <> "same"%string ->
        sumOfSquaredResiduals r img map
        <= sumOfSquaredResiduals (a, 0, c, 0, - a, f) img map).
Proof.
  intros _ H a c f.
  destruct (computeTransformParams_guards _ _ _ _ _ H) as [Hn Hl].
  rewrite computeTransformParams_noshear in H by assumption.
  unfold computeNoShearAsAffine in H.
  destruct (computeNoShearCore img map) as [pA |] eqn:HA; simpl in H;
    [| discriminate].
  destruct (computeNoShearCore (flipY img) map) as [pF |] eqn:HF;
    simpl in H; [| discriminate].
  assert (Hrows : combine img map <> []).
  { apply combine_nonempty; [lia | exact Hl]. }
  assert (Hrows' : combine (flipY img) map <> []).
  { apply combine_nonempty; rewrite flipY_length; [lia | exact Hl]. }
  assert (LA : sumOfSquaredResiduals pA img map
               <= sumOfSquaredResiduals (a, 0, c, 0, a, f) img map).
  { destruct pA as [[[[[a1 b1] c1] d1] e1] f1].
    apply (computeNoShearCore_least_squares img map _ _ _ _ _ _ Hrows HA). }
  assert (LF : sumOfSquaredResiduals (convertFlipParam pF) img map
               <= sumOfSquaredResiduals (a, 0, c, 0, - a, f) img map).
  { rewrite residual_convertFlipParam.
    replace (a, 0, c, 0, - a, f)
      with (convertFlipParam (a, 0, c, 0, a, f))
      by (unfold convertFlipParam; repeat (f_equal; try ring)).
    rewrite residual_convertFlipParam.
    destruct pF as [[[[[a1 b1] c1] d1] e1] f1].
    apply (computeNoShearCore_least_squares (flipY img) map _ _ _ _ _ _
             Hrows' HF). }
  destruct (String.eqb_spec yAxisMode "same") as [-> | Hs].
  - injection H as <-. split; [intros _; exact LA | contradiction].
  - destruct (String.eqb_spec yAxisMode "opposite") as [-> | Ho].
    + injection H as <-. split; [contradiction | intros _; exact LF].
    + injection H as <-.
      destruct (Rle_dec (sumOfSquaredResiduals pA img map)
                        (sumOfSquaredResiduals (convertFlipParam pF)
                                               img map)) as [Hle | Hgt];
        split; intros _; lra.
Qed.

Lemma noshear_least_squares_witness :
  ("auto"%string <> "opposite"%string ->
   sumOfSquaredResiduals (1, 0, 0, 0, - 1, 0) exImg exMap
   <= sumOfSquaredResiduals (2, 0, 3, 0, 2, 4) exImg exMap)
  /\ ("auto"%string <> "same"%string ->
      sumOfSquaredResiduals (1, 0, 0, 0, - 1, 0) exImg exMap
      <= sumOfSquaredResiduals (2, 0, 3, 0, - 2, 4) exImg exMap).
Proof.
  apply (noshear_least_squares exImg exMap "auto" (1, 0, 0, 0, - 1, 0)).
  - rewrite exBigC. lra.
  - exact exNoShear_auto.
Defined.

(** ** compute.ts and shear.ts together *)

(** X19. [shear2Rotation] reads the scale and the rotation of a similarity
    fit back from its matrix: on the result of the ['similar'], ['same']
    fit, whose scale [s] is at least [1e-15], it returns [s] and
    [atan2 (bigB, bigA)]. *)
Theorem shear2Rotation_of_similar_fit (img map : list Position)
  (A B C D E F : R) :
  computeTransformParams img map "similar" "same" = Ok (A, B, C, D, E, F) ->
  eps <= scale_of img map ->
  Shear.shear2Rotation A B D E
  = {| Shear.s := scale_of img map; Shear.theta := theta_of img map |}.
Proof.
  intros H Hs. pose proof eps_pos as He.
  apply similar_same_returns in H. destruct H as (_ & _ & _ & Hr).
  unfold similarity_params in Hr.
  destruct (centroid img) as [cx cy]. destruct (centroid map) as [cX cY].
  injection Hr as -> -> -> -> -> ->.
  unfold Shear.shear2Rotation.
  rewrite sqrt_polar by lra.
  destruct (Rlt_dec (scale_of img map) eps) as [Hlt | _]; [lra |].
  rewrite atan2_polar; [reflexivity | lra |].
  unfold theta_of. apply atan2_range.
Qed.

Lemma exSim_sums :
  bigA_of exSimImg exSimMap = 1 /\ bigB_of exSimImg exSimMap = 0.
Proof.
  unfold bigA_of, bigB_of, centered, centroid, shift, exSimImg, exSimMap,
    sumf.
  simpl. split; field.
Qed.

Lemma exSim_scale : scale_of exSimImg exSimMap = 2.
Proof.
  unfold scale_of. destruct exSim_sums as [-> ->]. rewrite exSim_bigC.
  replace (1 * 1 + 0 * 0) with 1 by ring. rewrite sqrt_1. field.
Qed.

Lemma shear2Rotation_of_similar_fit_witness :
  exists A B C D E F,
    similarity_params exSimImg exSimMap = (A, B, C, D, E, F)
    /\ Shear.shear2Rotation A B D E
       = {| Shear.s := scale_of exSimImg exSimMap;
            Shear.theta := theta_of exSimImg exSimMap |}.
Proof.
  destruct (similarity_params exSimImg exSimMap)
    as [[[[[A B] C] D] E] F] eqn:Hp.
  exists A, B, C, D, E, F. split; [reflexivity |].
  pose proof exSim_same as Hs. rewrite Hp in Hs.
  apply (shear2Rotation_of_similar_fit exSimImg exSimMap A B C D E F Hs).
  rewrite exSim_scale. unfold eps. lra.
Defined.

(** ** compute.ts: when the similarity fit returns *)

(** X20. In mode ['similar'], whatever the [yAxisMode], the fit returns
    exactly when there are at least two image points, as many map points,
    and [bigC] is not below [1e-15]; behind the guards a smaller [bigC]
    (image points that are all but one point) ends in the error of
    [computeSimilarCore]. *)
Theorem similar_returns_iff (img map : list Position) (yAxisMode : string) :
  ((exists r, computeTransformParams img map "similar" yAxisMode = Ok r)
   <-> (2 <= length img)%nat /\ length map = length img
       /\ eps <= bigC_of img)
  /\ ((2 <= length img)%nat -> length map = length img ->
      bigC_of img < eps ->
      computeTransformParams img map "similar" yAxisMode
      = Err DegenerateGeometryError).
Proof.
  assert (Hcore : (2 <= length img)%nat -> length map = length img ->
            computeTransformParams img map "similar" yAxisMode
            = if Rlt_dec (Rabs (bigC_of img)) eps
              then Err DegenerateGeometryError
              else Ok (if (yAxisMode =? "same")%string
                       then similarity_params img map
                       else if (yAxisMode =? "opposite")%string
                            then convertFlipParam
                                   (similarity_params (flipY img) map)
                            else pickSmaller img map
                                   (similarity_params img map)
                                   (convertFlipParam
                                      (similarity_params (flipY img) map)))).
  { intros Hn Hl.
    rewrite computeTransformParams_similar by assumption.
    unfold computeSimilarAsAffine.
    rewrite !computeSimilarCore_spec
      by (try rewrite flipY_length; symmetry; exact Hl).
    rewrite bigC_flipY.
    destruct (Rlt_dec (Rabs (bigC_of img)) eps); [reflexivity |]. simpl.
    destruct (yAxisMode =? "same")%string; [reflexivity |].
    destruct (yAxisMode =? "opposite")%string; reflexivity. }
  split.
  - split.
    + intros [r Hr].
      destruct (computeTransformParams_guards _ _ _ _ _ Hr) as [Hn Hl].
      rewrite (Hcore Hn Hl) in Hr.
      destruct (Rlt_dec (Rabs (bigC_of img)) eps) as [Hlt | Hge];
        [discriminate |].
      apply bigC_guard in Hge. auto.
    + intros (Hn & Hl & HC). rewrite (Hcore Hn Hl).
      apply bigC_guard in HC.
      destruct (Rlt_dec (Rabs (bigC_of img)) eps) as [Hlt | _];
        [contradiction |].
      eexists. reflexivity.
  - intros Hn Hl HC. rewrite (Hcore Hn Hl).
    destruct (Rlt_dec (Rabs (bigC_of img)) eps) as [_ | Hge];
      [reflexivity |].
    apply bigC_guard in Hge. lra.
Qed.

Lemma similar_returns_iff_witness :
  computeTransformParams [(1, 2); (1, 2)] [(0, 0); (5, 5)] "similar" "auto"
  = Err DegenerateGeometryError.
Proof.
  apply (proj2 (similar_returns_iff [(1, 2); (1, 2)] [(0, 0); (5, 5)]
                  "auto")).
  - simpl. lia.
  - reflexivity.
  - replace (bigC_of [(1, 2); (1, 2)]) with 0.
    + apply eps_pos.
    + unfold bigC_of, centered, centroid, shift, sumf. simpl. field.
Defined.

(** ** compute.ts: the normal equations of the general affine fit *)

Lemma computeAffine6_normal (img map : list Position) :
  combine img map <> [] ->
  computeAffine6 img map =
  (N <- MathJS.inv (affineN (combine img map)) ;;
   let p := MathJS.multiply N (affineB (combine img map)) in
   Ok (MathJS.get p 0 0, MathJS.get p 1 0, MathJS.get p 2 0,
       MathJS.get p 3 0, MathJS.get p 4 0, MathJS.get p 5 0)).
Proof.
  intros Hne. unfold computeAffine6. cbv zeta.
  set (rows := combine img map) in *.
  set (h := fun '(x, y, (_, _)) => [[x; y; 1; 0; 0; 0]; [0; 0; 0; x; y; 1]]).
  set (k := fun '(_, _, (X, Y)) => [[X]; [Y]]).
  assert (HcM : MathJS.columns (flat_map h rows) = 6%nat).
  { destruct rows as [| [[x y] [X Y]] rs]; [contradiction | reflexivity]. }
  assert (HcV : MathJS.columns (flat_map k rows) = 1%nat).
  { destruct rows as [| [[x y] [X Y]] rs]; [contradiction | reflexivity]. }
  assert (Hone : sumf (fun _ : Position * Position => 1) rows
                 = INR (length rows)).
  { rewrite sumf_const. ring. }
  assert (Hzero : sumf (fun _ : Position * Position => 0) rows = 0).
  { rewrite sumf_const. ring. }
  assert (HN : MathJS.multiply (MathJS.transpose (flat_map h rows))
                               (flat_map h rows)
               = affineN rows).
  { rewrite normal_product, HcM. simpl seq. simpl List.map.
    rewrite combine_flat_map by reflexivity.
    rewrite !sumf_flat_map. unfold affineN, block6.
    split_rows;
      first [ sum_entry
            | etransitivity; [| exact Hone]; sum_entry
            | etransitivity; [| exact Hzero]; sum_entry ]. }
  assert (HB : MathJS.multiply (MathJS.transpose (flat_map h rows))
                               (flat_map k rows)
               = affineB rows).
  { rewrite normal_product, HcM, HcV. simpl seq. simpl List.map.
    rewrite combine_flat_map
      by (intros [[x y] [X Y]]; reflexivity).
    rewrite !sumf_flat_map. unfold affineB.
    split_rows; sum_entry. }
  rewrite HN, HB. reflexivity.
Qed.

Lemma det_block6 (a b c d e f : R) :
  MathJS.det (block6 a b c d e f) = det3s a b c d e f * det3s a b c d e f.
Proof.
  cbv [MathJS.det MathJS.det_n length seq sumf fold_left MathJS.signed
       Nat.even MathJS.get nth MathJS.minor MathJS.remove_nth List.map
       block6 det3s].
  ring.
Qed.

Lemma solve_block6 (a b c d e f A B C D E F : R) :
  det3s a b c d e f <> 0 ->
  exists N,
    MathJS.inv (block6 a b c d e f) = Ok N
    /\ MathJS.multiply N
         [[a * A + b * B + c * C]; [b * A + d * B + e * C];
          [c * A + e * B + f * C]; [a * D + b * E + c * F];
          [b * D + d * E + e * F]; [c * D + e * E + f * F]]
       = [[A]; [B]; [C]; [D]; [E]; [F]].
Proof.
  intros Hd. unfold MathJS.inv. rewrite det_block6.
  destruct (Req_dec_T (det3s a b c d e f * det3s a b c d e f) 0)
    as [H0 | Hn0].
  - exfalso. apply Rmult_integral in H0. tauto.
  - eexists. split; [reflexivity |].
    cbv [MathJS.adjugate MathJS.det_n length seq sumf fold_left
         MathJS.signed Nat.even MathJS.get nth MathJS.minor
         MathJS.remove_nth List.map MathJS.multiply MathJS.transpose
         MathJS.columns hd MathJS.dot combine Nat.add pred block6].
    unfold det3s in *.
    split_rows; field; exact Hd.
Qed.

Lemma affineN_img (img map : list Position) :
  length img = length map ->
  affineN (combine img map)
  = block6 (sumf (fun q => fst q * fst q) img)
           (sumf (fun q => fst q * snd q) img)
           (sumf fst img)
           (sumf (fun q => snd q * snd q) img)
           (sumf snd img)
           (INR (length img)).
Proof.
  intros Hl. unfold affineN.
  rewrite length_combine, <- Hl, Nat.min_id.
  rewrite <- (sumf_combine_l (fun q => fst q * fst q) img map Hl).
  rewrite <- (sumf_combine_l (fun q => fst q * snd q) img map Hl).
  rewrite <- (sumf_combine_l fst img map Hl).
  rewrite <- (sumf_combine_l (fun q => snd q * snd q) img map Hl).
  rewrite <- (sumf_combine_l snd img map Hl).
  f_equal; apply sumf_ext; intros [[x y] [X Y]] _; reflexivity.
Qed.

Lemma affineB_exact (p : AffineParams) (img : list Position) :
  let '(A, B, C, D, E, F) := p in
  let a := sumf (fun q => fst q * fst q) img in
  let b := sumf (fun q => fst q * snd q) img in
  let c := sumf fst img in
  let d := sumf (fun q => snd q * snd q) img in
  let e := sumf snd img in
  let f := INR (length img) in
  affineB (combine img (forwardAll p img))
  = [[a * A + b * B + c * C]; [b * A + d * B + e * C];
     [c * A + e * B + f * C]; [a * D + b * E + c * F];
     [b * D + d * E + e * F]; [c * D + e * E + f * F]].
Proof.
  destruct p as [[[[[A B] C] D] E] F]. cbv zeta. unfold affineB.
  induction img as [| [x y] t IH].
  - unfold forwardAll. simpl. rewrite !sumf_nil.
    split_rows; ring.
  - unfold forwardAll in *. simpl List.map. simpl combine.
    rewrite !sumf_cons, length_cons, S_INR.
    injection IH as -> -> -> -> -> ->. simpl.
    split_rows; ring.
Qed.

Lemma computeAffine6_exact (p : AffineParams) (img : list Position) :
  affine_det img <> 0 ->
  computeAffine6 img (forwardAll p img) = Ok p.
Proof.
  intros Hd.
  assert (Hne : img <> []).
  { intros ->. apply Hd. unfold affine_det, det3s. rewrite !sumf_nil.
    simpl. ring. }
  assert (Hl : length img = length (forwardAll p img)).
  { rewrite forwardAll_length. reflexivity. }
  assert (Hrows : combine img (forwardAll p img) <> []).
  { destruct img as [| q t]; [contradiction | discriminate]. }
  rewrite computeAffine6_normal by exact Hrows.
  rewrite affineN_img by exact Hl.
  pose proof (affineB_exact p img) as HB.
  destruct p as [[[[[A B] C] D] E] F]. cbv zeta in HB. rewrite HB.
  destruct (solve_block6 _ _ _ _ _ _ A B C D E F Hd) as (N & HN & Hsol).
  rewrite HN. simpl bind. rewrite Hsol. reflexivity.
Qed.

Lemma computeAffine6_returns (img map : list Position) :
  length img = length map -> img <> [] -> affine_det img <> 0 ->
  exists r, computeAffine6 img map = Ok r.
Proof.
  intros Hl Hne Hd.
  assert (Hrows : combine img map <> []).
  { destruct img as [| q t]; [contradiction |].
    destruct map as [| Q T]; [discriminate | discriminate]. }
  rewrite computeAffine6_normal by exact Hrows.
  rewrite affineN_img by exact Hl.
  unfold MathJS.inv. rewrite det_block6. fold (affine_det img).
  destruct (Req_dec_T _ 0) as [H0 | _].
  - exfalso. apply Rmult_integral in H0. tauto.
  - simpl. eexists. reflexivity.
Qed.

Lemma collinear_det (al be ga : R) (img : list Position) :
  al <> 0 \/ be <> 0 ->
  (forall q, In q img -> al * fst q + be * snd q = ga) ->
  affine_det img = 0.
Proof.
  intros Hnz Hline. unfold affine_det.
  set (a := sumf (fun q => fst q * fst q) img).
  set (b := sumf (fun q => fst q * snd q) img).
  set (c := sumf fst img).
  set (d := sumf (fun q => snd q * snd q) img).
  set (e := sumf snd img).
  set (f := INR (length img)).
  assert (E1 : al * a + be * b - ga * c = 0).
  { unfold a, b, c. rewrite <- !sumf_scal.
    unfold Rminus. rewrite <- sumf_opp, <- !sumf_plus.
    rewrite <- (Rmult_0_r (INR (length img))), <- sumf_const.
    apply sumf_ext. intros q Hq. specialize (Hline q Hq). nra. }
  assert (E2 : al * b + be * d - ga * e = 0).
  { unfold b, d, e. rewrite <- !sumf_scal.
    unfold Rminus. rewrite <- sumf_opp, <- !sumf_plus.
    rewrite <- (Rmult_0_r (INR (length img))), <- sumf_const.
    apply sumf_ext. intros q Hq. specialize (Hline q Hq). nra. }
  assert (E3 : al * c + be * e - ga * f = 0).
  { unfold c, e, f.
    replace (ga * INR (length img))
      with (sumf (fun _ : Position => ga) img)
      by (rewrite sumf_const; ring).
    rewrite <- !sumf_scal. unfold Rminus. rewrite <- sumf_opp, <- !sumf_plus.
    rewrite <- (Rmult_0_r (INR (length img))), <- sumf_const.
    apply sumf_ext. intros q Hq. specialize (Hline q Hq). lra. }
  assert (Ha : det3s a b c d e f * al = 0).
  { unfold det3s.
    replace ((a * (d * f - e * e) - b * (b * f - e * c)
              + c * (b * e - d * c)) * al)
      with ((d * f - e * e) * (al * a + be * b - ga * c)
            - (b * f - e * c) * (al * b + be * d - ga * e)
            + (b * e - d * c) * (al * c + be * e - ga * f)) by ring.
    rewrite E1, E2, E3. ring. }
  assert (Hb : det3s a b c d e f * be = 0).
  { unfold det3s.
    replace ((a * (d * f - e * e) - b * (b * f - e * c)
              + c * (b * e - d * c)) * be)
      with (- (b * f - c * e) * (al * a + be * b - ga * c)
            + (a * f - c * c) * (al * b + be * d - ga * e)
            - (a * e - b * c) * (al * c + be * e - ga * f)) by ring.
    rewrite E1, E2, E3. ring. }
  destruct Hnz as [H | H].
  - apply Rmult_integral in Ha. tauto.
  - apply Rmult_integral in Hb. tauto.
Qed.

Lemma solve_block6_sound (a b c d e f b1 b2 b3 b4 b5 b6 : R)
  (N : MathJS.Matrix) :
  MathJS.inv (block6 a b c d e f) = Ok N ->
  let p := MathJS.multiply N [[b1]; [b2]; [b3]; [b4]; [b5]; [b6]] in
  let A := MathJS.get p 0 0 in
  let B := MathJS.get p 1 0 in
  let C := MathJS.get p 2 0 in
  let D := MathJS.get p 3 0 in
  let E := MathJS.get p 4 0 in
  let F := MathJS.get p 5 0 in
  a * A + b * B + c * C = b1 /\ b * A + d * B + e * C = b2
  /\ c * A + e * B + f * C = b3 /\ a * D + b * E + c * F = b4
  /\ b * D + d * E + e * F = b5 /\ c * D + e * E + f * F = b6.
Proof.
  unfold MathJS.inv. rewrite det_block6.
  destruct (Req_dec_T (det3s a b c d e f * det3s a b c d e f) 0)
    as [H0 | Hd]; [discriminate |].
  intros H. injection H as <-.
  assert (Hd' : det3s a b c d e f <> 0).
  { intros H0. apply Hd. rewrite H0. ring. }
  cbv [MathJS.adjugate MathJS.det_n length seq sumf fold_left
       MathJS.signed Nat.even MathJS.get nth MathJS.minor
       MathJS.remove_nth List.map MathJS.multiply MathJS.transpose
       MathJS.columns hd MathJS.dot combine Nat.add pred block6].
  unfold det3s in *.
  repeat split; field; exact Hd'.
Qed.

Lemma affine_residual_expand (A B C D E F : R)
  (rows : list (Position * Position)) :
  sumf (fun '((x, y), (X, Y)) =>
          let Xp := A * x + B * y + C in
          let Yp := D * x + E * y + F in
          let dx := X - Xp in
          let dy := Y - Yp in
          dx * dx + dy * dy) rows
  = sumf (fun '((_, _), (X, Y)) => X * X + Y * Y) rows
    - 2 * (A * sumf (fun '((x, _), (X, _)) => x * X) rows
           + B * sumf (fun '((_, y), (X, _)) => y * X) rows
           + C * sumf (fun '((_, _), (X, _)) => X) rows
           + D * sumf (fun '((x, _), (_, Y)) => x * Y) rows
           + E * sumf (fun '((_, y), (_, Y)) => y * Y) rows
           + F * sumf (fun '((_, _), (_, Y)) => Y) rows)
    + ((A * A + D * D) * sumf (fun '((x, _), (_, _)) => x * x) rows
       + 2 * (A * B + D * E) * sumf (fun '((x, y), (_, _)) => x * y) rows
       + 2 * (A * C + D * F) * sumf (fun '((x, _), (_, _)) => x) rows
       + (B * B + E * E) * sumf (fun '((_, y), (_, _)) => y * y) rows
       + 2 * (B * C + E * F) * sumf (fun '((_, y), (_, _)) => y) rows
       + (C * C + F * F) * INR (length rows)).
Proof.
  induction rows as [| [[x y] [X Y]] t IH].
  - rewrite !sumf_nil. simpl. ring.
  - rewrite !sumf_cons, IH, length_cons, S_INR. cbv beta iota zeta. ring.
Qed.

Lemma affine_quadratic_nonneg (u v w : R)
  (rows : list (Position * Position)) :
  0 <= u * u * sumf (fun '((x, _), (_, _)) => x * x) rows
       + 2 * (u * v) * sumf (fun '((x, y), (_, _)) => x * y) rows
       + 2 * (u * w) * sumf (fun '((x, _), (_, _)) => x) rows
       + v * v * sumf (fun '((_, y), (_, _)) => y * y) rows
       + 2 * (v * w) * sumf (fun '((_, y), (_, _)) => y) rows
       + w * w * INR (length rows).
Proof.
  induction rows as [| [[x y] [X Y]] t IH].
  - rewrite !sumf_nil. simpl. lra.
  - rewrite !sumf_cons, length_cons, S_INR. cbv beta iota zeta.
    set (a := sumf (fun '((x0, _), (_, _)) => x0 * x0) t) in *.
    set (b := sumf (fun '((x0, y0), (_, _)) => x0 * y0) t) in *.
    set (c := sumf (fun '((x0, _), (_, _)) => x0) t) in *.
    set (d := sumf (fun '((_, y0), (_, _)) => y0 * y0) t) in *.
    set (e := sumf (fun '((_, y0), (_, _)) => y0) t) in *.
    set (n := INR (length t)) in *.
    replace (u * u * (x * x + a) + 2 * (u * v) * (x * y + b)
             + 2 * (u * w) * (x + c) + v * v * (y * y + d)
             + 2 * (v * w) * (y + e) + w * w * (n + 1))
      with ((u * u * a + 2 * (u * v) * b + 2 * (u * w) * c + v * v * d
             + 2 * (v * w) * e + w * w * n)
            + (u * x + v * y + w) * (u * x + v * y + w)) by ring.
    apply Rplus_le_le_0_compat; [exact IH | apply Rle_0_sqr].
Qed.

Lemma computeAffine6_least_squares (img map : list Position)
  (r q : AffineParams) :
  combine img map <> [] ->
  computeAffine6 img map = Ok r ->
  sumOfSquaredResiduals r img map <= sumOfSquaredResiduals q img map.
Proof.
  intros Hrows H.
  rewrite computeAffine6_normal in H by exact Hrows.
  destruct (MathJS.inv (affineN (combine img map))) as [N |] eqn:HN;
    unfold bind in H; [| discriminate].
  cbv zeta in H. injection H as <-.
  unfold affineN in HN.
  pose proof (solve_block6_sound _ _ _ _ _ _
                (sumf (fun '((x, _), (X, _)) => x * X) (combine img map))
                (sumf (fun '((_, y), (X, _)) => y * X) (combine img map))
                (sumf (fun '((_, _), (X, _)) => X) (combine img map))
                (sumf (fun '((x, _), (_, Y)) => x * Y) (combine img map))
                (sumf (fun '((_, y), (_, Y)) => y * Y) (combine img map))
                (sumf (fun '((_, _), (_, Y)) => Y) (combine img map))
                N HN) as Hsol.
  fold (affineB (combine img map)) in Hsol. cbv zeta in Hsol.
  destruct q as [[[[[A' B'] C'] D'] E'] F'].
  set (A := MathJS.get (MathJS.multiply N (affineB (combine img map))) 0 0)
    in *.
  set (B := MathJS.get (MathJS.multiply N (affineB (combine img map))) 1 0)
    in *.
  set (C := MathJS.get (MathJS.multiply N (affineB (combine img map))) 2 0)
    in *.
  set (D := MathJS.get (MathJS.multiply N (affineB (combine img map))) 3 0)
    in *.
  set (E := MathJS.get (MathJS.multiply N (affineB (combine img map))) 4 0)
    in *.
  set (F := MathJS.get (MathJS.multiply N (affineB (combine img map))) 5 0)
    in *.
  destruct Hsol as (E1 & E2 & E3 & E4 & E5 & E6).
  unfold sumOfSquaredResiduals.
  rewrite (affine_residual_expand A B C D E F),
    (affine_residual_expand A' B' C' D' E' F').
  pose proof (affine_quadratic_nonneg (A' - A) (B' - B) (C' - C)
                (combine img map)) as Hq1.
  pose proof (affine_quadratic_nonneg (D' - D) (E' - E) (F' - F)
                (combine img map)) as Hq2.
  rewrite <- E1, <- E2, <- E3, <- E4, <- E5, <- E6.
  clearbody A B C D E F. nra.
Qed.

(** ** compute.ts: the general affine fit *)

Lemma computeTransformParams_affine (img map : list Position)
  (yAxisMode : string) :
  (2 <= length img)%nat -> length map = length img ->
  computeTransformParams img map "affine" yAxisMode
  = computeAffine6 img map.
Proof.
  intros Hn Hl. unfold computeTransformParams.
  destruct (Nat.ltb_spec (length img) 2) as [Hlt | Hge]; [lia |].
  rewrite Hl, Nat.eqb_refl. reflexivity.
Qed.

(** X21. Exact data are fitted exactly: for map points that are the images
    of at least two image points under any [AffineParams], the ['affine']
    fit returns those very parameters, provided the determinant of its
    normal equations is not zero. *)
Theorem affine_exact (p : AffineParams) (img : list Position)
  (yAxisMode : string) :
  (2 <= length img)%nat -> affine_det img <> 0 ->
  computeTransformParams img (forwardAll p img) "affine" yAxisMode = Ok p.
Proof.
  intros Hn Hd.
  rewrite computeTransformParams_affine
    by (try exact Hn; apply forwardAll_length).
  apply computeAffine6_exact. exact Hd.
Qed.

Lemma exTriangle_det : affine_det exTriangle = 1.
Proof.
  unfold affine_det, det3s, exTriangle, sumf. simpl. ring.
Qed.

Lemma affine_exact_witness :
  computeTransformParams exTriangle
    (forwardAll (1, 2, 3, 4, 5, 6) exTriangle) "affine" "auto"
  = Ok (1, 2, 3, 4, 5, 6).
Proof.
  apply (affine_exact (1, 2, 3, 4, 5, 6) exTriangle "auto").
  - simpl. lia.
  - rewrite exTriangle_det. lra.
Defined.

(** X22. In mode ['affine'], whatever the [yAxisMode]: a fit that returns
    was given at least two image points and as many map points; and given
    these, the fit returns as soon as the determinant of its normal
    equations is not zero.  Image points that all lie on one line, any two
    points among them, make that determinant zero: of these the theorem
    says nothing, the outcome there is that of the matrix inversion on a
    singular matrix. *)
Theorem affine_returns (img map : list Position) (yAxisMode : string) :
  ((exists r, computeTransformParams img map "affine" yAxisMode = Ok r)
   -> (2 <= length img)%nat /\ length map = length img)
  /\ ((2 <= length img)%nat -> length map = length img ->
      affine_det img <> 0 ->
      exists r, computeTransformParams img map "affine" yAxisMode = Ok r)
  /\ (forall al be ga : R,
        al <> 0 \/ be <> 0 ->
        (forall q, In q img -> al * fst q + be * snd q = ga) ->
        affine_det img = 0).
Proof.
  split; [| split].
  - intros [r Hr]. exact (computeTransformParams_guards _ _ _ _ _ Hr).
  - intros Hn Hl Hd.
    rewrite computeTransformParams_affine by assumption.
    apply computeAffine6_returns; [symmetry; exact Hl | | exact Hd].
    intros ->. simpl in Hn. lia.
  - intros al be ga. apply collinear_det.
Qed.

Lemma affine_returns_witness :
  exists r,
    computeTransformParams exTriangle [(0, 0); (1, 5); (7, 2)]
      "affine" "auto" = Ok r.
Proof.
  apply (proj1 (proj2 (affine_returns exTriangle [(0, 0); (1, 5); (7, 2)]
                         "auto"))).
  - simpl. lia.
  - reflexivity.
  - rewrite exTriangle_det. lra.
Defined.

(** X23. On image points whose normal equations have a determinant that
    is not zero, the ['affine'] fit is a least-squares fit: no
    [AffineParams] has a smaller [sumOfSquaredResiduals] on the given
    points than the parameters it returns. *)
Theorem affine_least_squares (img map : list Position) (yAxisMode : string)
  (r : AffineParams) :
  affine_det img <> 0 ->
  computeTransformParams img map "affine" yAxisMode = Ok r ->
  forall q : AffineParams,
    sumOfSquaredResiduals r img map <= sumOfSquaredResiduals q img map.
Proof.
  intros _ H q.
  destruct (computeTransformParams_guards _ _ _ _ _ H) as [Hn Hl].
  rewrite computeTransformParams_affine in H by assumption.
  apply computeAffine6_least_squares; [| exact H].
  apply combine_nonempty; [lia | exact Hl].
Qed.

Lemma affine_least_squares_witness :
  sumOfSquaredResiduals (1, 2, 3, 4, 5, 6) exTriangle
    (forwardAll (1, 2, 3, 4, 5, 6) exTriangle)
  <= sumOfSquaredResiduals (0, 0, 0, 0, 0, 0) exTriangle
       (forwardAll (1, 2, 3, 4, 5, 6) exTriangle).
Proof.
  apply (affine_least_squares exTriangle
           (forwardAll (1, 2, 3, 4, 5, 6) exTriangle) "auto").
  - rewrite exTriangle_det. lra.
  - rewrite computeTransformParams_affine
      by (try (simpl; lia); apply forwardAll_length).
    apply computeAffine6_exact. rewrite exTriangle_det. lra.
Defined.

(** ** compute copy.ts *)

(** X24. The earlier entry point [computeAffineParams] against the
    ['affine'] mode of [computeTransformParams], whatever the [yAxisMode]:
    the earlier one refuses fewer than three points; from three points on
    the two are one and the same computation, errors included; so whatever
    the earlier one returns, the newer one returns too.  With exactly two
    points the earlier one refuses and the newer one goes on to the fit. *)
Theorem computeAffineParams_agrees (img map : list Position)
  (yAxisMode : string) :
  ((length img < 3)%nat ->
   ComputeCopy.computeAffineParams img map = Err InsufficientPointsError)
  /\ ((3 <= length img)%nat ->
      ComputeCopy.computeAffineParams img map
      = computeTransformParams img map "affine" yAxisMode)
  /\ (forall r,
        ComputeCopy.computeAffineParams img map = Ok r
        -> computeTransformParams img map "affine" yAxisMode = Ok r)
  /\ (length img = 2%nat -> length map = 2%nat ->
      ComputeCopy.computeAffineParams img map = Err InsufficientPointsError
      /\ computeTransformParams img map "affine" yAxisMode
         = computeAffine6 img map).
Proof.
  assert (H3 : (3 <= length img)%nat ->
               ComputeCopy.computeAffineParams img map
               = computeTransformParams img map "affine" yAxisMode).
  { intros Hn.
    unfold ComputeCopy.computeAffineParams, computeTransformParams.
    destruct (Nat.ltb_spec (length img) 3) as [Hlt | _]; [lia |].
    destruct (Nat.ltb_spec (length img) 2) as [Hlt | _]; [lia |].
    destruct (negb (length map =? length img)%nat); reflexivity. }
  assert (H2 : (length img < 3)%nat ->
               ComputeCopy.computeAffineParams img map
               = Err InsufficientPointsError).
  { intros Hn. unfold ComputeCopy.computeAffineParams.
    destruct (Nat.ltb_spec (length img) 3) as [_ | Hge];
      [reflexivity | lia]. }
  split; [exact H2 |]. split; [exact H3 |]. split.
  - intros r Hr.
    destruct (Nat.lt_ge_cases (length img) 3) as [Hlt | Hge].
    + rewrite (H2 Hlt) in Hr. discriminate.
    + rewrite <- (H3 Hge). exact Hr.
  - intros Hn Hl. split.
    + apply H2. lia.
    + apply computeTransformParams_affine; lia.
Qed.

(** ** find_best.ts: what a successful call needs, and how it fails *)

Section FindBestMore.

Variable Engine : Type.
Variable isDefined : Engine -> string -> bool.
Variable define : Engine -> string -> string -> Engine.
Variable project : Engine -> string -> Position -> Result Position.
Variable proj4List : string -> option (string * string).
Variables (lnglat image : list Position) (mode yAxisMode : string).

Let score := FindBest.scoreCRS Engine isDefined define project proj4List
               lnglat image mode yAxisMode.
Let loop := FindBest.scoreLoop Engine isDefined define project proj4List
              lnglat image mode yAxisMode.
Let best := fun crses e =>
  FindBest.findBestCRS Engine isDefined define project proj4List
    lnglat image crses mode yAxisMode e.

Lemma scoreLoop_app (l1 l2 : list string) :
  forall (e : Engine) (o : JSObject.t R),
    loop e (l1 ++ l2) o
    = ('(e1, o1) <- loop e l1 o ;; loop e1 l2 o1).
Proof.
  induction l1 as [| c rest IH]; intros e o; unfold loop; simpl.
  - reflexivity.
  - fold score. destruct (score e c) as [[e1 r] |]; simpl; [| reflexivity].
    apply IH.
Qed.

Lemma scoreLoop_all_scored (crses : list string) :
  forall (e e' : Engine) (o o' : JSObject.t R),
    loop e crses o = Ok (e', o') ->
    forall k, In k crses -> exists e1 e2 v, score e1 k = Ok (e2, v).
Proof.
  induction crses as [| c rest IH]; intros e e' o o' H k Hk;
    unfold loop in H; simpl in H.
  - contradiction.
  - fold score in H.
    destruct (score e c) as [[e1 r] |] eqn:Hs; simpl in H; [| discriminate].
    destruct Hk as [<- | Hk].
    + exists e, e1, r. exact Hs.
    + apply (IH _ _ _ _ H k Hk).
Qed.

Lemma score_needs_two_points (e e' : Engine) (k : string) (v : R) :
  score e k = Ok (e', v) -> (2 <= length image)%nat.
Proof.
  unfold score, FindBest.scoreCRS.
  destruct (FindBest.ensureDefined _ _ _ _ e k) as [e1 |]; simpl;
    [| discriminate].
  destruct (mapM (project e1 k) lnglat) as [mapPoints |]; simpl;
    [| discriminate].
  destruct (computeTransformParams image mapPoints mode yAxisMode)
    as [p |] eqn:Hp; simpl; [| discriminate].
  intros _. apply (computeTransformParams_guards _ _ _ _ _ Hp).
Qed.

Lemma findBestCRS_inv (crses : list string) (e : Engine) (c : string) :
  best crses e = Ok c ->
  length lnglat = length image
  /\ exists e' rmse,
       loop e crses [] = Ok (e', rmse)
       /\ FindBest.reduce (FindBest.pick rmse) (JSObject.keys rmse) = Ok c.
Proof.
  unfold best, FindBest.findBestCRS.
  destruct (Nat.eqb_spec (length lnglat) (length image)) as [Hl | Hl];
    simpl; [| discriminate].
  fold loop. destruct (loop e crses []) as [[e' rmse] |]; simpl;
    [| discriminate].
  intros H. split; [exact Hl |]. exists e', rmse.
  split; [reflexivity | exact H].
Qed.

Lemma reduce_in {T : Type} (f : T -> T -> T) (l : list T) (c : T) :
  (forall a b, f a b = a \/ f a b = b) ->
  FindBest.reduce f l = Ok c -> In c l.
Proof.
  intros Hf. destruct l as [| h t]; simpl; [discriminate |].
  intros H. injection H as <-.
  revert h. induction t as [| b t' IH]; intros h; simpl.
  - left. reflexivity.
  - destruct (IH (f h b)) as [H | H].
    + destruct (Hf h b) as [E | E].
      * left. congruence.
      * right. left. congruence.
    + right. right. exact H.
Qed.

Lemma pick_either (rmse : JSObject.t R) (a b : string) :
  FindBest.pick rmse a b = a \/ FindBest.pick rmse a b = b.
Proof.
  unfold FindBest.pick.
  destruct (JSObject.get a rmse); [| right; reflexivity].
  destruct (JSObject.get b rmse); [| right; reflexivity].
  destruct (Rlt_dec r r0); auto.
Qed.

(** X25. What a successful [findBestCRS] implies: the two point sequences
    have the same length, there are at least two points, the returned
    identifier is one of the candidates, and the loop body succeeded for
    every candidate: none was skipped. *)
Theorem findBestCRS_requirements (crses : list string) (e : Engine)
  (c : string) :
  best crses e = Ok c ->
  length lnglat = length image
  /\ (2 <= length image)%nat
  /\ In c crses
  /\ forall k, In k crses -> exists e1 e2 v, score e1 k = Ok (e2, v).
Proof.
  intros H. destruct (findBestCRS_inv crses e c H)
    as (Hl & e' & rmse & Hloop & Hred).
  assert (Hc : In c crses).
  { apply reduce_in in Hred; [| apply pick_either].
    apply keys_in in Hred.
    apply (scoreLoop_names _ _ _ _ _ _ _ _ _ _ _ _ _ _ Hloop) in Hred.
    destruct Hred as [[] | Hred]. exact Hred. }
  pose proof (scoreLoop_all_scored crses e e' [] rmse Hloop) as Hall.
  split; [exact Hl |]. split; [| split; [exact Hc | exact Hall]].
  destruct (Hall c Hc) as (e1 & e2 & v & Hs).
  apply (score_needs_two_points e1 e2 c v Hs).
Qed.

(** X26. [findBestCRS] stops at the first candidate whose loop body fails,
    with the error of that candidate: the candidates before it have been
    scored, the ones after it are never looked at, and no identifier is
    returned. *)
Theorem findBestCRS_first_failure (pre post : list string) (k : string)
  (e e1 : Engine) (o1 : JSObject.t R) (err : error) :
  length lnglat = length image ->
  loop e pre [] = Ok (e1, o1) ->
  score e1 k = Err err ->
  best (pre ++ k :: post) e = Err err.
Proof.
  intros Hl Hpre Hk. unfold best, FindBest.findBestCRS.
  rewrite Hl, Nat.eqb_refl. simpl negb. cbv iota.
  fold loop. rewrite scoreLoop_app, Hpre. simpl bind.
  unfold loop. simpl. fold score. rewrite Hk. reflexivity.
Qed.

(** X27. The order of the candidates does not matter when one of them is
    strictly best: if every candidate [k] is scored with one and the same
    RMSE [v k] whatever the state of the engine, and the candidate [c] has
    an RMSE strictly below that of every other candidate, [findBestCRS]
    returns [c]. *)
Theorem findBestCRS_strict_minimum (crses : list string) (e : Engine)
  (v : string -> R) (c : string) :
  length lnglat = length image ->
  (forall k e0, In k crses -> exists e0', score e0 k = Ok (e0', v k)) ->
  In c crses ->
  (forall k, In k crses -> k <> c -> v c < v k) ->
  best crses e = Ok c.
Proof.
  intros Hl Hstable Hc Hmin.
  assert (Hloop : forall l e0 o, incl l crses ->
            exists e0' o', loop e0 l o = Ok (e0', o')).
  { induction l as [| k rest IH]; intros e0 o Hincl; unfold loop; simpl.
    - exists e0, o. reflexivity.
    - fold score.
      destruct (Hstable k e0 (Hincl k (or_introl eq_refl))) as [e0' ->].
      simpl. apply IH. intros x Hx. apply Hincl. right. exact Hx. }
  destruct (Hloop crses e [] (incl_refl crses)) as (e' & rmse & Hrun).
  pose proof (scoreLoop_names _ _ _ _ _ _ _ _ _ _ _ _ _ _ Hrun) as Hnames.
  pose proof (scoreLoop_values _ _ _ _ _ _ _ _ _ _ _ _ _ _ Hrun) as Hvalues.
  assert (Hval : forall k r, JSObject.get k rmse = Some r ->
                   In k crses /\ r = v k).
  { intros k r Hr. destruct (Hvalues k r Hr) as [Hold | [Hin Hex]].
    - discriminate.
    - split; [exact Hin |].
      destruct Hex as (e1 & e2 & Hs). fold score in Hs.
      destruct (Hstable k e1 Hin) as [e0' Hs'].
      rewrite Hs in Hs'. injection Hs' as _ ->. reflexivity. }
  unfold best, FindBest.findBestCRS.
  rewrite Hl, Nat.eqb_refl. simpl negb. cbv iota.
  fold loop. rewrite Hrun. simpl bind.
  destruct (JSObject.keys rmse) as [| a ks] eqn:Hkeys.
  - exfalso.
    assert (Hin : In c (JSObject.keys rmse)).
    { apply keys_in, Hnames. right. exact Hc. }
    rewrite Hkeys in Hin. exact Hin.
  - simpl. f_equal.
    assert (Hall : forall k, In k (a :: ks) ->
                     exists r, JSObject.get k rmse = Some r).
    { intros k Hk. rewrite <- Hkeys in Hk.
      apply get_some_iff, keys_in. exact Hk. }
    destruct (fold_pick_last_min rmse ks a Hall)
      as (l1 & l2 & r & Hsplit & Hr & Hl1 & Hl2).
    set (c' := fold_left (FindBest.pick rmse) ks a) in *.
    destruct (Hval c' r Hr) as [Hc' ->].
    destruct (string_dec c' c) as [Heq | Hne]; [exact Heq |].
    exfalso.
    pose proof (Hmin c' Hc' Hne) as Hlt.
    assert (Hin : In c (l1 ++ c' :: l2)).
    { rewrite <- Hsplit, <- Hkeys. apply keys_in, Hnames. right. exact Hc. }
    apply in_app_iff in Hin. destruct Hin as [Hin | [Heq | Hin]].
    + destruct (Hl1 c Hin) as (r & Hget & Hle).
      destruct (Hval c r Hget) as [_ ->]. lra.
    + apply Hne. exact Heq.
    + destruct (Hl2 c Hin) as (r & Hget & Hle).
      destruct (Hval c r Hget) as [_ ->]. lra.
Qed.

End FindBestMore.

(** ** The second worked selection *)

Lemma ex2Core :
  computeNoShearCore exImg ex2Map = Ok (1 / 2, 0, 1 / 4, 0, 1 / 2, - (1 / 4)).
Proof. unfold exImg, ex2Map. solve_fit. Qed.

Lemma ex2Core_flip :
  computeNoShearCore (flipY exImg) ex2Map
  = Ok (1 / 2, 0, 1 / 4, 0, 1 / 2, 1 / 4).
Proof. unfold exImg, ex2Map. solve_fit. Qed.

Lemma ex2Residuals :
  sumOfSquaredResiduals (1 / 2, 0, 1 / 4, 0, 1 / 2, - (1 / 4)) exImg ex2Map
  = 1 / 4
  /\ sumOfSquaredResiduals
       (convertFlipParam (1 / 2, 0, 1 / 4, 0, 1 / 2, 1 / 4)) exImg ex2Map
     = 1 / 4.
Proof.
  unfold sumOfSquaredResiduals, convertFlipParam, exImg, ex2Map, sumf.
  simpl. split; field.
Qed.

Lemma ex2NoShear_same :
  computeTransformParams exImg ex2Map "noshear" "same"
  = Ok (1 / 2, 0, 1 / 4, 0, 1 / 2, - (1 / 4)).
Proof.
  rewrite computeTransformParams_noshear by (simpl; lia).
  unfold computeNoShearAsAffine. rewrite ex2Core, ex2Core_flip. reflexivity.
Qed.

Lemma ex2NoShear_opposite :
  computeTransformParams exImg ex2Map "noshear" "opposite"
  = Ok (convertFlipParam (1 / 2, 0, 1 / 4, 0, 1 / 2, 1 / 4)).
Proof.
  rewrite computeTransformParams_noshear by (simpl; lia).
  unfold computeNoShearAsAffine. rewrite ex2Core, ex2Core_flip. reflexivity.
Qed.

Lemma ex2NoShear_auto :
  computeTransformParams exImg ex2Map "noshear" "auto"
  = Ok (1 / 2, 0, 1 / 4, 0, 1 / 2, - (1 / 4)).
Proof.
  rewrite transform_modes by (right; reflexivity).
  rewrite ex2NoShear_same, ex2NoShear_opposite. unfold bind.
  replace ("auto" =? "same")%string with false by reflexivity.
  replace ("auto" =? "opposite")%string with false by reflexivity.
  unfold pickSmaller. destruct ex2Residuals as [-> ->].
  destruct (Rle_dec (1 / 4) (1 / 4)) as [_ | H]; [reflexivity | lra].
Qed.

Lemma ex2RMSE :
  computeRMSE ex2Map
    (List.map (forwardAffine (1 / 2, 0, 1 / 4, 0, 1 / 2, - (1 / 4))) exImg)
  = Ok (sqrt (1 / 4 / INR 2)).
Proof.
  rewrite computeRMSE_value by (try discriminate; reflexivity).
  rewrite <- sumOfSquaredResiduals_forward.
  destruct ex2Residuals as [-> _]. reflexivity.
Qed.

Lemma ex2Project_same (pts : list Position) :
  mapM (ex2Project tt "EPSG:2448") pts = Ok pts.
Proof.
  induction pts as [| p pts' IH]; simpl.
  - reflexivity.
  - rewrite IH. reflexivity.
Qed.

Lemma ex2Score_value (k : string) :
  k = "EPSG:2448"%string \/ k = "EPSG:3857"%string ->
  ex2Score tt k = Ok (tt, ex2Value k).
Proof.
  intros [-> | ->]; unfold ex2Score, FindBest.scoreCRS,
    FindBest.ensureDefined, ex2IsDefined, ex2Value;
    simpl negb; cbv iota; unfold bind at 1.
  - rewrite ex2Project_same. unfold bind at 1.
    rewrite exNoShear_auto. unfold bind at 1.
    rewrite exRMSE. reflexivity.
  - replace (mapM (ex2Project tt "EPSG:3857") exMap) with (Ok ex2Map)
      by reflexivity.
    unfold bind at 1. rewrite ex2NoShear_auto. unfold bind at 1.
    rewrite ex2RMSE. reflexivity.
Qed.

Lemma ex2Score_unknown : ex2Score tt "EPSG:9999" = Err TypeError.
Proof. reflexivity. Qed.

Lemma ex2Value_pos : 0 < sqrt (1 / 4 / INR 2).
Proof. apply sqrt_lt_R0. simpl. lra. Qed.

Lemma findBestCRS_requirements_witness :
  length exMap = length exImg
  /\ (2 <= length exImg)%nat
  /\ In "EPSG:900913"%string ["EPSG:3857"; "EPSG:900913"]%string
  /\ forall k, In k ["EPSG:3857"; "EPSG:900913"]%string ->
       exists e1 e2 v, exScoreCRS e1 k = Ok (e2, v).
Proof.
  apply (findBestCRS_requirements unit exIsDefined exDefine exProject
           exProj4List exMap exImg "noshear" "auto"
           ["EPSG:3857"; "EPSG:900913"]%string tt "EPSG:900913"%string).
  exact exFindBestCRS_aliases.
Defined.

Lemma findBestCRS_first_failure_witness :
  ex2FindBestCRS (["EPSG:2448"%string] ++ "EPSG:9999"%string
                    :: ["EPSG:3857"%string])
  = Err TypeError.
Proof.
  apply (findBestCRS_first_failure unit ex2IsDefined exDefine ex2Project
           exProj4List exMap exImg "noshear" "auto"
           ["EPSG:2448"%string] ["EPSG:3857"%string] "EPSG:9999"%string
           tt tt [("EPSG:2448"%string, 0)] TypeError).
  - reflexivity.
  - unfold FindBest.scoreLoop. fold ex2Score.
    rewrite ex2Score_value by (left; reflexivity). reflexivity.
  - exact ex2Score_unknown.
Defined.

Lemma findBestCRS_strict_minimum_witness :
  ex2FindBestCRS ["EPSG:3857"; "EPSG:2448"]%string = Ok "EPSG:2448"%string.
Proof.
  apply (findBestCRS_strict_minimum unit ex2IsDefined exDefine ex2Project
           exProj4List exMap exImg "noshear" "auto"
           ["EPSG:3857"; "EPSG:2448"]%string tt ex2Value
           "EPSG:2448"%string).
  - reflexivity.
  - intros k [] Hk. exists tt. apply ex2Score_value.
    destruct Hk as [<- | [<- | []]]; auto.
  - right. left. reflexivity.
  - intros k [<- | [<- | []]] Hne.
    + unfold ex2Value. simpl. apply ex2Value_pos.
    + contradiction.
Defined.

(** ** compute.ts: the similarity fit is a least-squares fit *)

(** The residual of a similarity, split at any two reference points
    [(cx, cy)] and [(cX, cY)]. *)
Lemma similar_residual_expand (a d c f cx cy cX cY : R)
  (rows : list (Position * Position)) :
  let u := cX - (a * cx - d * cy + c) in
  let v := cY - (d * cx + a * cy + f) in
  sumf (fun '((x, y), (X, Y)) =>
          let Xp := a * x + - d * y + c in
          let Yp := d * x + a * y + f in
          let dx := X - Xp in
          let dy := Y - Yp in
          dx * dx + dy * dy) rows
  = sumf (fun '((_, _), (X, Y)) =>
            (X - cX) * (X - cX) + (Y - cY) * (Y - cY)) rows
    - 2 * a * sumf (fun '((x, y), (X, Y)) =>
                      (x - cx) * (X - cX) + (y - cy) * (Y - cY)) rows
    - 2 * d * sumf (fun '((x, y), (X, Y)) =>
                      (x - cx) * (Y - cY) - (y - cy) * (X - cX)) rows
    + (a * a + d * d)
      * sumf (fun '((x, y), (_, _)) =>
                (x - cx) * (x - cx) + (y - cy) * (y - cy)) rows
    + 2 * u * (sumf (fun '((_, _), (X, _)) => X - cX) rows
               - a * sumf (fun '((x, _), (_, _)) => x - cx) rows
               + d * sumf (fun '((_, y), (_, _)) => y - cy) rows)
    + 2 * v * (sumf (fun '((_, _), (_, Y)) => Y - cY) rows
               - d * sumf (fun '((x, _), (_, _)) => x - cx) rows
               - a * sumf (fun '((_, y), (_, _)) => y - cy) rows)
    + INR (length rows) * (u * u + v * v).
Proof.
  cbv zeta.
  induction rows as [| [[x y] [X Y]] t IH].
  - rewrite !sumf_nil. simpl. ring.
  - rewrite !sumf_cons, IH, length_cons, S_INR. cbv beta iota zeta. ring.
Qed.

Lemma centered_sum_zero (img map : list Position) :
  length img = length map -> img <> [] ->
  sumf (fun '((x, _), (_, _)) => x - fst (centroid img)) (combine img map) = 0
  /\ sumf (fun '((_, y), (_, _)) => y - snd (centroid img)) (combine img map)
     = 0
  /\ sumf (fun '((_, _), (X, _)) => X - fst (centroid map)) (combine img map)
     = 0
  /\ sumf (fun '((_, _), (_, Y)) => Y - snd (centroid map)) (combine img map)
     = 0.
Proof.
  intros Hl Hne. pose proof (INR_length_pos img Hne) as Hn.
  assert (Hshift : forall (c : R) (g : Position -> R) (l : list Position),
            l <> [] -> c = sumf g l / INR (length l) ->
            sumf (fun q => g q - c) l = 0).
  { intros c g l Hl0 ->. pose proof (INR_length_pos l Hl0) as Hn0.
    unfold Rminus. rewrite sumf_plus.
    rewrite (sumf_const (- (sumf g l / INR (length l))) l). field. lra. }
  assert (Hm : map <> []).
  { intros ->. apply Hne, length_zero_iff_nil. exact Hl. }
  repeat split.
  - etransitivity;
      [| apply (Hshift (fst (centroid img)) fst img Hne eq_refl)].
    rewrite <- (sumf_combine_l (fun q : Position => fst q - fst (centroid img))
                  img map Hl).
    apply sumf_ext. intros [[x y] [X Y]] _. reflexivity.
  - etransitivity;
      [| apply (Hshift (snd (centroid img)) snd img Hne eq_refl)].
    rewrite <- (sumf_combine_l (fun q : Position => snd q - snd (centroid img))
                  img map Hl).
    apply sumf_ext. intros [[x y] [X Y]] _. reflexivity.
  - etransitivity;
      [| apply (Hshift (fst (centroid map)) fst map Hm eq_refl)].
    rewrite <- (sumf_combine_r (fun q : Position => fst q - fst (centroid map))
                  img map Hl).
    apply sumf_ext. intros [[x y] [X Y]] _. reflexivity.
  - etransitivity;
      [| apply (Hshift (snd (centroid map)) snd map Hm eq_refl)].
    rewrite <- (sumf_combine_r (fun q : Position => snd q - snd (centroid map))
                  img map Hl).
    apply sumf_ext. intros [[x y] [X Y]] _. reflexivity.
Qed.

Lemma procrustes_sums_rows (img map : list Position) :
  length img = length map ->
  bigA_of img map
  = sumf (fun '((x, y), (X, Y)) =>
            (x - fst (centroid img)) * (X - fst (centroid map))
            + (y - snd (centroid img)) * (Y - snd (centroid map)))
         (combine img map)
  /\ bigB_of img map
     = sumf (fun '((x, y), (X, Y)) =>
               (x - fst (centroid img)) * (Y - snd (centroid map))
               - (y - snd (centroid img)) * (X - fst (centroid map)))
            (combine img map)
  /\ bigC_of img
     = sumf (fun '((x, y), (_, _)) =>
               (x - fst (centroid img)) * (x - fst (centroid img))
               + (y - snd (centroid img)) * (y - snd (centroid img)))
            (combine img map).
Proof.
  intros Hl. unfold bigA_of, bigB_of, bigC_of, centered.
  rewrite <- (map_combine_shift (centroid img) (centroid map) img map).
  rewrite !sumf_map.
  split; [| split].
  - apply sumf_ext. intros [[x y] [X Y]] _. reflexivity.
  - apply sumf_ext. intros [[x y] [X Y]] _. reflexivity.
  - transitivity
      (sumf (fun q : Position =>
               (fst q - fst (centroid img)) * (fst q - fst (centroid img))
               + (snd q - snd (centroid img))
                 * (snd q - snd (centroid img))) img).
    + apply sumf_ext. intros [x y] _. reflexivity.
    + rewrite <- (sumf_combine_l
                    (fun q : Position =>
                       (fst q - fst (centroid img))
                       * (fst q - fst (centroid img))
                       + (snd q - snd (centroid img))
                         * (snd q - snd (centroid img))) img map Hl).
      apply sumf_ext. intros [[x y] [X Y]] _. reflexivity.
Qed.

(** The residual of any similarity, by the Procrustes sums. *)
Lemma similar_residual (a d c f : R) (img map : list Position) :
  length img = length map -> img <> [] ->
  let u := fst (centroid map)
           - (a * fst (centroid img) - d * snd (centroid img) + c) in
  let v := snd (centroid map)
           - (d * fst (centroid img) + a * snd (centroid img) + f) in
  sumOfSquaredResiduals (a, - d, c, d, a, f) img map
  = sumf (fun '((_, _), (X, Y)) =>
            (X - fst (centroid map)) * (X - fst (centroid map))
            + (Y - snd (centroid map)) * (Y - snd (centroid map)))
         (combine img map)
    - 2 * a * bigA_of img map - 2 * d * bigB_of img map
    + (a * a + d * d) * bigC_of img
    + INR (length img) * (u * u + v * v).
Proof.
  intros Hl Hne. cbv zeta. unfold sumOfSquaredResiduals.
  rewrite (similar_residual_expand a d c f
             (fst (centroid img)) (snd (centroid img))
             (fst (centroid map)) (snd (centroid map))).
  cbv zeta.
  destruct (centered_sum_zero img map Hl Hne) as (-> & -> & -> & ->).
  destruct (procrustes_sums_rows img map Hl) as (<- & <- & <-).
  rewrite length_combine, <- Hl, Nat.min_id. ring.
Qed.

Lemma computeSimilarCore_least_squares (a d c f : R)
  (img map : list Position) (r : AffineParams) :
  length img = length map -> img <> [] ->
  computeSimilarCore img map = Ok r ->
  sumOfSquaredResiduals r img map
  <= sumOfSquaredResiduals (a, - d, c, d, a, f) img map.
Proof.
  intros Hl Hne H. pose proof eps_pos as He.
  rewrite computeSimilarCore_spec in H by exact Hl.
  destruct (Rlt_dec (Rabs (bigC_of img)) eps) as [Hlt | Hge];
    [discriminate |].
  apply bigC_guard in Hge. injection H as <-.
  rewrite similarity_params_closed by exact Hge.
  pose proof (INR_length_pos img Hne) as Hn.
  set (bA := bigA_of img map) in *. set (bB := bigB_of img map) in *.
  set (bC := bigC_of img) in *.
  pose proof (similar_residual (bA / bC) (bB / bC)
                (fst (centroid map)
                 - (bA / bC * fst (centroid img)
                    - bB / bC * snd (centroid img)))
                (snd (centroid map)
                 - (bB / bC * fst (centroid img)
                    + bA / bC * snd (centroid img)))
                img map Hl Hne) as Hopt.
  pose proof (similar_residual a d c f img map Hl Hne) as Hq.
  cbv zeta in Hopt, Hq. fold bA bB bC in Hopt, Hq.
  rewrite Hopt, Hq. clear Hopt Hq.
  match goal with
  | |- context [sumf ?g (combine img map)] =>
      set (T := sumf g (combine img map))
  end.
  set (cx := fst (centroid img)). set (cy := snd (centroid img)).
  set (cX := fst (centroid map)). set (cY := snd (centroid map)).
  set (n := INR (length img)) in *.
  replace (cX - (bA / bC * cx - bB / bC * cy
                 + (cX - (bA / bC * cx - bB / bC * cy)))) with 0 by ring.
  replace (cY - (bB / bC * cx + bA / bC * cy
                 + (cY - (bB / bC * cx + bA / bC * cy)))) with 0 by ring.
  set (u := cX - (a * cx - d * cy + c)).
  set (v := cY - (d * cx + a * cy + f)).
  assert (Hpos : 0 <= bC * ((a - bA / bC) * (a - bA / bC)
                            + (d - bB / bC) * (d - bB / bC))
                      + n * (u * u + v * v)).
  { apply Rplus_le_le_0_compat; apply Rmult_le_pos; try lra;
      apply Rplus_le_le_0_compat; apply Rle_0_sqr. }
  match goal with
  | |- ?l <= ?r =>
      assert (Hgap : r - l
                     = bC * ((a - bA / bC) * (a - bA / bC)
                             + (d - bB / bC) * (d - bB / bC))
                       + n * (u * u + v * v)) by (field; lra)
  end.
  lra.
Qed.

(** X28. The similarity fit is a least-squares fit.  The result of
    ['same'] has the least [sumOfSquaredResiduals] among all similarity
    matrices [(a, -d, c, d, a, f)]; the result of ['opposite'] the least
    among all [(a, d, c, d, -a, f)]; and the result of every other
    [yAxisMode] (the ['auto'] branch) is at least as good as both
    families. *)
Theorem similar_least_squares (img map : list Position) (yAxisMode : string)
  (r : AffineParams) :
  computeTransformParams img map "similar" yAxisMode = Ok r ->
  forall a d c f : R,
    (yAxisMode <> "opposite"%string ->
     sumOfSquaredResiduals r img map
     <= sumOfSquaredResiduals (a, - d, c, d, a, f) img map)
    /\ (yAxisMode <> "same"%string ->
        sumOfSquaredResiduals r img map
        <= sumOfSquaredResiduals (a, d, c, d, - a, f) img map).
Proof.
  intros H a d c f.
  destruct (computeTransformParams_guards _ _ _ _ _ H) as [Hn Hl].
  rewrite computeTransformParams_similar in H by assumption.
  unfold computeSimilarAsAffine in H.
  destruct (computeSimilarCore img map) as [pA |] eqn:HA; simpl in H;
    [| discriminate].
  destruct (computeSimilarCore (flipY img) map) as [pF |] eqn:HF;
    simpl in H; [| discriminate].
  assert (Hne : img <> []).
  { intros ->. simpl in Hn. lia. }
  assert (Hne' : flipY img <> []).
  { intros H0. apply Hne, length_zero_iff_nil.
    rewrite <- flipY_length, H0. reflexivity. }
  assert (LA : sumOfSquaredResiduals pA img map
               <= sumOfSquaredResiduals (a, - d, c, d, a, f) img map).
  { apply computeSimilarCore_least_squares;
      [symmetry; exact Hl | exact Hne | exact HA]. }
  assert (LF : sumOfSquaredResiduals (convertFlipParam pF) img map
               <= sumOfSquaredResiduals (a, d, c, d, - a, f) img map).
  { rewrite residual_convertFlipParam.
    replace (a, d, c, d, - a, f)
      with (convertFlipParam (a, - d, c, d, a, f))
      by (unfold convertFlipParam; repeat (f_equal; try ring)).
    rewrite residual_convertFlipParam.
    apply computeSimilarCore_least_squares;
      [rewrite flipY_length; symmetry; exact Hl | exact Hne' | exact HF]. }
  destruct (String.eqb_spec yAxisMode "same") as [-> | Hs].
  - injection H as <-. split; [intros _; exact LA | contradiction].
  - destruct (String.eqb_spec yAxisMode "opposite") as [-> | Ho].
    + injection H as <-. split; [contradiction | intros _; exact LF].
    + injection H as <-.
      destruct (Rle_dec (sumOfSquaredResiduals pA img map)
                        (sumOfSquaredResiduals (convertFlipParam pF)
                                               img map)) as [Hle | Hgt];
        split; intros _; lra.
Qed.

Lemma similar_least_squares_witness :
  ("same"%string <> "opposite"%string ->
   sumOfSquaredResiduals (similarity_params exSimImg exSimMap)
     exSimImg exSimMap
   <= sumOfSquaredResiduals (1, - 2, 3, 2, 1, 4) exSimImg exSimMap)
  /\ ("same"%string <> "same"%string ->
      sumOfSquaredResiduals (similarity_params exSimImg exSimMap)
        exSimImg exSimMap
      <= sumOfSquaredResiduals (1, 2, 3, 2, - 1, 4) exSimImg exSimMap).
Proof.
  apply (similar_least_squares exSimImg exSimMap "same"
           (similarity_params exSimImg exSimMap) exSim_same 1 2 3 4).
Defined.

(** ** compute.ts: the Y-axis modes, from the core fits *)

Lemma similarAsAffine_inv (img map : list Position) (yAxisMode : string)
  (r : AffineParams) :
  computeSimilarAsAffine img map yAxisMode = Ok r <->
  exists pS pF,
    computeSimilarCore img map = Ok pS
    /\ computeSimilarCore (flipY img) map = Ok pF
    /\ r = (if (yAxisMode =? "same")%string then pS
            else if (yAxisMode =? "opposite")%string
                 then convertFlipParam pF
                 else pickSmaller img map pS (convertFlipParam pF)).
Proof.
  unfold computeSimilarAsAffine, pickSmaller. split.
  - destruct (computeSimilarCore img map) as [pS |]; simpl; [| discriminate].
    destruct (computeSimilarCore (flipY img) map) as [pF |]; simpl;
      [| discriminate].
    intros H. exists pS, pF. split; [reflexivity |]. split; [reflexivity |].
    destruct (yAxisMode =? "same")%string; [congruence |].
    destruct (yAxisMode =? "opposite")%string; congruence.
  - intros (pS & pF & -> & -> & ->). simpl.
    destruct (yAxisMode =? "same")%string; [reflexivity |].
    destruct (yAxisMode =? "opposite")%string; reflexivity.
Qed.

Lemma noShearAsAffine_inv (img map : list Position) (yAxisMode : string)
  (r : AffineParams) :
  computeNoShearAsAffine img map yAxisMode = Ok r <->
  exists pS pF,
    computeNoShearCore img map = Ok pS
    /\ computeNoShearCore (flipY img) map = Ok pF
    /\ r = (if (yAxisMode =? "same")%string then pS
            else if (yAxisMode =? "opposite")%string
                 then convertFlipParam pF
                 else pickSmaller img map pS (convertFlipParam pF)).
Proof.
  unfold computeNoShearAsAffine, pickSmaller. split.
  - destruct (computeNoShearCore img map) as [pS |]; simpl; [| discriminate].
    destruct (computeNoShearCore (flipY img) map) as [pF |]; simpl;
      [| discriminate].
    intros H. exists pS, pF. split; [reflexivity |]. split; [reflexivity |].
    destruct (yAxisMode =? "same")%string; [congruence |].
    destruct (yAxisMode =? "opposite")%string; congruence.
  - intros (pS & pF & -> & -> & ->). simpl.
    destruct (yAxisMode =? "same")%string; [reflexivity |].
    destruct (yAxisMode =? "opposite")%string; reflexivity.
Qed.

(** Both families behind the guards of [computeTransformParams]. *)
Lemma transform_inv (img map : list Position) (mode yAxisMode : string)
  (core : list Position -> list Position -> Result AffineParams)
  (r : AffineParams) :
  (mode = "similar"%string /\ core = computeSimilarCore)
  \/ (mode = "noshear"%string /\ core = computeNoShearCore) ->
  computeTransformParams img map mode yAxisMode = Ok r <->
  (2 <= length img)%nat /\ length map = length img
  /\ exists pS pF,
       core img map = Ok pS
       /\ core (flipY img) map = Ok pF
       /\ r = (if (yAxisMode =? "same")%string then pS
               else if (yAxisMode =? "opposite")%string
                    then convertFlipParam pF
                    else pickSmaller img map pS (convertFlipParam pF)).
Proof.
  intros Hmode. split.
  - intros H.
    destruct (computeTransformParams_guards _ _ _ _ _ H) as [Hn Hl].
    split; [exact Hn |]. split; [exact Hl |].
    destruct Hmode as [[-> ->] | [-> ->]].
    + rewrite computeTransformParams_similar in H by assumption.
      apply similarAsAffine_inv. exact H.
    + rewrite computeTransformParams_noshear in H by assumption.
      apply noShearAsAffine_inv. exact H.
  - intros (Hn & Hl & H).
    destruct Hmode as [[-> ->] | [-> ->]].
    + rewrite computeTransformParams_similar by assumption.
      apply similarAsAffine_inv. exact H.
    + rewrite computeTransformParams_noshear by assumption.
      apply noShearAsAffine_inv. exact H.
Qed.

Lemma similar_cores_return (img map : list Position) :
  length map = length img -> eps <= bigC_of img ->
  exists pS pF, computeSimilarCore img map = Ok pS
                /\ computeSimilarCore (flipY img) map = Ok pF.
Proof.
  intros Hl HC. apply bigC_guard in HC.
  exists (similarity_params img map), (similarity_params (flipY img) map).
  rewrite !computeSimilarCore_spec
    by (try rewrite flipY_length; symmetry; exact Hl).
  rewrite bigC_flipY.
  destruct (Rlt_dec (Rabs (bigC_of img)) eps) as [Hlt | _];
    [contradiction |].
  split; reflexivity.
Qed.

Lemma noshear_cores_return (img map : list Position) :
  (2 <= length img)%nat -> length map = length img -> bigC_of img <> 0 ->
  exists pS pF, computeNoShearCore img map = Ok pS
                /\ computeNoShearCore (flipY img) map = Ok pF.
Proof.
  intros Hn Hl HC.
  assert (Hne : img <> []).
  { intros ->. simpl in Hn. lia. }
  destruct (computeNoShearCore_returns img map (eq_sym Hl) Hne HC)
    as [pS HS].
  destruct (computeNoShearCore_returns (flipY img) map) as [pF HF].
  - rewrite flipY_length. symmetry. exact Hl.
  - intros H. apply Hne, length_zero_iff_nil.
    rewrite <- flipY_length, H. reflexivity.
  - rewrite bigC_flipY. exact HC.
  - exists pS, pF. split; assumption.
Qed.

Lemma transform_returns (img map : list Position) (mode yAxisMode : string) :
  mode = "similar"%string \/ mode = "noshear"%string ->
  (2 <= length img)%nat -> length map = length img ->
  (mode = "similar"%string -> eps <= bigC_of img) ->
  (mode = "noshear"%string -> bigC_of img <> 0) ->
  exists r, computeTransformParams img map mode yAxisMode = Ok r.
Proof.
  intros Hmode Hn Hl HS HN.
  destruct Hmode as [-> | ->].
  - destruct (similar_cores_return img map Hl (HS eq_refl))
      as (pS & pF & H1 & H2).
    eexists.
    apply (transform_inv img map "similar" yAxisMode computeSimilarCore).
    + left. split; reflexivity.
    + split; [exact Hn |]. split; [exact Hl |].
      exists pS, pF. split; [exact H1 |]. split; [exact H2 | reflexivity].
  - destruct (noshear_cores_return img map Hn Hl (HN eq_refl))
      as (pS & pF & H1 & H2).
    eexists.
    apply (transform_inv img map "noshear" yAxisMode computeNoShearCore).
    + right. split; reflexivity.
    + split; [exact Hn |]. split; [exact Hl |].
      exists pS, pF. split; [exact H1 |]. split; [exact H2 | reflexivity].
Qed.

(** C3. For the modes ['similar'] and ['noshear'], the ['auto'] call
    returns [r] exactly when there are at least two image points, as many
    map points, the core fit returns on the image points (the candidate
    [pS], which is what ['same'] returns) and on the image points with [y]
    negated (giving [(A, B, C, D, E, F)], whose conversion
    [(A, -B, C, D, -E, F)] is what ['opposite'] returns), and [r] is the
    candidate with the smaller [sumOfSquaredResiduals] against the original
    image points, the unflipped one on equal residuals.  That residual is
    the sum over the paired points of [(X - Xpred)² + (Y - Ypred)²].  The
    call returns whenever the lengths pass the guards and the geometry is
    not degenerate. *)
Theorem auto_picks_smaller_residual (img map : list Position) (mode : string)
  (core : list Position -> list Position -> Result AffineParams) :
  (mode = "similar"%string /\ core = computeSimilarCore)
  \/ (mode = "noshear"%string /\ core = computeNoShearCore) ->
  let ssr := fun p : AffineParams => sumOfSquaredResiduals p img map in
  (forall p, ssr p = sq_diff_sum map (List.map (forwardAffine p) img))
  /\ (forall r : AffineParams,
        computeTransformParams img map mode "auto" = Ok r <->
        (2 <= length img)%nat /\ length map = length img
        /\ exists pS A B C D E F,
             core img map = Ok pS
             /\ core (List.map (fun '(x, y) => (x, - y)) img) map
                = Ok (A, B, C, D, E, F)
             /\ computeTransformParams img map mode "same" = Ok pS
             /\ computeTransformParams img map mode "opposite"
                = Ok (A, - B, C, D, - E, F)
             /\ ((ssr pS <= ssr (A, - B, C, D, - E, F) /\ r = pS)
                 \/ (ssr (A, - B, C, D, - E, F) < ssr pS
                     /\ r = (A, - B, C, D, - E, F))))
  /\ ((2 <= length img)%nat -> length map = length img ->
      (mode = "similar"%string -> eps <= bigC_of img) ->
      (mode = "noshear"%string -> bigC_of img <> 0) ->
      exists r, computeTransformParams img map mode "auto" = Ok r).
Proof.
  intros Hmode ssr.
  split; [intros p; apply sumOfSquaredResiduals_forward |].
  split.
  - intros r. fold (flipY img).
    rewrite (transform_inv img map mode "auto" core r Hmode).
    split.
    + intros (Hn & Hl & pS & pF & HS & HF & Hr).
      split; [exact Hn |]. split; [exact Hl |].
      destruct pF as [[[[[A B] C] D] E] F].
      exists pS, A, B, C, D, E, F.
      split; [exact HS |]. split; [exact HF |].
      split.
      { apply (transform_inv img map mode "same" core pS Hmode).
        split; [exact Hn |]. split; [exact Hl |].
        exists pS, (A, B, C, D, E, F). auto. }
      split.
      { apply (transform_inv img map mode "opposite" core _ Hmode).
        split; [exact Hn |]. split; [exact Hl |].
        exists pS, (A, B, C, D, E, F). auto. }
      change (r = pickSmaller img map pS (A, - B, C, D, - E, F)) in Hr.
      unfold pickSmaller in Hr. fold (ssr pS) in Hr.
      fold (ssr (A, - B, C, D, - E, F)) in Hr.
      destruct (Rle_dec (ssr pS) (ssr (A, - B, C, D, - E, F)))
        as [Hle | Hgt]; [left | right]; split; try exact Hr; lra.
    + intros (Hn & Hl & pS & A & B & C & D & E & F & HS & HF & _ & _ & Hr).
      split; [exact Hn |]. split; [exact Hl |].
      exists pS, (A, B, C, D, E, F).
      split; [exact HS |]. split; [exact HF |].
      change (r = pickSmaller img map pS (A, - B, C, D, - E, F)).
      unfold pickSmaller. fold (ssr pS).
      fold (ssr (A, - B, C, D, - E, F)).
      destruct (Rle_dec (ssr pS) (ssr (A, - B, C, D, - E, F)))
        as [Hle | Hgt]; destruct Hr as [[H1 ->] | [H1 ->]];
        try reflexivity; lra.
  - intros Hn Hl HS HN. apply transform_returns; try assumption.
    destruct Hmode as [[-> _] | [-> _]]; [left | right]; reflexivity.
Qed.

(** The second worked fit: a triangle and its mirror image. *)
Lemma exTri_bigC : bigC_of exTriangle = 4 / 3.
Proof.
  unfold bigC_of, centered, centroid, shift, exTriangle, sumf. simpl. field.
Qed.

Lemma exTri_core :
  computeSimilarCore exTriangle exTriFlip
  = Ok (0, - (1 / 2), 1 / 2, 1 / 2, 0, - (1 / 2)).
Proof.
  rewrite computeSimilarCore_spec by reflexivity.
  assert (HC : eps <= bigC_of exTriangle)
    by (rewrite exTri_bigC; unfold eps; lra).
  destruct (Rlt_dec (Rabs (bigC_of exTriangle)) eps) as [Hlt | _].
  { apply bigC_guard in HC. contradiction. }
  rewrite similarity_params_closed by exact HC.
  unfold bigA_of, bigB_of, bigC_of, centered, centroid, shift, exTriangle,
    exTriFlip, sumf.
  simpl. repeat (f_equal; try field).
Qed.

Lemma exTri_core_flip :
  computeSimilarCore (flipY exTriangle) exTriFlip = Ok (1, 0, 0, 0, 1, 0).
Proof.
  rewrite computeSimilarCore_spec by reflexivity.
  assert (HC : eps <= bigC_of (flipY exTriangle))
    by (rewrite bigC_flipY, exTri_bigC; unfold eps; lra).
  destruct (Rlt_dec (Rabs (bigC_of (flipY exTriangle))) eps) as [Hlt | _].
  { apply bigC_guard in HC. contradiction. }
  rewrite similarity_params_closed by exact HC.
  unfold bigA_of, bigB_of, bigC_of, centered, centroid, shift, flipY,
    exTriangle, exTriFlip, sumf.
  simpl. repeat (f_equal; try field).
Qed.

Lemma exTri_residuals :
  sumOfSquaredResiduals (0, - (1 / 2), 1 / 2, 1 / 2, 0, - (1 / 2))
    exTriangle exTriFlip = 1
  /\ sumOfSquaredResiduals (1, - 0, 0, 0, - (1), 0) exTriangle exTriFlip = 0.
Proof.
  unfold sumOfSquaredResiduals, exTriangle, exTriFlip, sumf. simpl.
  split; field.
Qed.

Lemma exResidual_converted :
  sumOfSquaredResiduals (1, - 0, 0, 0, - (1), 0) exImg exMap = 0.
Proof.
  unfold sumOfSquaredResiduals, exImg, exMap, sumf. simpl. field.
Qed.

Lemma exTri_similar_same :
  computeTransformParams exTriangle exTriFlip "similar" "same"
  = Ok (0, - (1 / 2), 1 / 2, 1 / 2, 0, - (1 / 2)).
Proof.
  rewrite computeTransformParams_similar by (simpl; lia).
  unfold computeSimilarAsAffine. rewrite exTri_core, exTri_core_flip.
  reflexivity.
Qed.

Lemma exTri_similar_opposite :
  computeTransformParams exTriangle exTriFlip "similar" "opposite"
  = Ok (1, - 0, 0, 0, - (1), 0).
Proof.
  rewrite computeTransformParams_similar by (simpl; lia).
  unfold computeSimilarAsAffine. rewrite exTri_core, exTri_core_flip.
  reflexivity.
Qed.

Lemma exNoShear_converted :
  computeTransformParams exImg exMap "noshear" "opposite"
  = Ok (1, - 0, 0, 0, - (1), 0).
Proof.
  rewrite computeTransformParams_noshear by (simpl; lia).
  unfold computeNoShearAsAffine.
  rewrite exNoShearCore, exNoShearCore_flip. reflexivity.
Qed.

(** Both modes go through the ['auto'] branch, and in both worked fits the
    flipped candidate wins with residual [0]. *)
Lemma auto_picks_smaller_residual_witness :
  computeTransformParams exImg exMap "noshear" "auto"
  = Ok (1, 0, 0, 0, - 1, 0)
  /\ computeTransformParams exTriangle exTriFlip "similar" "auto"
     = Ok (1, 0, 0, 0, - 1, 0).
Proof.
  replace (1, 0, 0, 0, - 1, 0) with (1, - 0, 0, 0, - (1), 0)
    by (repeat (f_equal; try lra)).
  split.
  - apply (proj1 (proj2 (auto_picks_smaller_residual exImg exMap "noshear"
                           computeNoShearCore
                           (or_intror (conj eq_refl eq_refl))))).
    split; [simpl; lia |]. split; [reflexivity |].
    exists (0, 0, 1 / 2, 0, 0, - (1 / 2)), 1, 0, 0, 0, 1, 0.
    split; [exact exNoShearCore |].
    split; [exact exNoShearCore_flip |].
    split; [exact exNoShear_same |].
    split; [exact exNoShear_converted |].
    right. rewrite exResidual_same, exResidual_converted.
    split; [lra | reflexivity].
  - apply (proj1 (proj2 (auto_picks_smaller_residual exTriangle exTriFlip
                           "similar" computeSimilarCore
                           (or_introl (conj eq_refl eq_refl))))).
    split; [simpl; lia |]. split; [reflexivity |].
    exists (0, - (1 / 2), 1 / 2, 1 / 2, 0, - (1 / 2)), 1, 0, 0, 0, 1, 0.
    split; [exact exTri_core |].
    split; [exact exTri_core_flip |].
    split; [exact exTri_similar_same |].
    split; [exact exTri_similar_opposite |].
    right. destruct exTri_residuals as [-> ->].
    split; [lra | reflexivity].
Defined.

Lemma similarCore_flip_returns (img map : list Position) (p : AffineParams) :
  length map = length img ->
  computeSimilarCore (flipY img) map = Ok p ->
  exists pS, computeSimilarCore img map = Ok pS.
Proof.
  intros Hl H.
  rewrite computeSimilarCore_spec in H
    by (rewrite flipY_length; symmetry; exact Hl).
  rewrite bigC_flipY in H.
  rewrite computeSimilarCore_spec by (symmetry; exact Hl).
  destruct (Rlt_dec (Rabs (bigC_of img)) eps); [discriminate |].
  eexists. reflexivity.
Qed.

(** C4. [convertFlipParam] negates the coefficients [B] and [E] and keeps
    [A], [C], [D], [F]; applying the converted parameters to [(x, y)] is
    applying the original ones to [(x, -y)].  For ['opposite'] the
    estimator returns [r] exactly when, behind its two guards, the core fit
    on the image points with [y] negated returns some [(A, B, C, D, E, F)]
    and [r] is [(A, -B, C, D, -E, F)]; in mode ['noshear'] the core fit on
    the unchanged image points, which is computed first, has to return as
    well (in mode ['similar'] it does whenever the other one does).  The
    call returns whenever the lengths pass the guards and the geometry is
    not degenerate. *)
Theorem opposite_is_converted_flip_fit :
  (forall A B C D E F : R,
      convertFlipParam (A, B, C, D, E, F) = (A, - B, C, D, - E, F))
  /\ (forall (p : AffineParams) (x y : R),
      forwardAffine (convertFlipParam p) (x, y) = forwardAffine p (x, - y))
  /\ (forall (img map : list Position) (r : AffineParams),
      computeTransformParams img map "similar" "opposite" = Ok r <->
      (2 <= length img)%nat /\ length map = length img
      /\ exists A B C D E F,
           computeSimilarCore (List.map (fun '(x, y) => (x, - y)) img) map
           = Ok (A, B, C, D, E, F)
           /\ r = (A, - B, C, D, - E, F))
  /\ (forall (img map : list Position) (r : AffineParams),
      computeTransformParams img map "noshear" "opposite" = Ok r <->
      (2 <= length img)%nat /\ length map = length img
      /\ (exists pS, computeNoShearCore img map = Ok pS)
      /\ exists A B C D E F,
           computeNoShearCore (List.map (fun '(x, y) => (x, - y)) img) map
           = Ok (A, B, C, D, E, F)
           /\ r = (A, - B, C, D, - E, F))
  /\ (forall img map : list Position,
      (2 <= length img)%nat -> length map = length img ->
      (eps <= bigC_of img ->
       exists r, computeTransformParams img map "similar" "opposite" = Ok r)
      /\ (bigC_of img <> 0 ->
          exists r,
            computeTransformParams img map "noshear" "opposite" = Ok r)).
Proof.
  split; [reflexivity |].
  split; [exact forward_convertFlipParam |].
  split; [| split].
  - intros img map r. fold (flipY img).
    rewrite (transform_inv img map "similar" "opposite" computeSimilarCore r)
      by (left; split; reflexivity).
    split.
    + intros (Hn & Hl & pS & pF & HS & HF & Hr).
      split; [exact Hn |]. split; [exact Hl |].
      destruct pF as [[[[[A B] C] D] E] F].
      exists A, B, C, D, E, F. split; [exact HF | exact Hr].
    + intros (Hn & Hl & A & B & C & D & E & F & HF & Hr).
      split; [exact Hn |]. split; [exact Hl |].
      destruct (similarCore_flip_returns img map _ Hl HF) as [pS HS].
      exists pS, (A, B, C, D, E, F).
      split; [exact HS |]. split; [exact HF | exact Hr].
  - intros img map r. fold (flipY img).
    rewrite (transform_inv img map "noshear" "opposite" computeNoShearCore r)
      by (right; split; reflexivity).
    split.
    + intros (Hn & Hl & pS & pF & HS & HF & Hr).
      split; [exact Hn |]. split; [exact Hl |].
      split; [exists pS; exact HS |].
      destruct pF as [[[[[A B] C] D] E] F].
      exists A, B, C, D, E, F. split; [exact HF | exact Hr].
    + intros (Hn & Hl & [pS HS] & A & B & C & D & E & F & HF & Hr).
      split; [exact Hn |]. split; [exact Hl |].
      exists pS, (A, B, C, D, E, F).
      split; [exact HS |]. split; [exact HF | exact Hr].
  - intros img map Hn Hl. split; intros HC.
    + apply transform_returns; try assumption;
        [left; reflexivity | intros _; exact HC | discriminate].
    + apply transform_returns; try assumption;
        [right; reflexivity | discriminate | intros _; exact HC].
Qed.

(** The ['opposite'] branch of both modes, on the worked fits. *)
Lemma opposite_is_converted_flip_fit_witness :
  computeTransformParams exImg exMap "noshear" "opposite"
  = Ok (1, 0, 0, 0, - 1, 0)
  /\ computeTransformParams exTriangle exTriFlip "similar" "opposite"
     = Ok (1, 0, 0, 0, - 1, 0).
Proof.
  replace (1, 0, 0, 0, - 1, 0) with (1, - 0, 0, 0, - (1), 0)
    by (repeat (f_equal; try lra)).
  destruct opposite_is_converted_flip_fit as (_ & _ & HS & HN & _).
  split.
  - apply HN.
    split; [simpl; lia |]. split; [reflexivity |].
    split; [eexists; exact exNoShearCore |].
    exists 1, 0, 0, 0, 1, 0. split; [exact exNoShearCore_flip | reflexivity].
  - apply HS.
    split; [simpl; lia |]. split; [reflexivity |].
    exists 1, 0, 0, 0, 1, 0. split; [exact exTri_core_flip | reflexivity].
Defined.
